(** * Frame cryptor: a shallow embedding of
    [api/crypto/frame_crypto_transformer.cc]

    The file follows the C++ translation unit top to bottom: the free helper
    functions, the AES-GCM wrappers, then the methods of
    [FrameCryptorTransformer].  Integers are [Z] with the wrap-around of
    their C++ width written out, byte buffers are [list Z], the maps of the
    class ([send_counts_], [sink_callbacks_]) are [gmap]s.  Undefined
    behaviour of the C++ (a read outside a buffer, a null dereference, an
    allocation of a wrapped-around size, a failed [RTC_CHECK]) is a [Fault]
    of the result type. *)

From Stdlib Require Import ZArith Lia.
From stdpp Require Import gmap strings list fin_maps.

Open Scope Z_scope.

(** ** Machine integers and buffers *)

Abbreviation bytes := (list Z).

Definition uint8 (x : Z) : Z := x mod 2 ^ 8.
Definition uint32 (x : Z) : Z := x mod 2 ^ 32.
(** [size_t] on the 64-bit targets the library is built for. *)
Definition size_t (x : Z) : Z := x mod 2 ^ 64.

Definition size_of (b : bytes) : Z := Z.of_nat (length b).

Inductive fault : Set :=
  | OutOfBounds   (* read outside an ArrayView or Buffer *)
  | BadAlloc      (* Buffer of a wrapped-around size *)
  | NullDeref     (* use of a null scoped_refptr *)
  | CheckFailed.  (* RTC_CHECK *)

Inductive result (A : Type) : Type :=
  | Ret (a : A)
  | Fault (f : fault).
Arguments Ret {A} a.
Arguments Fault {A} f.

Definition rbind {A B} (r : result A) (k : A → result B) : result B :=
  match r with
  | Ret a => k a
  | Fault f => Fault f
  end.

Notation "'let?' x ':=' r 'in' k" := (rbind r (fun x => k))
  (at level 10, x name, r at level 100, k at level 200, only parsing).

(** [data[i]] for an index computed in [size_t]. *)
Definition at_ (data : bytes) (i : Z) : result Z :=
  if (0 <=? i) && (i <? size_of data)
  then match data !! Z.to_nat i with
       | Some b => Ret b
       | None => Fault OutOfBounds
       end
  else Fault OutOfBounds.

(** The copy loops [for (i = 0; i < n; i++) dst[i] = src[base + i]], the
    index being computed in [size_t]. *)
Fixpoint copy_loop (src : bytes) (base i : Z) (n : nat) : result bytes :=
  match n with
  | O => Ret []
  | S n' =>
      let? b := at_ src (size_t (base + i)) in
      let? rest := copy_loop src base (i + 1) n' in
      Ret (b :: rest)
  end.

(** [rtc::ByteBufferWriter::WriteUInt32]: network byte order. *)
Definition WriteUInt32 (x : Z) : bytes :=
  [ Z.land (Z.shiftr x 24) 255; Z.land (Z.shiftr x 16) 255;
    Z.land (Z.shiftr x 8) 255; Z.land x 255 ].

(** ** Enumerations *)

Inductive EncryptOrDecrypt : Set := kEncrypt | kDecrypt.

Inductive MediaType : Set := kAudioFrame | kVideoFrame.

Inductive Algorithm : Set := kAesGcm | kAesCbc.

Inductive FrameCryptionState : Set :=
  | kOk
  | kEncryptionFailed
  | kDecryptionFailed
  | kMissingKey
  | kKeyRatcheted
  | kInternalError.

Global Instance FrameCryptionState_eq_dec : EqDecision FrameCryptionState.
Proof. solve_decision. Defined.

Inductive VideoCodecType : Set :=
  | kVideoCodecGeneric
  | kVideoCodecVP8
  | kVideoCodecVP9
  | kVideoCodecAV1
  | kVideoCodecH264.

Global Instance VideoCodecType_eq_dec : EqDecision VideoCodecType.
Proof. solve_decision. Defined.

Inductive Direction : Set := kUnknown | kReceiver | kSender.

Global Instance Direction_eq_dec : EqDecision Direction.
Proof. solve_decision. Defined.

(** Return codes of the AES wrappers. *)
Definition Success : Z := 0.
Definition ErrorUnexpected : Z := -1.
Definition OperationError : Z := -2.
Definition ErrorDataTooSmall : Z := -3.
Definition ErrorInvalidAesGcmTagLength : Z := -4.

(** ** Frames *)

(** What the cryptor reads of a [TransformableFrameInterface]: direction,
    SSRC, RTP timestamp, payload, and for video frames the codec of the
    header and the key-frame flag. *)
Record Frame : Type := {
  GetDirection : Direction;
  GetSsrc : Z;
  GetTimestamp : Z;
  GetData : bytes;
  codec : VideoCodecType;
  IsKeyFrame : bool;
}.

Definition SetData (frame : Frame) (d : bytes) : Frame :=
  {| GetDirection := GetDirection frame; GetSsrc := GetSsrc frame;
     GetTimestamp := GetTimestamp frame; GetData := d;
     codec := codec frame; IsKeyFrame := IsKeyFrame frame |}.

(** ** Key material *)

Record KeySet : Type := {
  material : bytes;
  encryption_key : bytes;
}.

(** Modelled from the spec: the state of a [ParticipantKeyHandler], whose
    class is declared outside this translation unit: a key ring of slots
    that are empty or hold a key set, the index installed last, the
    validity flag, the failure counter and the threshold it is compared
    with. *)
Record ParticipantKeyHandler : Type := {
  crypto_key_ring : list (option KeySet);
  current_key_index : Z;
  has_valid_key : bool;
  decryption_failure_count : Z;
  failure_threshold : Z;
}.

Record KeyProviderOptions : Type := {
  shared_key : bool;
  ratchet_salt : bytes;
  ratchet_window_size : Z;
  uncrypted_magic_bytes : bytes;
  key_ring_size : Z;
  discard_frame_when_cryptor_not_ready : bool;
}.

(** Modelled from the spec: a [KeyProvider] is its options and the handlers
    it hands out, by participant id; in shared-key mode every participant
    gets the handler stored under one fixed id. *)
Record KeyProvider : Type := {
  options : KeyProviderOptions;
  handlers : gmap string ParticipantKeyHandler;
}.

(** ** The transformer *)

(** A sink ([TransformedFrameCallback]) is named by a number. *)
Abbreviation Sink := nat.

Record FrameCryptorTransformer : Type := {
  participant_id_ : string;
  type_ : MediaType;
  algorithm_ : Algorithm;
  enabled_cryption_ : bool;
  key_index_ : Z;
  sink_callback_ : option Sink;
  sink_callbacks_ : gmap Z (option Sink);
  observer_ : bool;
  last_enc_error_ : FrameCryptionState;
  last_dec_error_ : FrameCryptionState;
  send_counts_ : gmap Z Z;
}.

Definition set_sink_callbacks (t : FrameCryptorTransformer)
    (m : gmap Z (option Sink)) : FrameCryptorTransformer :=
  {| participant_id_ := participant_id_ t; type_ := type_ t;
     algorithm_ := algorithm_ t; enabled_cryption_ := enabled_cryption_ t;
     key_index_ := key_index_ t; sink_callback_ := sink_callback_ t;
     sink_callbacks_ := m; observer_ := observer_ t;
     last_enc_error_ := last_enc_error_ t;
     last_dec_error_ := last_dec_error_ t; send_counts_ := send_counts_ t |}.

Definition set_last_enc_error (t : FrameCryptorTransformer)
    (s : FrameCryptionState) : FrameCryptorTransformer :=
  {| participant_id_ := participant_id_ t; type_ := type_ t;
     algorithm_ := algorithm_ t; enabled_cryption_ := enabled_cryption_ t;
     key_index_ := key_index_ t; sink_callback_ := sink_callback_ t;
     sink_callbacks_ := sink_callbacks_ t; observer_ := observer_ t;
     last_enc_error_ := s;
     last_dec_error_ := last_dec_error_ t; send_counts_ := send_counts_ t |}.

Definition set_last_dec_error (t : FrameCryptorTransformer)
    (s : FrameCryptionState) : FrameCryptorTransformer :=
  {| participant_id_ := participant_id_ t; type_ := type_ t;
     algorithm_ := algorithm_ t; enabled_cryption_ := enabled_cryption_ t;
     key_index_ := key_index_ t; sink_callback_ := sink_callback_ t;
     sink_callbacks_ := sink_callbacks_ t; observer_ := observer_ t;
     last_enc_error_ := last_enc_error_ t;
     last_dec_error_ := s; send_counts_ := send_counts_ t |}.

Definition set_send_counts (t : FrameCryptorTransformer)
    (m : gmap Z Z) : FrameCryptorTransformer :=
  {| participant_id_ := participant_id_ t; type_ := type_ t;
     algorithm_ := algorithm_ t; enabled_cryption_ := enabled_cryption_ t;
     key_index_ := key_index_ t; sink_callback_ := sink_callback_ t;
     sink_callbacks_ := sink_callbacks_ t; observer_ := observer_ t;
     last_enc_error_ := last_enc_error_ t;
     last_dec_error_ := last_dec_error_ t; send_counts_ := m |}.

(** [FrameCryptorTransformer::getIvSize] *)
Definition getIvSize (t : FrameCryptorTransformer) : Z :=
  match algorithm_ t with
  | kAesGcm => 12
  | _ => 0
  end.

(** [FrameCryptorTransformer::makeIv].  [rnd] is the value that
    [floor(rand() * 0xFFFF)] stores into the [uint32_t] map entry. *)
Definition makeIv (rnd ssrc timestamp : Z) (t : FrameCryptorTransformer)
    : result (bytes * FrameCryptorTransformer) :=
  let '(send_count, counts) :=
    match send_counts_ t !! ssrc with
    | None => (0, <[ssrc := rnd]> (send_counts_ t))
    | Some c => (c, send_counts_ t)
    end in
  let buf :=
    WriteUInt32 ssrc ++ WriteUInt32 timestamp ++
    WriteUInt32 (uint32 (timestamp - send_count mod 0xFFFF)) in
  let counts := <[ssrc := uint32 (send_count + 1)]> counts in
  if size_of buf =? getIvSize t
  then Ret (buf, set_send_counts t counts)
  else Fault CheckFailed.

(** ** Collaborators outside the translation unit *)

Inductive EVP_AEAD : Set := EVP_aead_aes_128_gcm | EVP_aead_aes_256_gcm.
Inductive EVP_CIPHER : Set := EVP_aes_128_cbc | EVP_aes_256_cbc.

(** [webrtc::H264::NaluIndex] *)
Record NaluIndex : Type := {
  start_offset : Z;
  payload_start_offset : Z;
  payload_size : Z;
}.

(** The library functions the file calls: BoringSSL's AEAD and PBKDF2,
    the H.264 helpers of [common_video/h264], and the ratchet step of the
    key handler (a deterministic function of the salt and the material). *)
Class External : Type := {
  EVP_AEAD_CTX_init : EVP_AEAD → bytes → Z → bool;
  (* algorithm, key, tag length, nonce, input, additional data *)
  EVP_AEAD_CTX_seal : EVP_AEAD → bytes → Z → bytes → bytes → bytes → option bytes;
  EVP_AEAD_CTX_open : EVP_AEAD → bytes → Z → bytes → bytes → bytes → option bytes;
  (* password, salt, iterations, key length *)
  PKCS5_PBKDF2_HMAC : bytes → bytes → Z → Z → option bytes;
  FindNaluIndices : bytes → list NaluIndex;
  WriteRbsp : bytes → bytes;
  ParseRbsp : bytes → bytes;
  RatchetKeyMaterial : bytes → bytes → bytes;
}.

(** Modelled from the spec: [H264::ParseNaluType] keeps the low five bits
    of the NALU header byte; [kSlice] and [kIdr] are the codes of a non-IDR
    and of an IDR slice. *)
Definition ParseNaluType (data : Z) : Z := Z.land data 0x1F.
Definition kSlice : Z := 1.
Definition kIdr : Z := 5.

(** ** Free functions *)

Definition GetAesGcmAlgorithmFromKeySize (key_size_bytes : Z) : option EVP_AEAD :=
  if key_size_bytes =? 16 then Some EVP_aead_aes_128_gcm
  else if key_size_bytes =? 32 then Some EVP_aead_aes_256_gcm
  else None.

Definition GetAesCbcAlgorithmFromKeySize (key_size_bytes : Z) : option EVP_CIPHER :=
  if key_size_bytes =? 16 then Some EVP_aes_128_cbc
  else if key_size_bytes =? 32 then Some EVP_aes_256_cbc
  else None.

Definition FrameIsH264 (frame : Frame) (type : MediaType) : bool :=
  match type with
  | kVideoFrame => bool_decide (codec frame = kVideoCodecH264)
  | _ => false
  end.

(** [NeedsRbspUnescaping]: the loop bound [frameSize - 3] is computed in
    [size_t]; the three reads of an iteration short-circuit.  [fuel] counts
    iterations: a scan of a buffer of [n] bytes ends or faults within
    [n + 1] of them. *)
Fixpoint NeedsRbspUnescaping_loop (fuel : nat) (frameData : bytes)
    (bound i : Z) : result bool :=
  match fuel with
  | O => Fault OutOfBounds
  | S fuel' =>
      if i <? bound then
        let? b0 := at_ frameData i in
        if b0 =? 0 then
          let? b1 := at_ frameData (i + 1) in
          if b1 =? 0 then
            let? b2 := at_ frameData (i + 2) in
            if b2 =? 3 then Ret true
            else NeedsRbspUnescaping_loop fuel' frameData bound (i + 1)
          else NeedsRbspUnescaping_loop fuel' frameData bound (i + 1)
        else NeedsRbspUnescaping_loop fuel' frameData bound (i + 1)
      else Ret false
  end.

Definition NeedsRbspUnescaping (frameData : bytes) : result bool :=
  NeedsRbspUnescaping_loop (S (length frameData)) frameData
    (size_t (size_of frameData - 3)) 0.

(** [to_hex]: every byte as two upper-case hexadecimal digits
    ([std::uppercase], [std::hex], [std::setfill('0')] and, per byte,
    [std::setw(2)]).  [data] is a pointer and [len] an [int]: the loop reads
    [data[0]] to [data[len - 1]] whatever the buffer holds, and runs no
    iteration for a [len] that is not positive. *)
Definition hex_digit (d : Z) : Ascii.ascii :=
  default Ascii.zero (String.get (Z.to_nat d) "0123456789ABCDEF").

Fixpoint to_hex_loop (data : bytes) (i : Z) (n : nat) : result string :=
  match n with
  | O => Ret EmptyString
  | S n' =>
      let? b := at_ data i in
      let? rest := to_hex_loop data (i + 1) n' in
      Ret (String (hex_digit (uint8 b / 16)) (String (hex_digit (uint8 b mod 16)) rest))
  end.

Definition to_hex (data : bytes) (len : Z) : result string :=
  to_hex_loop data 0 (Z.to_nat len).

(** The loop of [get_unencrypted_bytes] over the NALU indices. *)
Fixpoint nalu_loop (date_in : bytes) (nalu_indices : list NaluIndex) : result Z :=
  match nalu_indices with
  | [] => Ret 0
  | index :: rest =>
      let? slice0 := at_ date_in (payload_start_offset index) in
      let nalu_type := ParseNaluType slice0 in
      if (nalu_type =? kIdr) || (nalu_type =? kSlice)
      then Ret (uint8 (payload_start_offset index + 2))
      else nalu_loop date_in rest
  end.

Section Cryptor.
Context {ext : External}.

(** [get_unencrypted_bytes]; the result is a [uint8_t]. *)
Definition get_unencrypted_bytes (frame : Frame) (type : MediaType) : result Z :=
  match type with
  | kAudioFrame => Ret 1
  | kVideoFrame =>
      if bool_decide (codec frame = kVideoCodecAV1) then Ret 0
      else if bool_decide (codec frame = kVideoCodecVP8)
      then Ret (if IsKeyFrame frame then 10 else 3)
      else if bool_decide (codec frame = kVideoCodecH264)
      then nalu_loop (GetData frame) (FindNaluIndices (GetData frame))
      else Ret 0
  end.

(** [DerivePBKDF2KeyFromRawKey]: return code and derived key. *)
Definition DerivePBKDF2KeyFromRawKey (raw_key salt : bytes)
    (optional_length_bits : Z) : Z * bytes :=
  let key_size_bytes := optional_length_bits / 8 in
  match PKCS5_PBKDF2_HMAC raw_key salt 100000 key_size_bytes with
  | Some derived_key => (Success, derived_key)
  | None => (ErrorUnexpected, [])
  end.

(** [AesGcmEncryptDecrypt]: return code and, on [Success], the contents of
    [buffer].  The buffer is written before it is read on every path of the
    callers, so its previous contents are not an input. *)
Definition AesGcmEncryptDecrypt (mode : EncryptOrDecrypt) (raw_key data : bytes)
    (tag_length_bytes : Z) (iv additional_data : bytes)
    (aead_alg : option EVP_AEAD) : Z * bytes :=
  match aead_alg with
  | None => (ErrorUnexpected, [])
  | Some alg =>
      if negb (EVP_AEAD_CTX_init alg raw_key tag_length_bytes)
      then (OperationError, [])
      else
        match mode with
        | kDecrypt =>
            if size_of data <? tag_length_bytes then (ErrorDataTooSmall, [])
            else
              match EVP_AEAD_CTX_open alg raw_key tag_length_bytes iv data
                      additional_data with
              | Some out => (Success, out)
              | None => (OperationError, [])
              end
        | kEncrypt =>
            match EVP_AEAD_CTX_seal alg raw_key tag_length_bytes iv data
                    additional_data with
            | Some out => (Success, out)
            | None => (OperationError, [])
            end
        end
  end.

(** [AesEncryptDecrypt] *)
Definition AesEncryptDecrypt (mode : EncryptOrDecrypt) (algorithm : Algorithm)
    (raw_key iv additional_data data : bytes) : Z * bytes :=
  match algorithm with
  | kAesGcm =>
      let tag_length_bits := 128 in
      match GetAesGcmAlgorithmFromKeySize (size_of raw_key) with
      | None => (ErrorUnexpected, [])
      | Some cipher =>
          AesGcmEncryptDecrypt mode raw_key data (tag_length_bits / 8) iv
            additional_data (Some cipher)
      end
  | _ => (ErrorUnexpected, [])
  end.

(** ** The key handler and the key provider *)

(** Modelled from the spec: [ParticipantKeyHandler::DeriveKeys] derives the
    encryption key with PBKDF2 and pairs it with the material; a failed
    derivation gives the null key set. *)
Definition DeriveKeys (password ratchet_salt : bytes)
    (optional_length_bits : Z) : option KeySet :=
  match DerivePBKDF2KeyFromRawKey password ratchet_salt optional_length_bits with
  | (rc, derived_key) =>
      if rc =? Success
      then Some {| material := password; encryption_key := derived_key |}
      else None
  end.

(** Modelled from the spec: [ParticipantKeyHandler::GetKeySet], none for an
    index outside the ring or an empty slot. *)
Definition GetKeySet (h : ParticipantKeyHandler) (index : Z) : option KeySet :=
  if (0 <=? index) && (index <? Z.of_nat (length (crypto_key_ring h)))
  then mjoin (crypto_key_ring h !! Z.to_nat index)
  else None.

(** Modelled from the spec: [ParticipantKeyHandler::SetKeyFromMaterial]
    derives a 128-bit key set from the material with the provider's salt,
    stores it at the index and makes the index current; validity flag and
    failure counter are left as they are. *)
Definition SetKeyFromMaterial (salt material : bytes) (index : Z)
    (h : ParticipantKeyHandler) : ParticipantKeyHandler :=
  {| crypto_key_ring :=
       <[Z.to_nat index := DeriveKeys material salt 128]> (crypto_key_ring h);
     current_key_index := index;
     has_valid_key := has_valid_key h;
     decryption_failure_count := decryption_failure_count h;
     failure_threshold := failure_threshold h |}.

(** Modelled from the spec: [ParticipantKeyHandler::SetHasValidKey]. *)
Definition SetHasValidKey (h : ParticipantKeyHandler) : ParticipantKeyHandler :=
  {| crypto_key_ring := crypto_key_ring h;
     current_key_index := current_key_index h;
     has_valid_key := true;
     decryption_failure_count := decryption_failure_count h;
     failure_threshold := failure_threshold h |}.

(** Modelled from the spec: [ParticipantKeyHandler::DecryptionFailure]
    counts the failure and answers whether the threshold is reached. *)
Definition DecryptionFailure (h : ParticipantKeyHandler)
    : bool * ParticipantKeyHandler :=
  let n := decryption_failure_count h + 1 in
  (failure_threshold h <=? n,
   {| crypto_key_ring := crypto_key_ring h;
      current_key_index := current_key_index h;
      has_valid_key := has_valid_key h;
      decryption_failure_count := n;
      failure_threshold := failure_threshold h |}).

(** Modelled from the spec: the fixed id under which the provider keeps
    the handler of shared-key mode. *)
Definition shared_key_id : string := "shared".

(** The id under which the provider stores the handler that
    [GetSharedKey] (shared-key mode) or [GetKey] returns for a participant:
    the model's pointer to the handler. *)
Definition handler_ref (p : KeyProvider) (participant_id : string) : string :=
  if shared_key (options p) then shared_key_id else participant_id.

Definition set_handler (p : KeyProvider) (ref : string)
    (h : ParticipantKeyHandler) : KeyProvider :=
  {| options := options p; handlers := <[ref := h]> (handlers p) |}.

(** ** Observable events *)

(** Calls into the key provider and the key handler. *)
Inductive KeyCall : Type :=
  | CallGetKey (participant_id : string)
  | CallGetSharedKey (participant_id : string)
  | CallGetKeySet (index : Z)
  | CallHasValidKey (r : bool)
  | CallRatchetKeyMaterial (current : bytes)
  | CallDeriveKeys (password : bytes)
  | CallSetKeyFromMaterial (password : bytes) (index : Z)
  | CallSetHasValidKey
  | CallDecryptionFailure (r : bool).

Inductive Event : Type :=
  (* the observer's callback, posted to the signaling thread *)
  | OnFrameCryptionStateChanged (participant_id : string)
      (state : FrameCryptionState)
  (* a frame handed to a sink *)
  | OnTransformedFrame (sink : Sink) (frame : Frame)
  | Key (c : KeyCall).

(** ** The state the methods run in *)

Record World : Type := {
  cryptor : FrameCryptorTransformer;
  key_provider_ : KeyProvider;
}.

(** State, event log and faults. *)
Definition M (A : Type) : Type := World → result (A * World * list Event).

Definition ret {A} (a : A) : M A := fun w => Ret (a, w, []).

Definition bind {A B} (m : M A) (k : A → M B) : M B := fun w =>
  match m w with
  | Ret (a, w1, tr1) =>
      match k a w1 with
      | Ret (b, w2, tr2) => Ret (b, w2, tr1 ++ tr2)
      | Fault f => Fault f
      end
  | Fault f => Fault f
  end.

Notation "'let*' x ':=' m 'in' k" := (bind m (fun x => k))
  (at level 10, x name, m at level 100, k at level 200, only parsing).
Notation "m ';;' k" := (bind m (fun _ => k))
  (at level 100, k at level 200, right associativity, only parsing).

Definition lift {A} (r : result A) : M A := fun w =>
  match r with
  | Ret a => Ret (a, w, [])
  | Fault f => Fault f
  end.

Definition emit (e : Event) : M unit := fun w => Ret (tt, w, [e]).
Definition get_cryptor : M FrameCryptorTransformer := fun w => Ret (cryptor w, w, []).
Definition get_provider : M KeyProvider := fun w => Ret (key_provider_ w, w, []).
Definition put_cryptor (t : FrameCryptorTransformer) : M unit := fun w =>
  Ret (tt, {| cryptor := t; key_provider_ := key_provider_ w |}, []).
Definition put_provider (p : KeyProvider) : M unit := fun w =>
  Ret (tt, {| cryptor := cryptor w; key_provider_ := p |}, []).

(** A method call on the handler [key_handler] points to. *)
Definition get_handler (key_handler : string) : M ParticipantKeyHandler :=
  let* p := get_provider in
  match handlers p !! key_handler with
  | Some h => ret h
  | None => lift (Fault NullDeref)
  end.

Definition update_handler (key_handler : string)
    (f : ParticipantKeyHandler → ParticipantKeyHandler) : M unit :=
  let* h := get_handler key_handler in
  let* p := get_provider in
  put_provider (set_handler p key_handler (f h)).

(** [FrameCryptorTransformer::onFrameCryptionStateChanged] *)
Definition onFrameCryptionStateChanged (state : FrameCryptionState) : M unit :=
  let* t := get_cryptor in
  if observer_ t
  then emit (OnFrameCryptionStateChanged (participant_id_ t) state)
  else ret tt.

(** The idiom of the two paths:
    [if (last_enc_error_ != s) { last_enc_error_ = s;
     onFrameCryptionStateChanged(last_enc_error_); }]. *)
Definition enc_state (s : FrameCryptionState) : M unit :=
  let* t := get_cryptor in
  if bool_decide (last_enc_error_ t ≠ s)
  then put_cryptor (set_last_enc_error t s) ;;
       onFrameCryptionStateChanged s
  else ret tt.

Definition dec_state (s : FrameCryptionState) : M unit :=
  let* t := get_cryptor in
  if bool_decide (last_dec_error_ t ≠ s)
  then put_cryptor (set_last_dec_error t s) ;;
       onFrameCryptionStateChanged s
  else ret tt.

(** The sink snapshot taken under [mutex_]: [sink_callbacks_[ssrc]] is
    [std::map::operator[]], which enters a null sink for an absent SSRC. *)
Definition snapshot_sink (frame : Frame) : M (option Sink) :=
  let* t := get_cryptor in
  match type_ t with
  | kAudioFrame => ret (sink_callback_ t)
  | kVideoFrame =>
      match sink_callbacks_ t !! GetSsrc frame with
      | Some s => ret s
      | None =>
          put_cryptor
            (set_sink_callbacks t (<[GetSsrc frame := None]> (sink_callbacks_ t))) ;;
          ret None
      end
  end.

(** [options().shared_key ? GetSharedKey(id) : GetKey(id)]: the handler
    pointer, null when the provider has none. *)
Definition lookup_key_handler : M (option string) :=
  let* t := get_cryptor in
  let* p := get_provider in
  emit (Key (if shared_key (options p)
             then CallGetSharedKey (participant_id_ t)
             else CallGetKey (participant_id_ t))) ;;
  let ref := handler_ref p (participant_id_ t) in
  ret (match handlers p !! ref with Some _ => Some ref | None => None end).

(** [key_handler->GetKeySet(index)] *)
Definition call_GetKeySet (key_handler : string) (index : Z) : M (option KeySet) :=
  let* h := get_handler key_handler in
  emit (Key (CallGetKeySet index)) ;;
  ret (GetKeySet h index).

(** [rtc::ArrayView::subview] *)
Definition subview (v : bytes) (offset sz : Z) : bytes :=
  if offset <? size_of v
  then take (Z.to_nat (Z.min sz (size_of v - offset))) (drop (Z.to_nat offset) v)
  else [].

(** [rtc::Buffer(n)] for an [n] computed in [size_t]: a size that wrapped
    around cannot be allocated. *)
Definition alloc (n : Z) : result nat :=
  if n <? 2 ^ 63 then Ret (Z.to_nat n) else Fault BadAlloc.

(** [rtc::Buffer tag(p.data() + p.size() - 16, 16)]: sixteen bytes read
    from sixteen before the end of [p].  For a [p] of fewer than sixteen
    bytes the read starts before the buffer, which is undefined behaviour
    and a [Fault] here as every read outside a buffer is; [tag] is used
    nowhere, so a build that survives the read goes on with the call. *)
Definition read_tag (p : bytes) : result bytes :=
  if 16 <=? size_of p then Ret (drop (length p - 16) p) else Fault OutOfBounds.

(** [makeIv] as a method call. *)
Definition call_makeIv (rnd ssrc timestamp : Z) : M bytes := fun w =>
  match makeIv rnd ssrc timestamp (cryptor w) with
  | Ret (iv, t) => Ret (iv, {| cryptor := t; key_provider_ := key_provider_ w |}, [])
  | Fault f => Fault f
  end.

(** [key_handler->SetKeyFromMaterial(material, index)] *)
Definition call_SetKeyFromMaterial (key_handler : string) (password : bytes)
    (index : Z) : M unit :=
  let* p := get_provider in
  emit (Key (CallSetKeyFromMaterial password index)) ;;
  update_handler key_handler
    (SetKeyFromMaterial (ratchet_salt (options p)) password index).

(** ** [FrameCryptorTransformer::encryptFrame] *)

Definition encryptFrame (rnd : Z) (frame : Frame) : M unit :=
  let* t := get_cryptor in
  let enabled_cryption := enabled_cryption_ t in
  let* sink_callback := snapshot_sink frame in
  match sink_callback with
  | None => enc_state kInternalError
  | Some sink =>
      let date_in := GetData frame in
      let* p := get_provider in
      if (size_of date_in =? 0) || negb enabled_cryption then
        if discard_frame_when_cryptor_not_ready (options p) then ret tt
        else emit (OnTransformedFrame sink frame)
      else
        let* key_handler := lookup_key_handler in
        match key_handler with
        | None => enc_state kMissingKey
        | Some kh =>
            let* present := call_GetKeySet kh (key_index_ t) in
            match present with
            | None => enc_state kMissingKey
            | Some _ =>
                let* key_set := call_GetKeySet kh (key_index_ t) in
                match key_set with
                | None => lift (Fault NullDeref)
                | Some key_set =>
                    let* unencrypted_bytes :=
                      lift (get_unencrypted_bytes frame (type_ t)) in
                    let* frame_header :=
                      lift (copy_loop date_in 0 0 (Z.to_nat unencrypted_bytes)) in
                    let frame_trailer := [uint8 (getIvSize t); uint8 (key_index_ t)] in
                    let* iv := call_makeIv rnd (GetSsrc frame) (GetTimestamp frame) in
                    let* n := lift (alloc (size_t (size_of date_in - unencrypted_bytes))) in
                    let* payload := lift (copy_loop date_in unencrypted_bytes 0 n) in
                    let r := AesEncryptDecrypt kEncrypt (algorithm_ t)
                               (encryption_key key_set) iv frame_header payload in
                    if r.1 =? Success then
                      let encrypted_payload := r.2 in
                      let* tag := lift (read_tag encrypted_payload) in
                      let data_without_header :=
                        encrypted_payload ++ iv ++ frame_trailer in
                      (* the RTC_CHECK_EQ of the second branch compares the
                         size of the concatenation with the sum of the
                         sizes of its parts *)
                      let data_out :=
                        frame_header ++
                        (if FrameIsH264 frame (type_ t)
                         then WriteRbsp data_without_header
                         else data_without_header) in
                      enc_state kOk ;;
                      emit (OnTransformedFrame sink (SetData frame data_out))
                    else enc_state kEncryptionFailed
                end
            end
        end
  end.

(** ** [FrameCryptorTransformer::decryptFrame] *)

(** The ratchet loop, [while (ratchet_count < ratchet_window_size)], run
    with [n] attempts left.  It returns [decryption_success], the final
    [ratchet_count] and the contents of [buffer]. *)
Fixpoint ratchet_loop (n : nat) (ratchet_count : Z) (currentKeyMaterial : bytes)
    (key_handler : string) (key_index : Z) (iv frame_header encrypted_payload : bytes)
    : M (bool * Z * bytes) :=
  match n with
  | O => ret (false, ratchet_count, [])
  | S n' =>
      let ratchet_count := ratchet_count + 1 in
      let* t := get_cryptor in
      let* p := get_provider in
      let salt := ratchet_salt (options p) in
      emit (Key (CallRatchetKeyMaterial currentKeyMaterial)) ;;
      let new_material := RatchetKeyMaterial salt currentKeyMaterial in
      emit (Key (CallDeriveKeys new_material)) ;;
      match DeriveKeys new_material salt 128 with
      | None => lift (Fault NullDeref)
      | Some ratcheted_key_set =>
          let r := AesEncryptDecrypt kDecrypt (algorithm_ t)
                     (encryption_key ratcheted_key_set) iv frame_header
                     encrypted_payload in
          if r.1 =? Success then
            (* success, so we set the new key *)
            call_SetKeyFromMaterial key_handler new_material key_index ;;
            emit (Key CallSetHasValidKey) ;;
            update_handler key_handler SetHasValidKey ;;
            dec_state kKeyRatcheted ;;
            ret (true, ratchet_count, r.2)
          else
            (* for the next ratchet attempt *)
            ratchet_loop n' ratchet_count new_material key_handler key_index
              iv frame_header encrypted_payload
      end
  end.

(** Lines 574 to 628: the first decryption attempt and the ratchet
    recovery.  It returns [decryption_success] and [buffer]. *)
Definition decrypt_or_ratchet (key_handler : string) (key_set : KeySet)
    (key_index : Z) (iv frame_header encrypted_payload : bytes) : M (bool * bytes) :=
  let* t := get_cryptor in
  let* p := get_provider in
  let initialKeyMaterial := material key_set in
  let r := AesEncryptDecrypt kDecrypt (algorithm_ t) (encryption_key key_set)
             iv frame_header encrypted_payload in
  if r.1 =? Success then ret (true, r.2)
  else
    let currentKeyMaterial := material key_set in
    let window := ratchet_window_size (options p) in
    if 0 <? window then
      let* l := ratchet_loop (Z.to_nat window) 0 currentKeyMaterial key_handler
                  key_index iv frame_header encrypted_payload in
      let decryption_success := l.1.1 in
      let ratchet_count := l.1.2 in
      (if negb decryption_success || (window <=? ratchet_count)
       then call_SetKeyFromMaterial key_handler initialKeyMaterial key_index
       else ret tt) ;;
      ret (decryption_success, l.2)
    else ret (false, []).

(** Lines 630 to 650: the failure report, or the delivery of the frame. *)
Definition decrypt_finish (sink : Sink) (frame : Frame) (key_handler : string)
    (frame_header : bytes) (r : bool * bytes) : M unit :=
  let decryption_success := r.1 in
  let buffer := r.2 in
  if negb decryption_success then
    let* h := get_handler key_handler in
    let failed := DecryptionFailure h in
    emit (Key (CallDecryptionFailure failed.1)) ;;
    update_handler key_handler (fun _ => failed.2) ;;
    if failed.1 then dec_state kDecryptionFailed else ret tt
  else
    let data_out := frame_header ++ buffer in
    dec_state kOk ;;
    emit (OnTransformedFrame sink (SetData frame data_out)).

(** What the function has in hand when it calls [AesEncryptDecrypt] at
    line 577. *)
Record DecryptContext : Type := {
  dc_sink : Sink;
  dc_key_handler : string;
  dc_key_set : KeySet;
  dc_key_index : Z;
  dc_iv : bytes;
  dc_frame_header : bytes;
  dc_encrypted_payload : bytes;
}.

(** Lines 548 to 571: the IV, the encrypted payload and the tag are cut
    out of the frame. *)
Definition decrypt_cut (sink : Sink) (frame : Frame) (key_handler : string)
    (key_set : KeySet) (unencrypted_bytes ivLength key_index : Z)
    (frame_header : bytes) : M (option DecryptContext) :=
  let* t := get_cryptor in
  let date_in := GetData frame in
  let* iv :=
    lift (copy_loop date_in (size_of date_in - 2 - ivLength) 0 (Z.to_nat ivLength)) in
  let* n := lift (alloc (size_t (size_of date_in - unencrypted_bytes))) in
  let* encrypted_buffer := lift (copy_loop date_in unencrypted_bytes 0 n) in
  let* encrypted_buffer :=
    if FrameIsH264 frame (type_ t) then
      let* needs := lift (NeedsRbspUnescaping encrypted_buffer) in
      ret (if needs then ParseRbsp encrypted_buffer else encrypted_buffer)
    else ret encrypted_buffer in
  let* m := lift (alloc (size_t (size_of encrypted_buffer - ivLength - 2))) in
  let* encrypted_payload := lift (copy_loop encrypted_buffer 0 0 m) in
  let* tag := lift (read_tag encrypted_payload) in
  ret (Some {| dc_sink := sink; dc_key_handler := key_handler;
               dc_key_set := key_set; dc_key_index := key_index;
               dc_iv := iv; dc_frame_header := frame_header;
               dc_encrypted_payload := encrypted_payload |}).

(** Lines 501 to 546: header, trailer, and the key the trailer names. *)
Definition decrypt_parse (sink : Sink) (frame : Frame) : M (option DecryptContext) :=
  let* t := get_cryptor in
  let* p := get_provider in
  let date_in := GetData frame in
  let* unencrypted_bytes := lift (get_unencrypted_bytes frame (type_ t)) in
  let* frame_header := lift (copy_loop date_in 0 0 (Z.to_nat unencrypted_bytes)) in
  let* ivLength := lift (at_ date_in (size_t (size_of date_in - 2))) in
  let* key_index := lift (at_ date_in (size_t (size_of date_in - 1))) in
  if negb (ivLength =? getIvSize t) then dec_state kDecryptionFailed ;; ret None
  else
    let* key_handler := lookup_key_handler in
    if (key_index <? 0) || (key_ring_size (options p) <=? key_index)
    then dec_state kMissingKey ;; ret None
    else
      match key_handler with
      | None => dec_state kMissingKey ;; ret None
      | Some kh =>
          let* present := call_GetKeySet kh key_index in
          match present with
          | None => dec_state kMissingKey ;; ret None
          | Some _ =>
              let* wait_for_key :=
                if bool_decide (last_dec_error_ t = kDecryptionFailed) then
                  let* h := get_handler kh in
                  emit (Key (CallHasValidKey (has_valid_key h))) ;;
                  ret (negb (has_valid_key h))
                else ret false in
              if wait_for_key then
                (* if decryption failed and we have an invalid key,
                   please try to decrypt with the next new key *)
                ret None
              else
                let* key_set := call_GetKeySet kh key_index in
                match key_set with
                | None => lift (Fault NullDeref)
                | Some key_set =>
                    decrypt_cut sink frame kh key_set unencrypted_bytes
                      ivLength key_index frame_header
                end
          end
      end.

(** [uncrypted_magic_bytes.size() > 0 && date_in.size() >= ...size() &&
    uncrypted_magic_bytes == data], [data] being the tail of the payload.
    The RTC_CHECK_EQ that follows compares the sizes of two equal
    vectors. *)
Definition has_magic_bytes (magic date_in : bytes) : bool :=
  (0 <? size_of magic) && (size_of magic <=? size_of date_in) &&
  bool_decide
    (magic = subview date_in (size_of date_in - size_of magic) (size_of magic)).

(** Lines 439 to 571.  An early [return] of the function is [None]; the
    function goes on to its first decryption attempt with [Some] context. *)
Definition decrypt_setup (frame : Frame) : M (option DecryptContext) :=
  let* t := get_cryptor in
  let enabled_cryption := enabled_cryption_ t in
  let* sink_callback := snapshot_sink frame in
  match sink_callback with
  | None => dec_state kInternalError ;; ret None
  | Some sink =>
      let date_in := GetData frame in
      let* p := get_provider in
      if (size_of date_in =? 0) || negb enabled_cryption then
        if discard_frame_when_cryptor_not_ready (options p) then ret None
        else emit (OnTransformedFrame sink frame) ;; ret None
      else
        let magic := uncrypted_magic_bytes (options p) in
        if has_magic_bytes magic date_in then
          (* magic bytes detected, this is a non-encrypted frame, skip
             frame decryption. *)
          emit (OnTransformedFrame sink
                  (SetData frame
                     (subview date_in 0 (size_of date_in - size_of magic)))) ;;
          ret None
        else decrypt_parse sink frame
  end.

Definition decryptFrame (frame : Frame) : M unit :=
  let* ctx := decrypt_setup frame in
  match ctx with
  | None => ret tt
  | Some c =>
      let* r := decrypt_or_ratchet (dc_key_handler c) (dc_key_set c)
                  (dc_key_index c) (dc_iv c) (dc_frame_header c)
                  (dc_encrypted_payload c) in
      decrypt_finish (dc_sink c) frame (dc_key_handler c) (dc_frame_header c) r
  end.

(** ** [FrameCryptorTransformer::Transform]

    The task posted to the worker thread is run at once: the worker is a
    single thread that runs the tasks in the order they were posted. *)
Definition Transform (rnd : Z) (frame : Frame) : M unit :=
  let* t := get_cryptor in
  if bool_decide (sink_callback_ t = None) &&
     bool_decide (size (sink_callbacks_ t) = 0%nat)
  then ret tt
  else
    match GetDirection frame with
    | kSender => encryptFrame rnd frame
    | kReceiver => decryptFrame frame
    | kUnknown => ret tt
    end.

End Cryptor.

(** ** Runs *)

(** Successive [makeIv] calls for one SSRC and one timestamp, one random
    value per call. *)
Fixpoint makeIv_calls (rnds : list Z) (ssrc timestamp : Z)
    (t : FrameCryptorTransformer) : result (list bytes * FrameCryptorTransformer) :=
  match rnds with
  | [] => Ret ([], t)
  | rnd :: rest =>
      let? r := makeIv rnd ssrc timestamp t in
      let? rs := makeIv_calls rest ssrc timestamp r.2 in
      Ret (r.1 :: rs.1, rs.2)
  end.

(** What the spec says of [make_iv], to compare [makeIv] with: the counter
    starts at a random 16-bit value, the counter [c] of the call goes into
    the third word modulo [0x10000], and the counter is incremented. *)
Definition spec_make_iv (rnd ssrc timestamp : Z) (counts : gmap Z Z)
    : bytes * gmap Z Z :=
  let c := match counts !! ssrc with
           | None => rnd mod 0x10000
           | Some c => c
           end in
  (WriteUInt32 ssrc ++ WriteUInt32 timestamp ++
   WriteUInt32 (uint32 (timestamp - c mod 0x10000)),
   <[ssrc := uint32 (c + 1)]> counts).

(** The calls of a worker thread, one after the other: the frames given to
    [Transform], each with the random value its [makeIv] would draw.  The
    events of a call are kept with the direction of its frame. *)
Fixpoint run {ext : External} (calls : list (Z * Frame)) (w : World)
    : result (World * list (Direction * list Event)) :=
  match calls with
  | [] => Ret (w, [])
  | (rnd, frame) :: rest =>
      match Transform rnd frame w with
      | Ret (_, w1, tr) =>
          match run rest w1 with
          | Ret (w2, trs) => Ret (w2, (GetDirection frame, tr) :: trs)
          | Fault f => Fault f
          end
      | Fault f => Fault f
      end
  end.

(** The states the observer was called with. *)
Definition notified (tr : list Event) : list FrameCryptionState :=
  omap (fun e => match e with
                 | OnFrameCryptionStateChanged _ s => Some s
                 | _ => None
                 end) tr.

(** The frames handed to sinks. *)
Definition delivered (tr : list Event) : list (Sink * Frame) :=
  omap (fun e => match e with
                 | OnTransformedFrame s f => Some (s, f)
                 | _ => None
                 end) tr.

(** The calls into the key provider and the key handlers. *)
Definition key_calls (tr : list Event) : list KeyCall :=
  omap (fun e => match e with
                 | Key c => Some c
                 | _ => None
                 end) tr.

(** The observer's calls of one direction over a run. *)
Definition notified_in (d : Direction) (trs : list (Direction * list Event))
    : list FrameCryptionState :=
  concat (map (fun x => if bool_decide (x.1 = d) then notified x.2 else []) trs).

(** ** A reference instance of the collaborators

    Small executable stand-ins, used to run the model on concrete frames.
    The AEAD is a one-byte XOR stream with a sixteen-byte checksum tag over
    key, nonce, additional data and plaintext; PBKDF2 and the ratchet are
    checksums as well.  The H.264 helpers follow the spec. *)
Module Ref.

Definition checksum (input : bytes) : Z :=
  fold_left (fun acc b => (acc * 31 + b + 1) mod 65521) input 7.

Definition pad (key : bytes) : Z := checksum key mod 256.

Definition tag_of (key iv ad plaintext : bytes) : bytes :=
  let c := checksum (key ++ [256] ++ iv ++ [256] ++ ad ++ [256] ++ plaintext) in
  map (fun j => (c + j) mod 256) (seqZ 0 16).

Definition seal (alg : EVP_AEAD) (key : bytes) (tag_len : Z)
    (iv input ad : bytes) : option bytes :=
  Some (map (Z.lxor (pad key)) input ++ tag_of key iv ad input).

Definition open (alg : EVP_AEAD) (key : bytes) (tag_len : Z)
    (iv input ad : bytes) : option bytes :=
  let n := (length input - 16)%nat in
  let plaintext := map (Z.lxor (pad key)) (take n input) in
  if bool_decide (drop n input = tag_of key iv ad plaintext)
  then Some plaintext
  else None.

Definition pbkdf2 (password salt : bytes) (iterations key_len : Z) : option bytes :=
  let c := checksum (password ++ [256] ++ salt) in
  Some (map (fun j => (c + 7 * j) mod 256) (seqZ 0 key_len)).

Definition ratchet (salt current : bytes) : bytes :=
  map (fun b => (b + 1) mod 256) current.

(** Modelled from the spec: [find_nalu_indices], the positions of the
    start codes [00 00 01] that have a byte after them; a zero before the
    start code belongs to it. *)
Fixpoint start_codes (data : bytes) (i : Z) (prev : Z) : list (Z * Z) :=
  match data with
  | b0 :: rest =>
      match rest with
      | b1 :: b2 :: _ :: _ =>
          if (b0 =? 0) && (b1 =? 0) && (b2 =? 1)
          then ((if (0 <? i) && (prev =? 0) then i - 1 else i), i + 3)
                 :: start_codes rest (i + 1) b0
          else start_codes rest (i + 1) b0
      | _ => []
      end
  | [] => []
  end.

Fixpoint with_sizes (codes : list (Z * Z)) (buffer_size : Z) : list NaluIndex :=
  match codes with
  | [] => []
  | (s, p) :: rest =>
      {| start_offset := s; payload_start_offset := p;
         payload_size := match rest with
                         | (s', _) :: _ => s' - p
                         | [] => buffer_size - p
                         end |} :: with_sizes rest buffer_size
  end.

Definition find_nalu_indices (data : bytes) : list NaluIndex :=
  with_sizes (start_codes data 0 1) (size_of data).

(** Modelled from the spec: [write_rbsp] puts the emulation prevention
    byte [03] before a byte of at most [03] that follows two zeros. *)
Fixpoint write_rbsp_from (zeros : nat) (src : bytes) : bytes :=
  match src with
  | [] => []
  | b :: rest =>
      let escape := (b <=? 3) && (2 <=? zeros)%nat in
      let zeros := if escape then O else zeros in
      (if escape then [3] else []) ++
      b :: write_rbsp_from (if b =? 0 then S zeros else O) rest
  end.

Definition write_rbsp (src : bytes) : bytes := write_rbsp_from 0 src.

(** Modelled from the spec: [parse_rbsp] drops the [03] of every triple
    [00 00 03]. *)
Fixpoint parse_rbsp_from (k : nat) (src : bytes) : bytes :=
  match src with
  | [] => []
  | b0 :: rest =>
      match k with
      | 2%nat => b0 :: parse_rbsp_from 1 rest   (* the second zero *)
      | 1%nat => parse_rbsp_from 0 rest         (* the [03] *)
      | _ =>
          b0 :: parse_rbsp_from
                  (match rest with
                   | b1 :: b2 :: _ =>
                       if (b0 =? 0) && (b1 =? 0) && (b2 =? 3) then 2%nat else 0%nat
                   | _ => 0%nat
                   end) rest
      end
  end.

Definition parse_rbsp (src : bytes) : bytes := parse_rbsp_from 0 src.

Definition external : External :=
  {| EVP_AEAD_CTX_init := fun _ _ _ => true;
     EVP_AEAD_CTX_seal := seal;
     EVP_AEAD_CTX_open := open;
     PKCS5_PBKDF2_HMAC := pbkdf2;
     FindNaluIndices := find_nalu_indices;
     WriteRbsp := write_rbsp;
     ParseRbsp := parse_rbsp;
     RatchetKeyMaterial := ratchet |}.

End Ref.

(** ** A concrete session

    The audio scenario of the spec: a one-byte prefix, the payload
    [0xAA "HELLO"], sixteen bytes [0x01] of key material at index 0, SSRC
    [0x11223344], timestamp [0x64]. *)
Module Session.

Definition salt : bytes := [1; 2; 3].
Definition material0 : bytes := replicate 16 1.

Definition opts (window : Z) (magic : bytes) : KeyProviderOptions :=
  {| shared_key := false; ratchet_salt := salt; ratchet_window_size := window;
     uncrypted_magic_bytes := magic; key_ring_size := 16;
     discard_frame_when_cryptor_not_ready := false |}.

(** A handler with [m] installed at index 0 of a ring of sixteen slots. *)
Definition handler (m : bytes) : ParticipantKeyHandler :=
  {| crypto_key_ring :=
       <[0%nat := DeriveKeys (ext := Ref.external) m salt 128]> (replicate 16 None);
     current_key_index := 0;
     has_valid_key := true;
     decryption_failure_count := 0;
     failure_threshold := 1 |}.

Definition provider (window : Z) (magic m : bytes) : KeyProvider :=
  {| options := opts window magic;
     handlers := {[ "alice"%string := handler m ]} |}.

Definition transformer (last_dec : FrameCryptionState) : FrameCryptorTransformer :=
  {| participant_id_ := "alice"; type_ := kAudioFrame; algorithm_ := kAesGcm;
     enabled_cryption_ := true; key_index_ := 0;
     sink_callback_ := Some 1%nat; sink_callbacks_ := ∅; observer_ := true;
     last_enc_error_ := kOk; last_dec_error_ := last_dec; send_counts_ := ∅ |}.

(** The transformer after [0xFFFF] frames of SSRC 1. *)
Definition transformer_0xFFFF : FrameCryptorTransformer :=
  set_send_counts (transformer kOk) {[ 1 := 0xFFFF ]}.

Definition world (window : Z) (magic m : bytes) : World :=
  {| cryptor := transformer kOk; key_provider_ := provider window magic m |}.

Definition hello : bytes := [0xAA; 72; 69; 76; 76; 79].

Definition frame (d : Direction) (payload : bytes) : Frame :=
  {| GetDirection := d; GetSsrc := 0x11223344; GetTimestamp := 0x64;
     GetData := payload; codec := kVideoCodecGeneric; IsKeyFrame := false |}.

(** A receiver that has reported a decryption failure and holds no valid
    key. *)
Definition waiting_world (m : bytes) : World :=
  {| cryptor := transformer kDecryptionFailed;
     key_provider_ :=
       {| options := opts 2 [];
          handlers :=
            {[ "alice"%string :=
                 {| crypto_key_ring := crypto_key_ring (handler m);
                    current_key_index := 0; has_valid_key := false;
                    decryption_failure_count := 1; failure_threshold := 1 |} ]} |} |}.

(** The payload of the first frame a call delivered. *)
Definition payload_of (r : result (unit * World * list Event)) : bytes :=
  match r with
  | Ret (_, _, tr) =>
      match delivered tr with
      | (_, f) :: _ => GetData f
      | [] => []
      end
  | Fault _ => []
  end.

(** [hello] as a sender holding the material [m] encrypts it. *)
Definition encrypted_with (m : bytes) : bytes :=
  payload_of (encryptFrame (ext := Ref.external) 5 (frame kSender hello)
                (world 2 [] m)).

Definition encrypted_hello : bytes := Eval vm_compute in encrypted_with material0.

(** The sender is one ratchet step ahead of [material0]. *)
Definition material1 : bytes := Eval vm_compute in Ref.ratchet salt material0.
Definition encrypted_ahead : bytes := Eval vm_compute in encrypted_with material1.

(** The sender holds a material no ratchet of [material0] leads to. *)
Definition material9 : bytes := replicate 16 9.
Definition encrypted_foreign : bytes := Eval vm_compute in encrypted_with material9.

Definition key_set0 : KeySet :=
  Eval vm_compute in
    default {| material := []; encryption_key := [] |}
      (DeriveKeys (ext := Ref.external) material0 salt 128).

Definition key_set1 : KeySet :=
  Eval vm_compute in
    default {| material := []; encryption_key := [] |}
      (DeriveKeys (ext := Ref.external) material1 salt 128).

(** What [decrypt_setup] hands on for a frame, at a receiver holding
    [material0]. *)
Definition context_of (payload : bytes) : DecryptContext :=
  match decrypt_setup (ext := Ref.external) (frame kReceiver payload)
          (world 2 [] material0) with
  | Ret (Some c, _, _) => c
  | _ => {| dc_sink := 0%nat; dc_key_handler := ""; dc_key_set := key_set0;
            dc_key_index := 0; dc_iv := []; dc_frame_header := [];
            dc_encrypted_payload := [] |}
  end.

Definition context_ahead : DecryptContext := Eval vm_compute in context_of encrypted_ahead.
Definition context_foreign : DecryptContext :=
  Eval vm_compute in context_of encrypted_foreign.

(** The events of [decrypt_setup] on an audio frame whose key is there. *)
Definition setup_events : list Event :=
  [Key (CallGetKey "alice"); Key (CallGetKeySet 0); Key (CallGetKeySet 0)].

(** The world and the events after [decryptFrame] on the foreign frame. *)
Definition foreign_world : World :=
  Eval vm_compute in
    match decryptFrame (ext := Ref.external) (frame kReceiver encrypted_foreign)
            (world 2 [] material0) with
    | Ret (_, w, _) => w
    | Fault _ => world 2 [] material0
    end.

Definition foreign_events : list Event :=
  Eval vm_compute in
    match decryptFrame (ext := Ref.external) (frame kReceiver encrypted_foreign)
            (world 2 [] material0) with
    | Ret (_, _, tr) => tr
    | Fault _ => []
    end.

(** A video transformer with a sink for the SSRC of the session, and an
    H.264 key frame: a start code, an IDR NALU header and its payload. *)
Definition video_world : World :=
  {| cryptor :=
       {| participant_id_ := "alice"; type_ := kVideoFrame; algorithm_ := kAesGcm;
          enabled_cryption_ := true; key_index_ := 0;
          sink_callback_ := None;
          sink_callbacks_ := {[ 0x11223344 := Some 1%nat ]}; observer_ := true;
          last_enc_error_ := kOk; last_dec_error_ := kOk; send_counts_ := ∅ |};
     key_provider_ := provider 2 [] material0 |}.

Definition idr : bytes := [0; 0; 1; 0x65; 0x88; 72; 69; 76; 76; 79].

Definition h264_frame (d : Direction) (timestamp : Z) (payload : bytes) : Frame :=
  {| GetDirection := d; GetSsrc := 0x11223344; GetTimestamp := timestamp;
     GetData := payload; codec := kVideoCodecH264; IsKeyFrame := true |}.

Definition encrypted_idr (timestamp : Z) : bytes :=
  payload_of (encryptFrame (ext := Ref.external) 5
                (h264_frame kSender timestamp idr) video_world).

(** Three frames for one transformer: two receiver frames whose trailer
    does not name a twelve-byte IV, then a sender frame. *)
Definition calls : list (Z * Frame) :=
  [(5, frame kReceiver [1; 2; 3]); (5, frame kReceiver [1; 2; 3]);
   (5, frame kSender hello)].

(** Variations of the session's audio transformer: the participant, the
    algorithm, the enable flag and the sink can be chosen. *)
Definition transformer_with (id : string) (alg : Algorithm) (enabled : bool)
    (sink : option Sink) : FrameCryptorTransformer :=
  {| participant_id_ := id; type_ := kAudioFrame; algorithm_ := alg;
     enabled_cryption_ := enabled; key_index_ := 0;
     sink_callback_ := sink; sink_callbacks_ := ∅; observer_ := true;
     last_enc_error_ := kOk; last_dec_error_ := kOk; send_counts_ := ∅ |}.

Definition world_with (id : string) (alg : Algorithm) (enabled : bool)
    (sink : option Sink) : World :=
  {| cryptor := transformer_with id alg enabled sink;
     key_provider_ := provider 2 [] material0 |}.

(** No sink is registered. *)
Definition unplugged_world : World := world_with "alice" kAesGcm true None.

(** The provider has no key handler for the participant. *)
Definition stranger_world : World := world_with "bob" kAesGcm true (Some 1%nat).

(** The transformer is configured with AES-CBC. *)
Definition cbc_world : World := world_with "alice" kAesCbc true (Some 1%nat).

(** The cryptor is disabled. *)
Definition disabled_world : World := world_with "alice" kAesGcm false (Some 1%nat).

(** A VP8 key frame for the video transformer. *)
Definition vp8_key_frame (d : Direction) (payload : bytes) : Frame :=
  {| GetDirection := d; GetSsrc := 0x11223344; GetTimestamp := 0x64;
     GetData := payload; codec := kVideoCodecVP8; IsKeyFrame := true |}.

(** The key set at index 0 has a key of 24 bytes. *)
Definition odd_key_set : KeySet :=
  {| material := material0; encryption_key := replicate 24 1 |}.

Definition odd_handler : ParticipantKeyHandler :=
  {| crypto_key_ring := <[0%nat := Some odd_key_set]> (replicate 16 None);
     current_key_index := 0; has_valid_key := true;
     decryption_failure_count := 0; failure_threshold := 1 |}.

Definition odd_key_world : World :=
  {| cryptor := transformer kOk;
     key_provider_ :=
       {| options := opts 2 []; handlers := {[ "alice"%string := odd_handler ]} |} |}.

(** World and events of a call. *)
Definition world_after (r : result (unit * World * list Event)) : World :=
  match r with
  | Ret (_, w, _) => w
  | Fault _ => world 2 [] material0
  end.

Definition events_of (r : result (unit * World * list Event)) : list Event :=
  match r with
  | Ret (_, _, tr) => tr
  | Fault _ => []
  end.

(** The sender's call on [hello]. *)
Definition sent_world : World :=
  Eval vm_compute in
    world_after (encryptFrame (ext := Ref.external) 5 (frame kSender hello)
                   (world 2 [] material0)).

Definition sent_events : list Event :=
  Eval vm_compute in
    events_of (encryptFrame (ext := Ref.external) 5 (frame kSender hello)
                 (world 2 [] material0)).

Definition context_hello : DecryptContext := Eval vm_compute in context_of encrypted_hello.

(** World and events after the three [calls]. *)
Definition calls_world : World :=
  Eval vm_compute in
    match run (ext := Ref.external) calls (world 2 [] material0) with
    | Ret (w, _) => w
    | Fault _ => world 2 [] material0
    end.

Definition calls_events : list (Direction * list Event) :=
  Eval vm_compute in
    match run (ext := Ref.external) calls (world 2 [] material0) with
    | Ret (_, trs) => trs
    | Fault _ => []
    end.

End Session.

(** ** Vocabulary of the properties *)

(** The IV written for the counter value [c]. *)
Definition iv_of (ssrc timestamp c : Z) : bytes :=
  WriteUInt32 ssrc ++ WriteUInt32 timestamp ++
  WriteUInt32 (uint32 (timestamp - c mod 0xFFFF)).

(** The counter a call of [makeIv] works with: the stored one, or zero for
    an SSRC that has none. *)
Definition counter_used (ssrc : Z) (t : FrameCryptorTransformer) : Z :=
  default 0 (send_counts_ t !! ssrc).

(** The sink registered for a frame: the single sink of an audio cryptor,
    the sink of the frame's SSRC for a video cryptor. *)
Definition sink_of (t : FrameCryptorTransformer) (frame : Frame) : option Sink :=
  match type_ t with
  | kAudioFrame => sink_callback_ t
  | kVideoFrame => mjoin (sink_callbacks_ t !! GetSsrc frame)
  end.

(** [edges l0 ns l1]: starting from the stored state [l0], the observer is
    called with the states [ns], each different from the state stored
    before it, and [l1] is stored at the end. *)
Inductive edges (l0 : FrameCryptionState)
    : list FrameCryptionState → FrameCryptionState → Prop :=
  | edges_nil : edges l0 [] l0
  | edges_cons s ns l1 : s ≠ l0 → edges s ns l1 → edges l0 (s :: ns) l1.

(** No state twice in a row. *)
Definition no_repeat (ns : list FrameCryptionState) : Prop :=
  ∀ (i : nat) (x y : FrameCryptionState),
    ns !! i = Some x → ns !! S i = Some y → x ≠ y.

(** The invariant of a computation, for the direction whose stored state
    is [mine]: the observer and the other direction's state are left
    alone, and the notifications are edges of [mine] (none at all without
    an observer). *)
Definition keeps_edges (mine other : FrameCryptorTransformer → FrameCryptionState)
    {A} (m : M A) : Prop :=
  ∀ w a w' tr, m w = Ret (a, w', tr) →
    observer_ (cryptor w') = observer_ (cryptor w) ∧
    other (cryptor w') = other (cryptor w) ∧
    (if observer_ (cryptor w)
     then edges (mine (cryptor w)) (notified tr) (mine (cryptor w'))
     else notified tr = []).

(** A computation that neither notifies nor touches the states. *)
Definition quiet {A} (m : M A) : Prop :=
  ∀ w a w' tr, m w = Ret (a, w', tr) →
    notified tr = [] ∧
    observer_ (cryptor w') = observer_ (cryptor w) ∧
    last_enc_error_ (cryptor w') = last_enc_error_ (cryptor w) ∧
    last_dec_error_ (cryptor w') = last_dec_error_ (cryptor w).

(** A field of the transformer that depends on the two stored states only. *)
Definition stable (f : FrameCryptorTransformer → FrameCryptionState) : Prop :=
  ∀ t t', last_enc_error_ t' = last_enc_error_ t →
          last_dec_error_ t' = last_dec_error_ t → f t' = f t.

(** A call of [DecryptionFailure] that answered [true], with no
    [kDecryptionFailed] notification before it. *)
Definition failure_reported (tr : list Event) : Prop :=
  ∃ tr1 tr2, tr = tr1 ++ Key (CallDecryptionFailure true) :: tr2 ∧
             (kDecryptionFailed ∉ notified tr1).

(** The observer is told [kDecryptionFailed], or [last_dec_error_] turns
    to it. *)
Definition becomes_failed (w w' : World) (tr : list Event) : Prop :=
  kDecryptionFailed ∈ notified tr ∨
  (last_dec_error_ (cryptor w') = kDecryptionFailed ∧
   last_dec_error_ (cryptor w) ≠ kDecryptionFailed).

(** A computation in which [kDecryptionFailed] comes only after a
    [DecryptionFailure] call that answered [true]. *)
Definition guarded {A} (m : M A) : Prop :=
  ∀ w a w' tr, m w = Ret (a, w', tr) →
    becomes_failed w w' tr → failure_reported tr.

(** The world after [dec_state s], and the observer call it makes. *)
Definition dec_state_world (s : FrameCryptionState) (w : World) : World :=
  if bool_decide (last_dec_error_ (cryptor w) ≠ s)
  then {| cryptor := set_last_dec_error (cryptor w) s;
          key_provider_ := key_provider_ w |}
  else w.

Definition dec_state_events (s : FrameCryptionState) (w : World) : list Event :=
  if bool_decide (last_dec_error_ (cryptor w) ≠ s) && observer_ (cryptor w)
  then [OnFrameCryptionStateChanged (participant_id_ (cryptor w)) s]
  else [].

Definition enc_state_world (s : FrameCryptionState) (w : World) : World :=
  if bool_decide (last_enc_error_ (cryptor w) ≠ s)
  then {| cryptor := set_last_enc_error (cryptor w) s;
          key_provider_ := key_provider_ w |}
  else w.

Definition enc_state_events (s : FrameCryptionState) (w : World) : list Event :=
  if bool_decide (last_enc_error_ (cryptor w) ≠ s) && observer_ (cryptor w)
  then [OnFrameCryptionStateChanged (participant_id_ (cryptor w)) s]
  else [].

(** The world with the handler under [kh] replaced. *)
Definition with_handler (w : World) (kh : string) (h : ParticipantKeyHandler)
    : World :=
  {| cryptor := cryptor w;
     key_provider_ := set_handler (key_provider_ w) kh h |}.

(** The material after [k] ratchet steps. *)
Definition ratchet_n {ext : External} (salt : bytes) (k : nat) (m : bytes) : bytes :=
  Nat.iter k (RatchetKeyMaterial salt) m.

(** A ratchet attempt with the material [m] that does not open the frame:
    the key set is derived, and [AesEncryptDecrypt] does not return
    [Success]. *)
Definition attempt_fails {ext : External} (alg : Algorithm)
    (salt iv frame_header encrypted_payload m : bytes) : Prop :=
  ∃ ks, DeriveKeys m salt 128 = Some ks ∧
        (AesEncryptDecrypt kDecrypt alg (encryption_key ks) iv frame_header
           encrypted_payload).1 ≠ Success.

(** What the round trip needs of the AEAD: with a key of the length of the
    algorithm the context is set up and a twelve-byte nonce seals, the
    sealed text is sixteen bytes longer than the plaintext, and opening a
    sealed text with the key, nonce and additional data it was sealed with
    gives the plaintext back. *)
Class AeadCorrect (ext : External) : Prop := {
  aead_init : ∀ alg key,
    GetAesGcmAlgorithmFromKeySize (size_of key) = Some alg →
    EVP_AEAD_CTX_init alg key 16 = true;
  aead_seal : ∀ alg key iv pt ad,
    GetAesGcmAlgorithmFromKeySize (size_of key) = Some alg →
    size_of iv = 12 →
    ∃ ct, EVP_AEAD_CTX_seal alg key 16 iv pt ad = Some ct ∧
          size_of ct = size_of pt + 16;
  aead_open_seal : ∀ alg key iv pt ad ct,
    EVP_AEAD_CTX_seal alg key 16 iv pt ad = Some ct →
    EVP_AEAD_CTX_open alg key 16 iv ct ad = Some pt;
}.

(** ** Vocabulary of the invariants *)

(** The observer's calls when the state [s] is reported on the edge,
    [last] being the state stored before. *)
Definition edge_report (t : FrameCryptorTransformer)
    (last s : FrameCryptionState) : list FrameCryptionState :=
  if observer_ t && bool_decide (last ≠ s) then [s] else [].

(** What is set up from outside and read by the two paths: the identity,
    media type, algorithm, enable flag, key index and observer of the
    transformer, and the options of the key provider. *)
Definition configuration (w : World)
    : string * MediaType * Algorithm * bool * Z * bool * KeyProviderOptions :=
  (participant_id_ (cryptor w), type_ (cryptor w), algorithm_ (cryptor w),
   enabled_cryption_ (cryptor w), key_index_ (cryptor w), observer_ (cryptor w),
   options (key_provider_ w)).

(** The configuration is the same, the same participants have a key
    handler, and every frame has the sink it had. *)
Definition same_configuration (w w' : World) : Prop :=
  configuration w' = configuration w ∧
  dom (handlers (key_provider_ w')) = dom (handlers (key_provider_ w)) ∧
  ∀ frame, sink_of (cryptor w') frame = sink_of (cryptor w) frame.

(** What a sender frame leaves alone: the key provider with its handlers,
    and the state of the decrypt path. *)
Definition same_keys (w w' : World) : Prop :=
  key_provider_ w' = key_provider_ w ∧
  last_dec_error_ (cryptor w') = last_dec_error_ (cryptor w).

(** What a receiver frame leaves alone: the IV counters and the state of
    the encrypt path. *)
Definition same_counters (w w' : World) : Prop :=
  send_counts_ (cryptor w') = send_counts_ (cryptor w) ∧
  last_enc_error_ (cryptor w') = last_enc_error_ (cryptor w).

(** A computation whose final world is related to its initial one. *)
Definition preserves (I : World → World → Prop) {A} (m : M A) : Prop :=
  ∀ w a w' tr, m w = Ret (a, w', tr) → I w w'.

(** A computation all of whose events satisfy [P]. *)
Definition emits_only (P : Event → Prop) {A} (m : M A) : Prop :=
  ∀ w a w' tr, m w = Ret (a, w', tr) → Forall P tr.

(** Events that hand no frame to a sink. *)
Definition no_delivery (e : Event) : Prop :=
  match e with
  | OnTransformedFrame _ _ => False
  | _ => True
  end.

(** Events that are no ratchet step. *)
Definition no_ratchet (e : Event) : Prop :=
  match e with
  | Key (CallRatchetKeyMaterial _) => False
  | _ => True
  end.

(** Events that change no key handler: every call into the key provider
    and the handlers is a lookup. *)
Definition lookup_only (e : Event) : Prop :=
  match e with
  | Key (CallGetKey _) | Key (CallGetSharedKey _) | Key (CallGetKeySet _) => True
  | Key _ => False
  | _ => True
  end.

(** A lookup of a key handler or of a key set. *)
Definition key_lookup (e : Event) : Prop :=
  match e with
  | Key (CallGetKey _) | Key (CallGetSharedKey _) | Key (CallGetKeySet _) => True
  | _ => False
  end.

(** The materials [RatchetKeyMaterial] was called with. *)
Definition ratchet_attempts (tr : list Event) : list bytes :=
  omap (fun e => match e with
                 | Key (CallRatchetKeyMaterial m) => Some m
                 | _ => None
                 end) tr.

(** At most one frame is delivered, to [sink], and it is [frame] with a
    payload of its own. *)
Definition delivers_at_most (sink : Sink) (frame : Frame) {A} (m : M A) : Prop :=
  ∀ w a w' tr, m w = Ret (a, w', tr) →
    delivered tr = [] ∨ ∃ d, delivered tr = [(sink, SetData frame d)].

(** The trailer [encryptFrame] appends: IV size and key index, one byte
    each. *)
Definition trailer_of (t : FrameCryptorTransformer) : bytes :=
  [uint8 (getIvSize t); uint8 (key_index_ t)].

(** * Properties *)

(** ** Buffers and machine integers *)

Lemma size_of_app (a b : bytes) : size_of (a ++ b) = size_of a + size_of b.
Proof. unfold size_of. rewrite length_app. lia. Qed.

Lemma size_of_nonneg (a : bytes) : 0 <= size_of a.
Proof. unfold size_of. lia. Qed.

Lemma size_t_small (x : Z) : 0 <= x < 2 ^ 64 → size_t x = x.
Proof. intros. unfold size_t. apply Z.mod_small. lia. Qed.

Lemma at_lookup (data : bytes) (i : nat) (b : Z) :
  data !! i = Some b → at_ data (Z.of_nat i) = Ret b.
Proof.
  intros Hb. unfold at_, size_of.
  pose proof (lookup_lt_Some _ _ _ Hb).
  rewrite Nat2Z.id, Hb.
  destruct (0 <=? Z.of_nat i) eqn:E1; [|lia].
  destruct (Z.of_nat i <? Z.of_nat (length data)) eqn:E2; [done|lia].
Qed.

Lemma at_out_of_bounds (data : bytes) (i : Z) :
  size_of data <= i → at_ data i = Fault OutOfBounds.
Proof.
  intros. unfold at_.
  destruct (i <? size_of data) eqn:E; [lia|].
  by rewrite andb_false_r.
Qed.

(** A copy loop that stays inside its source is a slice of it. *)
Lemma copy_loop_slice (src : bytes) (base : Z) (n : nat) (i : Z) :
  0 <= base + i → base + i + Z.of_nat n <= size_of src → size_of src < 2 ^ 64 →
  copy_loop src base i n = Ret (take n (drop (Z.to_nat (base + i)) src)).
Proof.
  revert i. induction n as [|n IH]; intros i Hlo Hhi Hsz; simpl.
  - by rewrite take_0.
  - rewrite size_t_small by lia.
    assert (Hlt : (Z.to_nat (base + i) < length src)%nat) by (unfold size_of in *; lia).
    destruct (lookup_lt_is_Some_2 src _ Hlt) as [b Hb].
    rewrite <- (Z2Nat.id (base + i)) at 1 by lia.
    rewrite (at_lookup _ _ _ Hb). simpl.
    rewrite IH by lia. simpl.
    replace (Z.to_nat (base + (i + 1))) with (S (Z.to_nat (base + i))) by lia.
    f_equal.
    rewrite (drop_S _ _ _ Hb). done.
Qed.

Lemma copy_loop_out_of_bounds (src : bytes) (base : Z) (n : nat) :
  size_of src <= size_t base → copy_loop src base 0 (S n) = Fault OutOfBounds.
Proof.
  intros H. simpl. rewrite Z.add_0_r. by rewrite at_out_of_bounds.
Qed.

Lemma WriteUInt32_length (x : Z) : size_of (WriteUInt32 x) = 4.
Proof. reflexivity. Qed.

Lemma land_shiftr_uint32 (x k : Z) :
  0 <= k → k + 8 <= 32 →
  Z.land (Z.shiftr (uint32 x) k) 255 = Z.land (Z.shiftr x k) 255.
Proof.
  intros Hk Hk8. unfold uint32. change 255 with (Z.ones 8).
  apply Z.bits_inj'. intros n Hn.
  rewrite !Z.land_spec, !Z.shiftr_spec by lia.
  destruct (decide (n < 8)).
  - by rewrite Z.mod_pow2_bits_low by lia.
  - rewrite Z.ones_spec_high by lia. by rewrite !andb_false_r.
Qed.

(** Only the low 32 bits of the argument are written. *)
Lemma WriteUInt32_uint32 (x : Z) : WriteUInt32 (uint32 x) = WriteUInt32 x.
Proof.
  unfold WriteUInt32.
  rewrite !land_shiftr_uint32 by lia.
  assert (H0 : Z.land (uint32 x) 255 = Z.land x 255).
  { rewrite <- (Z.shiftr_0_r (uint32 x)), <- (Z.shiftr_0_r x).
    apply land_shiftr_uint32; lia. }
  by rewrite H0.
Qed.

Lemma WriteUInt32_inj (x y : Z) :
  0 <= x < 2 ^ 32 → 0 <= y < 2 ^ 32 → WriteUInt32 x = WriteUInt32 y → x = y.
Proof.
  intros Hx Hy. unfold WriteUInt32.
  change 255 with (Z.ones 8).
  rewrite !Z.land_ones, !Z.shiftr_div_pow2 by lia.
  change (2 ^ 32) with 4294967296 in *. change (2 ^ 24) with 16777216.
  change (2 ^ 16) with 65536. change (2 ^ 8) with 256.
  intros H. injection H as H3 H2 H1 H0.
  Z.to_euclidean_division_equations. lia.
Qed.

(** ** [makeIv] *)

Lemma makeIv_eq (rnd ssrc timestamp : Z) (t : FrameCryptorTransformer) :
  getIvSize t = 12 →
  makeIv rnd ssrc timestamp t =
  Ret (iv_of ssrc timestamp (counter_used ssrc t),
       set_send_counts t
         (<[ssrc := uint32 (counter_used ssrc t + 1)]> (send_counts_ t))).
Proof.
  intros Hiv. unfold makeIv, counter_used, iv_of.
  destruct (send_counts_ t !! ssrc) as [c|] eqn:Hc; simpl.
  - rewrite Hiv. done.
  - rewrite Hiv. simpl. by rewrite insert_insert_eq.
Qed.

Lemma iv_of_inj (ssrc timestamp a b : Z) :
  iv_of ssrc timestamp a = iv_of ssrc timestamp b →
  a mod 0xFFFF = b mod 0xFFFF.
Proof.
  unfold iv_of. intros H.
  do 2 apply app_inv_head in H.
  apply WriteUInt32_inj in H; [| unfold uint32; apply Z.mod_pos_bound; lia ..].
  unfold uint32 in H.
  pose proof (Z.mod_pos_bound a 65535 ltac:(lia)).
  pose proof (Z.mod_pos_bound b 65535 ltac:(lia)).
  change (2 ^ 32) with 4294967296 in H.
  Z.to_euclidean_division_equations. lia.
Qed.

(** C10: the first [makeIv] call for an SSRC writes the IV of counter
    value zero, its third word being the timestamp, and leaves the counter
    at one; the random value stored on the way is overwritten and appears
    neither in the IV nor in the state. *)
Theorem makeIv_first_call (rnd ssrc timestamp : Z) (t : FrameCryptorTransformer) :
  send_counts_ t !! ssrc = None →
  getIvSize t = 12 →
  makeIv rnd ssrc timestamp t =
    Ret (WriteUInt32 ssrc ++ WriteUInt32 timestamp ++ WriteUInt32 timestamp,
         set_send_counts t (<[ssrc := 1]> (send_counts_ t))) ∧
  send_counts_ (set_send_counts t (<[ssrc := 1]> (send_counts_ t))) !! ssrc = Some 1.
Proof.
  intros Hnone Hiv. split.
  - rewrite makeIv_eq by done. unfold counter_used, iv_of. rewrite Hnone. simpl.
    rewrite Z.sub_0_r, WriteUInt32_uint32. done.
  - simpl. apply lookup_insert_eq.
Qed.

Lemma makeIv_first_call_witness :
  makeIv 40000 0x11223344 0x64 (Session.transformer kOk) =
    Ret (WriteUInt32 0x11223344 ++ WriteUInt32 0x64 ++ WriteUInt32 0x64,
         set_send_counts (Session.transformer kOk)
           (<[0x11223344 := 1]> (send_counts_ (Session.transformer kOk)))) ∧
  send_counts_
    (set_send_counts (Session.transformer kOk)
       (<[0x11223344 := 1]> (send_counts_ (Session.transformer kOk))))
    !! 0x11223344 = Some 1.
Proof.
  exact (makeIv_first_call 40000 0x11223344 0x64 (Session.transformer kOk)
           eq_refl eq_refl).
Defined.

(** C4, as stated, fails: with the counter at [0xFFFF] the third word is
    the timestamp itself, where the spec's formula subtracts [0xFFFF]. *)
Lemma makeIv_not_spec_make_iv :
  ∃ iv t',
    makeIv 0 1 0x20000 Session.transformer_0xFFFF = Ret (iv, t') ∧
    iv ≠ (spec_make_iv 0 1 0x20000 (send_counts_ Session.transformer_0xFFFF)).1 ∧
    iv = WriteUInt32 1 ++ WriteUInt32 0x20000 ++ WriteUInt32 0x20000 ∧
    (spec_make_iv 0 1 0x20000 (send_counts_ Session.transformer_0xFFFF)).1 =
      WriteUInt32 1 ++ WriteUInt32 0x20000 ++ WriteUInt32 (0x20000 - 0xFFFF).
Proof.
  eexists _, _. split; [by apply makeIv_eq|].
  split; [vm_compute; discriminate|]. split; by vm_compute.
Qed.

(** C4, amended: for an SSRC that has a counter [c], [makeIv] writes
    [ssrc], [timestamp] and [timestamp - c mod 0xFFFF] as three big-endian
    32-bit words and stores [c + 1]. *)
Theorem makeIv_next_call (rnd ssrc timestamp c : Z) (t : FrameCryptorTransformer) :
  send_counts_ t !! ssrc = Some c →
  getIvSize t = 12 →
  makeIv rnd ssrc timestamp t =
    Ret (WriteUInt32 ssrc ++ WriteUInt32 timestamp ++
         WriteUInt32 (uint32 (timestamp - c mod 0xFFFF)),
         set_send_counts t (<[ssrc := uint32 (c + 1)]> (send_counts_ t))) ∧
  size_of (WriteUInt32 ssrc ++ WriteUInt32 timestamp ++
           WriteUInt32 (uint32 (timestamp - c mod 0xFFFF))) = 12.
Proof.
  intros Hc Hiv. split; [|done].
  rewrite makeIv_eq by done. unfold counter_used, iv_of. by rewrite Hc.
Qed.

Lemma makeIv_next_call_witness :
  makeIv 0 1 0x20000 Session.transformer_0xFFFF =
    Ret (WriteUInt32 1 ++ WriteUInt32 0x20000 ++
         WriteUInt32 (uint32 (0x20000 - 0xFFFF mod 0xFFFF)),
         set_send_counts Session.transformer_0xFFFF
           (<[1 := uint32 (0xFFFF + 1)]> (send_counts_ Session.transformer_0xFFFF))) ∧
  size_of (WriteUInt32 1 ++ WriteUInt32 0x20000 ++
           WriteUInt32 (uint32 (0x20000 - 0xFFFF mod 0xFFFF))) = 12.
Proof.
  apply (makeIv_next_call 0 1 0x20000 0xFFFF Session.transformer_0xFFFF).
  - apply lookup_singleton_eq.
  - reflexivity.
Defined.

Lemma counter_used_after (ssrc c : Z) (t : FrameCryptorTransformer) :
  counter_used ssrc (set_send_counts t (<[ssrc := c]> (send_counts_ t))) = c.
Proof. unfold counter_used. simpl. by rewrite lookup_insert_eq. Qed.

(** A run of [makeIv] calls writes the IVs of consecutive counter values,
    as long as the 32-bit counter does not wrap. *)
Lemma makeIv_calls_eq (ssrc timestamp : Z) (rnds : list Z)
    (t : FrameCryptorTransformer) :
  getIvSize t = 12 →
  0 <= counter_used ssrc t →
  counter_used ssrc t + Z.of_nat (length rnds) <= 2 ^ 32 →
  ∃ t', makeIv_calls rnds ssrc timestamp t =
        Ret (iv_of ssrc timestamp <$>
               seqZ (counter_used ssrc t) (Z.of_nat (length rnds)), t').
Proof.
  revert t. induction rnds as [|rnd rest IH]; intros t Hiv Hlo Hhi.
  - exists t. done.
  - cbn [makeIv_calls]. rewrite makeIv_eq by done. cbn [rbind fst snd].
    set (t1 := set_send_counts t _).
    assert (Hc1 : counter_used ssrc t1 = uint32 (counter_used ssrc t + 1))
      by apply counter_used_after.
    rewrite seqZ_cons by (cbn [length]; lia).
    destruct rest as [|rnd' rest'].
    + exists t1. done.
    + assert (Hc : counter_used ssrc t1 = counter_used ssrc t + 1).
      { rewrite Hc1. unfold uint32. apply Z.mod_small.
        cbn [length] in Hhi. lia. }
      destruct (IH t1) as [t' Ht']; [done | lia | cbn [length] in *; lia |].
      rewrite Ht'. cbn [rbind fst snd]. exists t'.
      rewrite Hc.
      replace (Z.succ (counter_used ssrc t)) with (counter_used ssrc t + 1) by lia.
      replace (Z.pred (Z.of_nat (length (rnd :: rnd' :: rest'))))
        with (Z.of_nat (length (rnd' :: rest'))) by (cbn [length]; lia).
      done.
Qed.

(** C5, as stated, fails: 65536 calls from a fresh SSRC leave the 32-bit
    counter far from wrapping, yet the last of them writes the IV of the
    first. *)
Lemma makeIv_repeats_before_wrap :
  counter_used 1 (Session.transformer kOk) +
    Z.of_nat (length (replicate (Z.to_nat 65536) 0)) <= 2 ^ 32 ∧
  ∃ ivs t',
    makeIv_calls (replicate (Z.to_nat 65536) 0) 1 0x64 (Session.transformer kOk)
      = Ret (ivs, t') ∧
    ¬ NoDup ivs.
Proof.
  assert (Hlen : Z.of_nat (length (replicate (Z.to_nat 65536) (0 : Z))) = 65536).
  { rewrite length_replicate. lia. }
  assert (Hc : counter_used 1 (Session.transformer kOk) = 0) by reflexivity.
  split; [rewrite Hlen, Hc; lia|].
  destruct (makeIv_calls_eq 1 0x64 (replicate (Z.to_nat 65536) 0)
              (Session.transformer kOk)) as [t' Ht'];
    [reflexivity | rewrite Hc; lia | rewrite Hlen, Hc; lia |].
  rewrite Hlen, Hc in Ht'.
  eexists _, t'. split; [exact Ht'|].
  intros Hnd.
  assert (H : (0 = Z.to_nat 65535)%nat); [|lia].
  eapply (NoDup_lookup _ _ _ _ Hnd).
  - rewrite list_lookup_fmap, lookup_seqZ_lt by lia. reflexivity.
  - rewrite list_lookup_fmap, lookup_seqZ_lt by lia.
    rewrite Z2Nat.id by lia. reflexivity.
Qed.

Lemma iv_of_period (ssrc timestamp c : Z) :
  iv_of ssrc timestamp (c + 0xFFFF) = iv_of ssrc timestamp c.
Proof.
  unfold iv_of.
  replace (c + 65535) with (c + 1 * 65535) by lia.
  by rewrite Z_mod_plus_full.
Qed.

(** C5, amended: successive [makeIv] calls for one SSRC with one
    timestamp, the 32-bit counter not wrapping, write pairwise distinct IVs
    as long as there are at most [0xFFFF] of them; call [k + 0xFFFF]
    writes the IV of call [k], so that the IV of call 65536 is the IV of
    call 1. *)
Theorem makeIv_calls_distinct (ssrc timestamp : Z) (rnds : list Z)
    (t : FrameCryptorTransformer) :
  getIvSize t = 12 →
  0 <= counter_used ssrc t →
  counter_used ssrc t + Z.of_nat (length rnds) <= 2 ^ 32 →
  ∃ ivs t',
    makeIv_calls rnds ssrc timestamp t = Ret (ivs, t') ∧
    length ivs = length rnds ∧
    (Z.of_nat (length rnds) <= 0xFFFF → NoDup ivs) ∧
    (∀ k : nat, (k + Z.to_nat 0xFFFF < length rnds)%nat →
                ivs !! (k + Z.to_nat 0xFFFF)%nat = ivs !! k).
Proof.
  intros Hiv Hlo Hhi.
  destruct (makeIv_calls_eq ssrc timestamp rnds t Hiv Hlo Hhi) as [t' Ht'].
  eexists _, t'. split; [exact Ht'|]. split; [|split].
  - rewrite length_fmap, length_seqZ. lia.
  - intros Hn. apply NoDup_fmap_2_strong; [|apply NoDup_seqZ].
    intros a b Ha Hb Hab.
    apply elem_of_seqZ in Ha, Hb. apply iv_of_inj in Hab.
    Z.to_euclidean_division_equations. lia.
  - intros k Hk.
    rewrite !list_lookup_fmap, !lookup_seqZ_lt by lia.
    cbn [fmap option_fmap option_map]. f_equal.
    replace (counter_used ssrc t + Z.of_nat (k + Z.to_nat 65535))
      with (counter_used ssrc t + Z.of_nat k + 65535) by lia.
    apply iv_of_period.
Qed.

Lemma makeIv_calls_distinct_witness :
  ∃ ivs t',
    makeIv_calls [5; 6; 7] 0x11223344 0x64 (Session.transformer kOk) = Ret (ivs, t') ∧
    length ivs = length [5; 6; 7] ∧
    (Z.of_nat (length [5; 6; 7]) <= 0xFFFF → NoDup ivs) ∧
    (∀ k : nat, (k + Z.to_nat 0xFFFF < length [5; 6; 7])%nat →
                ivs !! (k + Z.to_nat 0xFFFF)%nat = ivs !! k).
Proof.
  apply (makeIv_calls_distinct 0x11223344 0x64 [5; 6; 7] (Session.transformer kOk)).
  - reflexivity.
  - by vm_compute.
  - by vm_compute.
Defined.

(** ** The sink and the magic bytes *)

Section Properties.
Context {ext : External}.

(** *** Equations of the monad *)

Lemma bind_Ret {A B} (m : M A) (k : A → M B) (w w1 : World) (a : A)
    (tr1 : list Event) :
  m w = Ret (a, w1, tr1) →
  bind m k w = match k a w1 with
               | Ret (b, w2, tr2) => Ret (b, w2, tr1 ++ tr2)
               | Fault f => Fault f
               end.
Proof. intros H. unfold bind. by rewrite H. Qed.

Lemma bind_Fault {A B} (m : M A) (k : A → M B) (w : World) (f : fault) :
  m w = Fault f → bind m k w = Fault f.
Proof. intros H. unfold bind. by rewrite H. Qed.

Lemma bind_pure {A B} (m : M A) (k : A → M B) (w : World) (a : A) :
  m w = Ret (a, w, []) → bind m k w = k a w.
Proof.
  intros H. rewrite (bind_Ret _ _ _ _ _ _ H).
  by destruct (k a w) as [[[b w2] tr2]|].
Qed.

Lemma bind_ret {A B} (a : A) (k : A → M B) (w : World) :
  bind (ret a) k w = k a w.
Proof. by apply bind_pure. Qed.

Lemma bind_get_cryptor {B} (k : FrameCryptorTransformer → M B) (w : World) :
  bind get_cryptor k w = k (cryptor w) w.
Proof. by apply bind_pure. Qed.

Lemma bind_get_provider {B} (k : KeyProvider → M B) (w : World) :
  bind get_provider k w = k (key_provider_ w) w.
Proof. by apply bind_pure. Qed.

Lemma bind_put_cryptor {B} (t : FrameCryptorTransformer) (k : unit → M B)
    (w : World) :
  bind (put_cryptor t) k w =
  k tt {| cryptor := t; key_provider_ := key_provider_ w |}.
Proof.
  unfold bind, put_cryptor.
  by destruct (k tt _) as [[[b w2] tr2]|].
Qed.

Lemma bind_put_provider {B} (p : KeyProvider) (k : unit → M B) (w : World) :
  bind (put_provider p) k w =
  k tt {| cryptor := cryptor w; key_provider_ := p |}.
Proof.
  unfold bind, put_provider.
  by destruct (k tt _) as [[[b w2] tr2]|].
Qed.

Lemma bind_lift {A B} (r : result A) (k : A → M B) (w : World) :
  bind (lift r) k w = match r with
                      | Ret a => k a w
                      | Fault f => Fault f
                      end.
Proof.
  destruct r as [a|f]; [|done]. by apply bind_pure.
Qed.

Lemma bind_emit {B} (e : Event) (k : unit → M B) (w : World) :
  bind (emit e) k w = match k tt w with
                      | Ret (b, w2, tr2) => Ret (b, w2, e :: tr2)
                      | Fault f => Fault f
                      end.
Proof. done. Qed.

Lemma bind_assoc {A B C} (m : M A) (k1 : A → M B) (k2 : B → M C) (w : World) :
  bind (bind m k1) k2 w = bind m (fun a => bind (k1 a) k2) w.
Proof.
  unfold bind. destruct (m w) as [[[a w1] tr1]|]; [|done].
  destruct (k1 a w1) as [[[b w2] tr2]|]; [|done].
  destruct (k2 b w2) as [[[c w3] tr3]|]; [|done].
  by rewrite app_assoc.
Qed.

Ltac mstep :=
  repeat (cbv beta;
          rewrite ?bind_assoc, ?bind_ret, ?bind_get_cryptor, ?bind_get_provider,
            ?bind_put_cryptor, ?bind_put_provider, ?bind_lift, ?bind_emit;
          cbn [ret lift emit get_cryptor get_provider put_cryptor put_provider
               fst snd cryptor key_provider_ GetData SetData]).

Lemma snapshot_sink_registered (frame : Frame) (w : World) (sink : Sink) :
  sink_of (cryptor w) frame = Some sink →
  snapshot_sink frame w = Ret (Some sink, w, []).
Proof.
  unfold sink_of, snapshot_sink. mstep.
  destruct (type_ (cryptor w)); [intros ->; done|].
  destruct (sink_callbacks_ (cryptor w) !! GetSsrc frame) as [[s|]|]; try done.
  intros [= ->]. done.
Qed.

Lemma subview_tail (p magic : bytes) :
  magic ≠ [] →
  subview (p ++ magic) (size_of (p ++ magic) - size_of magic) (size_of magic) = magic.
Proof.
  intros Hm. unfold subview. rewrite size_of_app.
  assert (0 < size_of magic) by (destruct magic; [done | unfold size_of; cbn [length]; lia]).
  destruct (size_of p + size_of magic - size_of magic <? size_of p + size_of magic) eqn:E; [|lia].
  replace (size_of p + size_of magic - size_of magic) with (size_of p) by lia.
  replace (Z.min (size_of magic) (size_of p + size_of magic - size_of p))
    with (size_of magic) by lia.
  unfold size_of. rewrite !Nat2Z.id, drop_app_length. apply firstn_all.
Qed.

Lemma subview_head (p magic : bytes) :
  magic ≠ [] →
  subview (p ++ magic) 0 (size_of (p ++ magic) - size_of magic) = p.
Proof.
  intros Hm. unfold subview. rewrite size_of_app.
  assert (0 < size_of magic) by (destruct magic; [done | unfold size_of; cbn [length]; lia]).
  pose proof (size_of_nonneg p).
  destruct (0 <? size_of p + size_of magic) eqn:E; [|lia].
  replace (Z.min (size_of p + size_of magic - size_of magic)
             (size_of p + size_of magic - 0)) with (size_of p) by lia.
  unfold size_of. rewrite Nat2Z.id. change (Z.to_nat 0) with 0%nat.
  rewrite drop_0. by rewrite take_app_length.
Qed.

Lemma has_magic_bytes_tail (p magic : bytes) :
  magic ≠ [] → has_magic_bytes magic (p ++ magic) = true.
Proof.
  intros Hm. unfold has_magic_bytes.
  rewrite subview_tail by done. rewrite bool_decide_eq_true_2 by done.
  assert (0 < size_of magic) by (destruct magic; [done | unfold size_of; cbn [length]; lia]).
  pose proof (size_of_nonneg p). rewrite size_of_app.
  destruct (0 <? size_of magic) eqn:E1; [|lia].
  destruct (size_of magic <=? size_of p + size_of magic) eqn:E2; [done|lia].
Qed.

Lemma decrypt_setup_magic_bytes (frame : Frame) (p : bytes) (w : World)
    (sink : Sink) :
  uncrypted_magic_bytes (options (key_provider_ w)) ≠ [] →
  enabled_cryption_ (cryptor w) = true →
  sink_of (cryptor w) frame = Some sink →
  decrypt_setup
    (SetData frame (p ++ uncrypted_magic_bytes (options (key_provider_ w)))) w
  = Ret (None, w, [OnTransformedFrame sink (SetData frame p)]).
Proof.
  intros Hm Hen Hsink.
  set (magic := uncrypted_magic_bytes (options (key_provider_ w))) in *.
  unfold decrypt_setup. mstep.
  rewrite (bind_pure _ _ _ _ (snapshot_sink_registered _ w sink Hsink)). mstep.
  rewrite Hen. fold magic.
  assert (0 < size_of magic) by (destruct magic; [done | unfold size_of; cbn [length]; lia]).
  pose proof (size_of_nonneg p).
  rewrite has_magic_bytes_tail by done.
  rewrite size_of_app.
  destruct (size_of p + size_of magic =? 0) eqn:E0; [lia|].
  cbn [orb negb]. mstep.
  rewrite <- size_of_app, subview_head by done.
  done.
Qed.

(** C7: a frame whose payload is [p] followed by the non-empty magic bytes
    is handed to the sink with payload [p]; nothing else happens: no
    trailer byte is read (a payload too short for a trailer is forwarded
    as well), no call reaches the key provider or a key handler, and the
    state is as before. *)
Theorem decryptFrame_magic_bytes (frame : Frame) (p : bytes) (w : World)
    (sink : Sink) :
  uncrypted_magic_bytes (options (key_provider_ w)) ≠ [] →
  enabled_cryption_ (cryptor w) = true →
  sink_of (cryptor w) frame = Some sink →
  decryptFrame
    (SetData frame (p ++ uncrypted_magic_bytes (options (key_provider_ w)))) w
  = Ret (tt, w, [OnTransformedFrame sink (SetData frame p)]).
Proof.
  intros Hm Hen Hsink. unfold decryptFrame.
  rewrite (bind_Ret _ _ _ _ _ _ (decrypt_setup_magic_bytes _ p w sink Hm Hen Hsink)).
  done.
Qed.

(** ** Edge-triggered notifications *)

Lemma edges_app (a b c : FrameCryptionState) (xs ys : list FrameCryptionState) :
  edges a xs b → edges b ys c → edges a (xs ++ ys) c.
Proof.
  intros H. revert ys c. induction H; intros ys c Hys; [done|].
  cbn [app]. constructor; auto.
Qed.

Lemma edges_no_repeat (a b : FrameCryptionState) (ns : list FrameCryptionState) :
  edges a ns b → no_repeat ns.
Proof.
  induction 1 as [|l0 s ns l1 Hne Hed IH]; intros i x y Hx Hy; [done|].
  destruct i as [|i]; cbn in Hx, Hy.
  - injection Hx as ->. inversion Hed; subst; [done|].
    cbn in Hy. injection Hy as ->. congruence.
  - by apply (IH i).
Qed.

Lemma notified_app (a b : list Event) : notified (a ++ b) = notified a ++ notified b.
Proof. apply omap_app. Qed.

Lemma bind_inv {A B} (m : M A) (k : A → M B) (w w2 : World) (b : B)
    (tr : list Event) :
  bind m k w = Ret (b, w2, tr) →
  ∃ a w1 tr1 tr2,
    m w = Ret (a, w1, tr1) ∧ k a w1 = Ret (b, w2, tr2) ∧ tr = tr1 ++ tr2.
Proof.
  unfold bind. destruct (m w) as [[[a w1] tr1]|]; [|done].
  destruct (k a w1) as [[[b' w2'] tr2]|] eqn:Hk; [|done].
  intros [= -> -> <-]. by exists a, w1, tr1, tr2.
Qed.

Lemma quiet_bind {A B} (m : M A) (k : A → M B) :
  quiet m → (∀ a, quiet (k a)) → quiet (bind m k).
Proof.
  intros Hm Hk w b w2 tr H.
  apply bind_inv in H as (a & w1 & tr1 & tr2 & H1 & H2 & ->).
  destruct (Hm _ _ _ _ H1) as (Hn1 & ? & ? & ?).
  destruct (Hk _ _ _ _ _ H2) as (Hn2 & ? & ? & ?).
  rewrite notified_app, Hn1, Hn2. repeat split; congruence.
Qed.

Lemma quiet_ret {A} (a : A) : quiet (ret a).
Proof. intros w a' w' tr [= <- <- <-]. done. Qed.

Lemma quiet_lift {A} (r : result A) : quiet (lift r).
Proof. intros w a' w' tr. destruct r; [|done]. intros [= <- <- <-]. done. Qed.

Lemma quiet_get_cryptor : quiet get_cryptor.
Proof. intros w a' w' tr [= <- <- <-]. done. Qed.

Lemma quiet_get_provider : quiet get_provider.
Proof. intros w a' w' tr [= <- <- <-]. done. Qed.

Lemma quiet_put_provider (p : KeyProvider) : quiet (put_provider p).
Proof. intros w a' w' tr [= <- <- <-]. done. Qed.

Lemma quiet_emit_frame (sink : Sink) (frame : Frame) :
  quiet (emit (OnTransformedFrame sink frame)).
Proof. intros w a' w' tr [= <- <- <-]. done. Qed.

Lemma quiet_emit_key (c : KeyCall) : quiet (emit (Key c)).
Proof. intros w a' w' tr [= <- <- <-]. done. Qed.

Lemma quiet_snapshot_sink (frame : Frame) : quiet (snapshot_sink frame).
Proof.
  intros w a w' tr. unfold snapshot_sink. mstep.
  destruct (type_ (cryptor w)); [by intros [= <- <- <-]|].
  destruct (sink_callbacks_ (cryptor w) !! GetSsrc frame);
    by intros [= <- <- <-].
Qed.

Lemma makeIv_inv (rnd ssrc timestamp : Z) (t t' : FrameCryptorTransformer)
    (iv : bytes) :
  makeIv rnd ssrc timestamp t = Ret (iv, t') →
  ∃ m, t' = set_send_counts t m.
Proof.
  unfold makeIv.
  destruct (send_counts_ t !! ssrc); cbv zeta beta iota;
    case_match; try done; intros [= <- <-]; eauto.
Qed.

Lemma quiet_call_makeIv (rnd ssrc timestamp : Z) :
  quiet (call_makeIv rnd ssrc timestamp).
Proof.
  intros w a w' tr. unfold call_makeIv.
  destruct (makeIv rnd ssrc timestamp (cryptor w)) as [[iv t']|] eqn:E; [|done].
  apply makeIv_inv in E as [m ->]. by intros [= <- <- <-].
Qed.

Create HintDb quiet.
#[local] Hint Resolve quiet_ret quiet_lift quiet_get_cryptor quiet_get_provider
  quiet_put_provider quiet_emit_frame quiet_emit_key quiet_snapshot_sink
  quiet_call_makeIv : quiet.

Ltac quiet_tac :=
  repeat first
    [ progress eauto with quiet
    | apply quiet_bind; [|intros ?]
    | match goal with
      | |- quiet (if ?b then _ else _) => destruct b
      | |- quiet (match ?x with _ => _ end) => destruct x
      end ].

Lemma quiet_get_handler (kh : string) : quiet (get_handler kh).
Proof. unfold get_handler. quiet_tac. Qed.
#[local] Hint Resolve quiet_get_handler : quiet.

Lemma quiet_update_handler (kh : string)
    (f : ParticipantKeyHandler → ParticipantKeyHandler) :
  quiet (update_handler kh f).
Proof. unfold update_handler. quiet_tac. Qed.
#[local] Hint Resolve quiet_update_handler : quiet.

Lemma quiet_lookup_key_handler : quiet lookup_key_handler.
Proof. unfold lookup_key_handler. quiet_tac. Qed.

Lemma quiet_call_GetKeySet (kh : string) (index : Z) :
  quiet (call_GetKeySet kh index).
Proof. unfold call_GetKeySet. quiet_tac. Qed.

Lemma quiet_call_SetKeyFromMaterial (kh : string) (password : bytes) (index : Z) :
  quiet (call_SetKeyFromMaterial kh password index).
Proof. unfold call_SetKeyFromMaterial. quiet_tac. Qed.

#[local] Hint Resolve quiet_lookup_key_handler quiet_call_GetKeySet
  quiet_call_SetKeyFromMaterial : quiet.

Lemma stable_enc : stable last_enc_error_.
Proof. by intros t t' ? ?. Qed.

Lemma stable_dec : stable last_dec_error_.
Proof. by intros t t' ? ?. Qed.

Lemma keeps_quiet (mine other : FrameCryptorTransformer → FrameCryptionState)
    {A} (m : M A) :
  stable mine → stable other → quiet m → keeps_edges mine other m.
Proof.
  intros Hmine Hother Hq w a w' tr H.
  destruct (Hq _ _ _ _ H) as (Hn & Hobs & Henc & Hdec).
  split; [done|]. split; [by apply Hother|].
  rewrite Hn, (Hmine _ _ Henc Hdec).
  destruct (observer_ (cryptor w)); [constructor|done].
Qed.

Lemma keeps_bind (mine other : FrameCryptorTransformer → FrameCryptionState)
    {A B} (m : M A) (k : A → M B) :
  keeps_edges mine other m → (∀ a, keeps_edges mine other (k a)) →
  keeps_edges mine other (bind m k).
Proof.
  intros Hm Hk w b w2 tr H.
  apply bind_inv in H as (a & w1 & tr1 & tr2 & H1 & H2 & ->).
  destruct (Hm _ _ _ _ H1) as (Ho1 & Hx1 & He1).
  destruct (Hk _ _ _ _ _ H2) as (Ho2 & Hx2 & He2).
  rewrite Ho1 in He2, Ho2. rewrite notified_app.
  split; [done|]. split; [congruence|].
  destruct (observer_ (cryptor w)).
  - by eapply edges_app.
  - by rewrite He1, He2.
Qed.

Lemma keeps_dec_state (s : FrameCryptionState) :
  keeps_edges last_dec_error_ last_enc_error_ (dec_state s).
Proof.
  intros w a w' tr. unfold dec_state, onFrameCryptionStateChanged. mstep.
  case_bool_decide as Hs.
  - mstep. cbn [observer_ set_last_dec_error].
    destruct (observer_ (cryptor w)) eqn:Hobs; cbn [emit ret];
      intros [= <- <- <-]; cbn; rewrite ?Hobs; repeat split; try done.
    constructor; [done|constructor].
  - intros [= <- <- <-]. repeat split.
    destruct (observer_ (cryptor w)); [constructor|done].
Qed.

Lemma keeps_enc_state (s : FrameCryptionState) :
  keeps_edges last_enc_error_ last_dec_error_ (enc_state s).
Proof.
  intros w a w' tr. unfold enc_state, onFrameCryptionStateChanged. mstep.
  case_bool_decide as Hs.
  - mstep. cbn [observer_ set_last_enc_error].
    destruct (observer_ (cryptor w)) eqn:Hobs; cbn [emit ret];
      intros [= <- <- <-]; cbn; rewrite ?Hobs; repeat split; try done.
    constructor; [done|constructor].
  - intros [= <- <- <-]. repeat split.
    destruct (observer_ (cryptor w)); [constructor|done].
Qed.

Ltac edges_tac :=
  repeat first
    [ apply keeps_dec_state
    | apply keeps_enc_state
    | apply keeps_quiet; [apply stable_dec || apply stable_enc ..| solve [quiet_tac]]
    | apply keeps_bind; [|intros ?]
    | match goal with
      | |- keeps_edges _ _ (if ?b then _ else _) => destruct b
      | |- keeps_edges _ _ (match ?x with _ => _ end) => destruct x
      end ].

Lemma ratchet_loop_edges (n : nat) (ratchet_count : Z) (current : bytes)
    (kh : string) (key_index : Z) (iv header payload : bytes) :
  keeps_edges last_dec_error_ last_enc_error_
    (ratchet_loop n ratchet_count current kh key_index iv header payload).
Proof.
  revert ratchet_count current.
  induction n as [|n IH]; intros ratchet_count current; cbn [ratchet_loop].
  - edges_tac.
  - edges_tac. apply IH.
Qed.

Lemma decryptFrame_edges (frame : Frame) :
  keeps_edges last_dec_error_ last_enc_error_ (decryptFrame frame).
Proof.
  unfold decryptFrame, decrypt_setup, decrypt_parse, decrypt_cut, decrypt_finish,
    decrypt_or_ratchet.
  edges_tac; apply ratchet_loop_edges.
Qed.

Lemma encryptFrame_edges (rnd : Z) (frame : Frame) :
  keeps_edges last_enc_error_ last_dec_error_ (encryptFrame rnd frame).
Proof. unfold encryptFrame. edges_tac. Qed.

Lemma quiet_Transform_unknown (rnd : Z) (frame : Frame) :
  GetDirection frame = kUnknown → quiet (Transform rnd frame).
Proof. intros Hd. unfold Transform. rewrite Hd. quiet_tac. Qed.

Lemma Transform_edges_sender (rnd : Z) (frame : Frame) :
  GetDirection frame = kSender →
  keeps_edges last_enc_error_ last_dec_error_ (Transform rnd frame).
Proof.
  intros Hd. unfold Transform. rewrite Hd.
  apply keeps_bind; [edges_tac | intros t].
  destruct (_ && _); [edges_tac | apply encryptFrame_edges].
Qed.

Lemma Transform_edges_receiver (rnd : Z) (frame : Frame) :
  GetDirection frame = kReceiver →
  keeps_edges last_dec_error_ last_enc_error_ (Transform rnd frame).
Proof.
  intros Hd. unfold Transform. rewrite Hd.
  apply keeps_bind; [edges_tac | intros t].
  destruct (_ && _); [edges_tac | apply decryptFrame_edges].
Qed.

Lemma edges_refl_or_nil (b : bool) (l : FrameCryptionState) :
  if b then edges l [] l else @nil FrameCryptionState = [].
Proof. destruct b; [constructor|done]. Qed.

(** Over a run, the notifications of the sender frames are edges of
    [last_enc_error_] and those of the receiver frames are edges of
    [last_dec_error_]. *)
Lemma run_edges (calls : list (Z * Frame)) (w w' : World)
    (trs : list (Direction * list Event)) :
  run calls w = Ret (w', trs) →
  observer_ (cryptor w') = observer_ (cryptor w) ∧
  (if observer_ (cryptor w)
   then edges (last_enc_error_ (cryptor w)) (notified_in kSender trs)
          (last_enc_error_ (cryptor w')) ∧
        edges (last_dec_error_ (cryptor w)) (notified_in kReceiver trs)
          (last_dec_error_ (cryptor w'))
   else notified_in kSender trs = [] ∧ notified_in kReceiver trs = []).
Proof.
  revert w w' trs. induction calls as [|[rnd frame] rest IH]; intros w w' trs.
  - cbn [run]. intros [= <- <-]. split; [done|].
    destruct (observer_ (cryptor w)); repeat constructor.
  - cbn [run].
    destruct (Transform rnd frame w) as [[[[] w1] tr]|] eqn:HT; [|done].
    destruct (run rest w1) as [[w2 trs']|] eqn:HR; [|done].
    intros [= <- <-].
    destruct (IH _ _ _ HR) as [Hobs IHe]. rewrite Hobs.
    unfold notified_in in *. cbn [map concat fst snd].
    destruct (GetDirection frame) eqn:Hd.
    + destruct (quiet_Transform_unknown rnd frame Hd _ _ _ _ HT)
        as (Hn & Ho & He & Hdc).
      rewrite !bool_decide_eq_false_2 by done. cbn [app].
      rewrite Ho in IHe |- *. rewrite He, Hdc in IHe. done.
    + destruct (Transform_edges_receiver rnd frame Hd _ _ _ _ HT)
        as (Ho & Hx & He).
      rewrite bool_decide_eq_false_2, bool_decide_eq_true_2 by done. cbn [app].
      rewrite Ho in IHe |- *. split; [done|].
      destruct (observer_ (cryptor w)).
      * destruct IHe as [IH1 IH2]. rewrite Hx in IH1. split; [done|].
        by eapply edges_app.
      * destruct IHe as [IH1 IH2]. by rewrite He, IH2.
    + destruct (Transform_edges_sender rnd frame Hd _ _ _ _ HT)
        as (Ho & Hx & He).
      rewrite bool_decide_eq_true_2, bool_decide_eq_false_2 by done. cbn [app].
      rewrite Ho in IHe |- *. split; [done|].
      destruct (observer_ (cryptor w)).
      * destruct IHe as [IH1 IH2]. rewrite Hx in IH2. split; [|done].
        by eapply edges_app.
      * destruct IHe as [IH1 IH2]. by rewrite He, IH1.
Qed.

(** C8: over any run of a transformer, in each direction the observer is
    never called twice in a row with the same state; with an observer set,
    every call is made with a state that differs from the one stored for
    the direction, the state is stored with the call, and the stored state
    at the end is the last one notified. *)
Theorem observer_edge_triggered (calls : list (Z * Frame)) (w w' : World)
    (trs : list (Direction * list Event)) :
  run calls w = Ret (w', trs) →
  no_repeat (notified_in kSender trs) ∧
  no_repeat (notified_in kReceiver trs) ∧
  (observer_ (cryptor w) = true →
   edges (last_enc_error_ (cryptor w)) (notified_in kSender trs)
     (last_enc_error_ (cryptor w')) ∧
   edges (last_dec_error_ (cryptor w)) (notified_in kReceiver trs)
     (last_dec_error_ (cryptor w'))).
Proof.
  intros H. destruct (run_edges _ _ _ _ H) as [_ He].
  destruct (observer_ (cryptor w)).
  - destruct He as [He Hd]. repeat split; eauto using edges_no_repeat.
  - destruct He as [-> ->]. repeat split; try done.
Qed.

(** ** Where [kDecryptionFailed] comes from *)

Lemma failed_bind_cases (w w1 w' : World) (tr1 tr2 : list Event) :
  becomes_failed w w' (tr1 ++ tr2) →
  becomes_failed w w1 tr1 ∨
  ((kDecryptionFailed ∉ notified tr1) ∧ becomes_failed w1 w' tr2).
Proof.
  intros Hbf.
  destruct (decide (kDecryptionFailed ∈ notified tr1)) as [Hin|Hnin];
    [by left; left|].
  destruct (decide (last_dec_error_ (cryptor w1) = kDecryptionFailed)) as [H1|H1].
  - destruct Hbf as [Hn|[Hw' Hw]].
    + rewrite notified_app in Hn. apply elem_of_app in Hn as [Hn|Hn]; [done|].
      right. split; [done|]. by left.
    + left. by right.
  - right. split; [done|].
    destruct Hbf as [Hn|[Hw' Hw]].
    + rewrite notified_app in Hn. apply elem_of_app in Hn as [Hn|Hn]; [done|].
      by left.
    + by right.
Qed.

Lemma failure_reported_app_l (tr1 tr2 : list Event) :
  failure_reported tr1 → failure_reported (tr1 ++ tr2).
Proof.
  intros (a & b & -> & Ha). exists a, (b ++ tr2). split; [|done].
  by rewrite <- app_assoc.
Qed.

Lemma failure_reported_app_r (tr1 tr2 : list Event) :
  kDecryptionFailed ∉ notified tr1 →
  failure_reported tr2 → failure_reported (tr1 ++ tr2).
Proof.
  intros Hn (a & b & -> & Ha). exists (tr1 ++ a), b. split.
  - by rewrite <- app_assoc.
  - rewrite notified_app. intros [?|?]%elem_of_app; done.
Qed.

Lemma guarded_bind {A B} (m : M A) (k : A → M B) :
  guarded m → (∀ a, guarded (k a)) → guarded (bind m k).
Proof.
  intros Hm Hk w b w2 tr H Hbf.
  apply bind_inv in H as (a & w1 & tr1 & tr2 & H1 & H2 & ->).
  apply (failed_bind_cases w w1) in Hbf as [Hbf|[Hn Hbf]].
  - apply failure_reported_app_l. by eapply Hm.
  - apply failure_reported_app_r; [done|]. by eapply Hk.
Qed.

Lemma guarded_quiet {A} (m : M A) : quiet m → guarded m.
Proof.
  intros Hq w a w' tr H [Hn|[Hw' Hw]];
    destruct (Hq _ _ _ _ H) as (Hnil & _ & _ & Hdec).
  - rewrite Hnil in Hn. by apply elem_of_nil in Hn.
  - congruence.
Qed.

Lemma guarded_dec_state (s : FrameCryptionState) :
  s ≠ kDecryptionFailed → guarded (dec_state s).
Proof.
  intros Hs w a w' tr. unfold dec_state, onFrameCryptionStateChanged. mstep.
  case_bool_decide as Hne.
  - mstep. cbn [observer_ set_last_dec_error].
    destruct (observer_ (cryptor w)); cbn [emit ret]; intros [= <- <- <-];
      (intros [Hn|[Hw' Hw]]; [cbn in Hn | cbn in Hw'; done]).
    + apply list_elem_of_singleton in Hn. done.
    + by apply elem_of_nil in Hn.
  - intros [= <- <- <-] [Hn|[Hw' Hw]]; [|done].
    by apply elem_of_nil in Hn.
Qed.

Lemma guarded_after_report {B} (k : unit → M B) :
  guarded (bind (emit (Key (CallDecryptionFailure true))) k).
Proof.
  intros w b w' tr H _.
  apply bind_inv in H as ([] & w1 & tr1 & tr2 & [= <- <-] & H2 & ->).
  exists [], tr2. split; [done|]. cbn. apply not_elem_of_nil.
Qed.

Ltac guarded_tac :=
  repeat first
    [ apply guarded_after_report
    | apply guarded_dec_state; discriminate
    | apply guarded_quiet; solve [quiet_tac]
    | apply guarded_bind; [|intros ?]
    | match goal with
      | |- guarded (if ?b then _ else _) => destruct b
      | |- guarded (match ?x with _ => _ end) => destruct x
      end ].

Lemma ratchet_loop_guarded (n : nat) (ratchet_count : Z) (current : bytes)
    (kh : string) (key_index : Z) (iv header payload : bytes) :
  guarded (ratchet_loop n ratchet_count current kh key_index iv header payload).
Proof.
  revert ratchet_count current.
  induction n as [|n IH]; intros ratchet_count current; cbn [ratchet_loop].
  - guarded_tac.
  - guarded_tac. apply IH.
Qed.

Lemma decrypt_or_ratchet_guarded (kh : string) (ks : KeySet) (key_index : Z)
    (iv header payload : bytes) :
  guarded (decrypt_or_ratchet kh ks key_index iv header payload).
Proof.
  unfold decrypt_or_ratchet. guarded_tac; apply ratchet_loop_guarded.
Qed.

Lemma decrypt_finish_guarded (sink : Sink) (frame : Frame) (kh : string)
    (header : bytes) (r : bool * bytes) :
  guarded (decrypt_finish sink frame kh header r).
Proof.
  unfold decrypt_finish. cbv zeta.
  destruct (negb r.1); [|guarded_tac].
  apply guarded_bind; [guarded_tac | intros h].
  destruct (DecryptionFailure h).1; guarded_tac.
Qed.

Lemma decrypt_cut_quiet (sink : Sink) (frame : Frame) (kh : string)
    (ks : KeySet) (ub ivLength key_index : Z) (header : bytes) :
  quiet (decrypt_cut sink frame kh ks ub ivLength key_index header).
Proof. unfold decrypt_cut. quiet_tac. Qed.

Lemma snapshot_sink_inv (frame : Frame) (w w1 : World) (s : option Sink)
    (tr : list Event) :
  snapshot_sink frame w = Ret (s, w1, tr) →
  tr = [] ∧ key_provider_ w1 = key_provider_ w ∧
  ∃ m, cryptor w1 = set_sink_callbacks (cryptor w) m.
Proof.
  unfold snapshot_sink. mstep.
  assert (Heta : cryptor w =
                 set_sink_callbacks (cryptor w) (sink_callbacks_ (cryptor w)))
    by (by destruct (cryptor w)).
  destruct (type_ (cryptor w)).
  - intros [= <- <- <-]. eauto.
  - destruct (sink_callbacks_ (cryptor w) !! GetSsrc frame).
    + intros [= <- <- <-]. eauto.
    + mstep. intros [= <- <- <-]. eauto.
Qed.

Ltac mstep_in H :=
  repeat (cbv beta in H;
          rewrite ?bind_assoc, ?bind_ret, ?bind_get_cryptor, ?bind_get_provider,
            ?bind_put_cryptor, ?bind_put_provider, ?bind_lift, ?bind_emit in H;
          cbn [ret lift emit get_cryptor get_provider put_cryptor put_provider
               fst snd cryptor key_provider_ GetData SetData] in H).

(** Runs the leading [lift]ed reads of a computation in [H]. *)
Ltac run_in H :=
  repeat (mstep_in H;
          match type of H with
          | match ?r with Ret _ => _ | Fault _ => _ end = _ =>
              let E := fresh "E" in
              destruct r eqn:E; [|discriminate H]
          end);
  mstep_in H.

(** The IV length byte of the trailer, as line 509 reads it. *)
Lemma decrypt_parse_failed (sink : Sink) (frame : Frame) (w w' : World)
    (c : option DecryptContext) (tr : list Event) :
  decrypt_parse sink frame w = Ret (c, w', tr) →
  becomes_failed w w' tr →
  (∃ ivLength,
     at_ (GetData frame) (size_t (size_of (GetData frame) - 2)) = Ret ivLength ∧
     ivLength ≠ getIvSize (cryptor w)) ∨
  failure_reported tr.
Proof.
  intros H Hbf. unfold decrypt_parse in H. run_in H.
  match type of H with
  | (if negb (?l =? _) then _ else _) _ = _ => rename l into ivLength
  end.
  destruct (ivLength =? getIvSize (cryptor w)) eqn:Eiv.
  - right. cbn [negb] in H.
    match type of H with
    | ?m w = _ => assert (G : guarded m)
    end.
    { guarded_tac; apply guarded_quiet, decrypt_cut_quiet. }
    by eapply G.
  - left. exists ivLength. split; [done|]. lia.
Qed.

(** C6, amended: whenever a call of [decryptFrame] tells the observer
    [kDecryptionFailed], or turns [last_dec_error_] to it, either the IV
    length byte of the trailer is not [getIvSize()], or the handler's
    [DecryptionFailure] was called before and answered [true]. *)
Theorem DecryptionFailed_origin (frame : Frame) (w w' : World)
    (tr : list Event) :
  decryptFrame frame w = Ret (tt, w', tr) →
  becomes_failed w w' tr →
  (∃ ivLength,
     at_ (GetData frame) (size_t (size_of (GetData frame) - 2)) = Ret ivLength ∧
     ivLength ≠ getIvSize (cryptor w)) ∨
  failure_reported tr.
Proof.
  intros H Hbf. unfold decryptFrame in H.
  apply bind_inv in H as (c & w1 & tr1 & tr2 & Hsetup & Hrest & ->).
  apply (failed_bind_cases w w1) in Hbf as [Hbf|[Hn Hbf]].
  - (* in the setup *)
    clear Hrest.
    assert (failure_reported tr1 → failure_reported (tr1 ++ tr2))
      by apply failure_reported_app_l.
    unfold decrypt_setup in Hsetup. mstep_in Hsetup.
    apply bind_inv in Hsetup as (s & w0 & tr0 & tr0' & Hs & Hsetup & ->).
    apply snapshot_sink_inv in Hs as (-> & Hp & m & Hc).
    cbn [app] in *.
    assert (Hdec : last_dec_error_ (cryptor w0) = last_dec_error_ (cryptor w))
      by (by rewrite Hc).
    assert (Hbf0 : becomes_failed w0 w1 tr0').
    { destruct Hbf as [?|[? ?]]; [by left|right]. by rewrite Hdec. }
    assert (Hiv : getIvSize (cryptor w0) = getIvSize (cryptor w))
      by (by rewrite Hc).
    rewrite <- Hiv.
    destruct s as [sink|].
    + mstep_in Hsetup.
      destruct (_ || _).
      * right. apply H.
        match type of Hsetup with
        | ?m w0 = _ => assert (G : guarded m) by guarded_tac
        end.
        by eapply G.
      * destruct (has_magic_bytes _ _).
        -- right. apply H.
           match type of Hsetup with
           | ?m w0 = _ => assert (G : guarded m) by guarded_tac
           end.
           by eapply G.
        -- destruct (decrypt_parse_failed _ _ _ _ _ _ Hsetup Hbf0); auto.
    + right. apply H.
      match type of Hsetup with
      | ?m w0 = _ => assert (G : guarded m) by guarded_tac
      end.
      by eapply G.
  - (* after the setup *)
    right. apply failure_reported_app_r; [done|].
    destruct c as [c|].
    + assert (G : guarded
        (bind (decrypt_or_ratchet (dc_key_handler c) (dc_key_set c)
                 (dc_key_index c) (dc_iv c) (dc_frame_header c)
                 (dc_encrypted_payload c))
           (decrypt_finish (dc_sink c) frame (dc_key_handler c)
              (dc_frame_header c)))).
      { apply guarded_bind; [apply decrypt_or_ratchet_guarded|].
        intros r. apply decrypt_finish_guarded. }
      by eapply G.
    + injection Hrest as <- <-. destruct Hbf as [Hin|[? ?]]; [|done].
      by apply elem_of_nil in Hin.
Qed.

(** ** Equations of the method calls *)

Lemma dec_state_eq (s : FrameCryptionState) (w : World) :
  dec_state s w = Ret (tt, dec_state_world s w, dec_state_events s w).
Proof.
  unfold dec_state, dec_state_world, dec_state_events,
    onFrameCryptionStateChanged. mstep.
  case_bool_decide; [|done]. mstep. cbn [observer_ set_last_dec_error andb].
  by destruct (observer_ (cryptor w)).
Qed.

Lemma enc_state_eq (s : FrameCryptionState) (w : World) :
  enc_state s w = Ret (tt, enc_state_world s w, enc_state_events s w).
Proof.
  unfold enc_state, enc_state_world, enc_state_events,
    onFrameCryptionStateChanged. mstep.
  case_bool_decide; [|done]. mstep. cbn [observer_ set_last_enc_error andb].
  by destruct (observer_ (cryptor w)).
Qed.

Lemma lookup_key_handler_eq (w : World) :
  lookup_key_handler w =
  Ret (match handlers (key_provider_ w)
               !! handler_ref (key_provider_ w) (participant_id_ (cryptor w)) with
       | Some _ => Some (handler_ref (key_provider_ w) (participant_id_ (cryptor w)))
       | None => None
       end, w,
       [Key (if shared_key (options (key_provider_ w))
             then CallGetSharedKey (participant_id_ (cryptor w))
             else CallGetKey (participant_id_ (cryptor w)))]).
Proof. unfold lookup_key_handler. by mstep. Qed.

Lemma get_handler_eq (kh : string) (h : ParticipantKeyHandler) (w : World) :
  handlers (key_provider_ w) !! kh = Some h →
  get_handler kh w = Ret (h, w, []).
Proof. intros H. unfold get_handler. mstep. by rewrite H. Qed.

Lemma call_GetKeySet_eq (kh : string) (h : ParticipantKeyHandler) (index : Z)
    (w : World) :
  handlers (key_provider_ w) !! kh = Some h →
  call_GetKeySet kh index w = Ret (GetKeySet h index, w, [Key (CallGetKeySet index)]).
Proof.
  intros H. unfold call_GetKeySet.
  rewrite (bind_pure _ _ _ _ (get_handler_eq _ _ _ H)). by mstep.
Qed.

Lemma update_handler_eq (kh : string) (h : ParticipantKeyHandler)
    (f : ParticipantKeyHandler → ParticipantKeyHandler) (w : World) :
  handlers (key_provider_ w) !! kh = Some h →
  update_handler kh f w = Ret (tt, with_handler w kh (f h), []).
Proof.
  intros H. unfold update_handler.
  rewrite (bind_pure _ _ _ _ (get_handler_eq _ _ _ H)). by mstep.
Qed.

Lemma call_SetKeyFromMaterial_eq (kh : string) (h : ParticipantKeyHandler)
    (password : bytes) (index : Z) (w : World) :
  handlers (key_provider_ w) !! kh = Some h →
  call_SetKeyFromMaterial kh password index w =
  Ret (tt,
       with_handler w kh
         (SetKeyFromMaterial (ratchet_salt (options (key_provider_ w)))
            password index h),
       [Key (CallSetKeyFromMaterial password index)]).
Proof.
  intros H. unfold call_SetKeyFromMaterial. mstep.
  by rewrite (update_handler_eq _ _ _ _ H).
Qed.

Lemma with_handler_lookup (w : World) (kh : string) (h : ParticipantKeyHandler) :
  handlers (key_provider_ (with_handler w kh h)) !! kh = Some h.
Proof. cbn. apply lookup_insert_eq. Qed.

Lemma delivered_app (a b : list Event) :
  delivered (a ++ b) = delivered a ++ delivered b.
Proof. apply omap_app. Qed.

Lemma key_calls_app (a b : list Event) :
  key_calls (a ++ b) = key_calls a ++ key_calls b.
Proof. apply omap_app. Qed.

Lemma delivered_key (c : KeyCall) (tr : list Event) :
  delivered (Key c :: tr) = delivered tr.
Proof. done. Qed.

Lemma notified_key (c : KeyCall) (tr : list Event) :
  notified (Key c :: tr) = notified tr.
Proof. done. Qed.

Lemma delivered_frame (s : Sink) (f : Frame) (tr : list Event) :
  delivered (OnTransformedFrame s f :: tr) = (s, f) :: delivered tr.
Proof. done. Qed.

Lemma notified_frame (s : Sink) (f : Frame) (tr : list Event) :
  notified (OnTransformedFrame s f :: tr) = notified tr.
Proof. done. Qed.

Lemma delivered_nil : delivered [] = [].
Proof. done. Qed.

Lemma notified_nil : notified [] = [].
Proof. done. Qed.

Lemma delivered_dec_state_events (s : FrameCryptionState) (w : World) :
  delivered (dec_state_events s w) = [].
Proof. unfold dec_state_events. by destruct (_ && _). Qed.

Lemma delivered_enc_state_events (s : FrameCryptionState) (w : World) :
  delivered (enc_state_events s w) = [].
Proof. unfold enc_state_events. by destruct (_ && _). Qed.

Lemma dec_state_events_with_handler (s : FrameCryptionState) (w : World)
    (kh : string) (h : ParticipantKeyHandler) :
  dec_state_events s (with_handler w kh h) = dec_state_events s w.
Proof. done. Qed.

Create Rewrite HintDb trace.
#[local] Hint Rewrite delivered_app notified_app delivered_key notified_key
  delivered_frame notified_frame delivered_nil notified_nil
  delivered_dec_state_events delivered_enc_state_events
  dec_state_events_with_handler @app_nil_r @app_nil_l : trace.

(** ** Faults are reads out of bounds *)

Lemma at_fault (data : bytes) (i : Z) (f : fault) :
  at_ data i = Fault f → f = OutOfBounds.
Proof.
  unfold at_. destruct (_ && _); [|congruence].
  destruct (data !! Z.to_nat i); congruence.
Qed.

Lemma copy_loop_fault (src : bytes) (base i : Z) (n : nat) (f : fault) :
  copy_loop src base i n = Fault f → f = OutOfBounds.
Proof.
  revert i. induction n as [|n IH]; intros i; cbn [copy_loop]; [done|].
  destruct (at_ src (size_t (base + i))) eqn:E; cbn [rbind].
  - destruct (copy_loop src base (i + 1) n) eqn:E2; cbn [rbind]; [done|].
    intros [= <-]. by eapply IH.
  - intros [= <-]. by eapply at_fault.
Qed.

Lemma nalu_loop_fault (data : bytes) (l : list NaluIndex) (f : fault) :
  nalu_loop data l = Fault f → f = OutOfBounds.
Proof.
  induction l as [|index l IH]; cbn [nalu_loop]; [done|].
  destruct (at_ data (payload_start_offset index)) eqn:E; cbn [rbind].
  - destruct (_ || _); [done|]. apply IH.
  - intros [= <-]. by eapply at_fault.
Qed.

Lemma get_unencrypted_bytes_fault (frame : Frame) (type : MediaType) (f : fault) :
  get_unencrypted_bytes frame type = Fault f → f = OutOfBounds.
Proof.
  unfold get_unencrypted_bytes. destruct type; [done|].
  repeat case_bool_decide; try done. apply nalu_loop_fault.
Qed.

Lemma NeedsRbspUnescaping_loop_S (fuel : nat) (frameData : bytes) (bound i : Z) :
  NeedsRbspUnescaping_loop (S fuel) frameData bound i =
  if i <? bound then
    let? b0 := at_ frameData i in
    if b0 =? 0 then
      let? b1 := at_ frameData (i + 1) in
      if b1 =? 0 then
        let? b2 := at_ frameData (i + 2) in
        if b2 =? 3 then Ret true
        else NeedsRbspUnescaping_loop fuel frameData bound (i + 1)
      else NeedsRbspUnescaping_loop fuel frameData bound (i + 1)
    else NeedsRbspUnescaping_loop fuel frameData bound (i + 1)
  else Ret false.
Proof. reflexivity. Qed.

(** The fuel of [NeedsRbspUnescaping] is enough: from index [i] on, the
    scan ends or faults within [size - i + 1] iterations, and more fuel
    changes nothing. *)
Lemma NeedsRbspUnescaping_loop_fuel (fuel : nat) (frameData : bytes) (bound i : Z) :
  0 <= i <= size_of frameData →
  size_of frameData - i < Z.of_nat fuel →
  NeedsRbspUnescaping_loop fuel frameData bound i =
  NeedsRbspUnescaping_loop (S fuel) frameData bound i.
Proof.
  revert i. induction fuel as [|fuel IH]; intros i Hi Hfuel; [lia|].
  rewrite (NeedsRbspUnescaping_loop_S fuel), (NeedsRbspUnescaping_loop_S (S fuel)).
  destruct (i <? bound); [|done].
  destruct (decide (i = size_of frameData)) as [->|Hne].
  - by rewrite at_out_of_bounds by lia.
  - by rewrite <- (IH (i + 1)) by lia.
Qed.

(** X1: on a buffer of fewer than three bytes the bound [frameSize - 3]
    of [NeedsRbspUnescaping] wraps around, and the scan reads past the end
    of the buffer. *)
Lemma NeedsRbspUnescaping_short (frameData : bytes) :
  size_of frameData < 3 → NeedsRbspUnescaping frameData = Fault OutOfBounds.
Proof.
  intros Hsz. unfold NeedsRbspUnescaping.
  assert (Hb : ∀ i, 0 <= i <= 2 → (i <? size_t (size_of frameData - 3)) = true).
  { intros i Hi. pose proof (size_of_nonneg frameData).
    unfold size_t.
    replace ((size_of frameData - 3) mod 2 ^ 64)
      with (2 ^ 64 - 3 + size_of frameData).
    - lia.
    - apply Z.mod_unique with (q := -1); lia. }
  destruct frameData as [|a [|b [|c rest]]];
    try (unfold size_of in Hsz; cbn [length] in Hsz; lia).
  - cbn [NeedsRbspUnescaping_loop length]. by rewrite Hb by lia.
  - cbn [NeedsRbspUnescaping_loop length]. rewrite !Hb by lia.
    change (at_ [a] 0) with (Ret (A := Z) a).
    change (at_ [a] (0 + 1)) with (Fault (A := Z) OutOfBounds).
    cbn [rbind]. by destruct (a =? 0).
  - cbn [NeedsRbspUnescaping_loop length]. rewrite !Hb by lia.
    change (at_ [a; b] 0) with (Ret (A := Z) a).
    change (at_ [a; b] (0 + 1)) with (Ret (A := Z) b).
    change (at_ [a; b] (0 + 2)) with (Fault (A := Z) OutOfBounds).
    change (at_ [a; b] (0 + 1 + 1)) with (Fault (A := Z) OutOfBounds).
    change (at_ [a; b] (0 + 1 + 2)) with (Fault (A := Z) OutOfBounds).
    cbn [rbind]. destruct (a =? 0), (b =? 0); cbn [rbind]; done.
Qed.

(** C9, refuted by the code: a payload of one byte passes the checks for
    an empty payload and for the magic bytes, and [decryptFrame] then reads
    outside it, at the latest when it reads the trailer at index
    [size - 2], which has wrapped around to [2^64 - 1]. *)
Theorem decryptFrame_short_payload (frame : Frame) (w : World) (sink : Sink) :
  enabled_cryption_ (cryptor w) = true →
  sink_of (cryptor w) frame = Some sink →
  size_of (GetData frame) = 1 →
  has_magic_bytes (uncrypted_magic_bytes (options (key_provider_ w)))
    (GetData frame) = false →
  decryptFrame frame w = Fault OutOfBounds ∧
  size_t (size_of (GetData frame) - 2) = 2 ^ 64 - 1 ∧
  at_ (GetData frame) (size_t (size_of (GetData frame) - 2)) = Fault OutOfBounds.
Proof.
  intros Hen Hsink Hsize Hmagic.
  assert (Hidx : size_t (size_of (GetData frame) - 2) = 2 ^ 64 - 1)
    by (by rewrite Hsize).
  assert (Hat : at_ (GetData frame) (size_t (size_of (GetData frame) - 2))
                = Fault OutOfBounds).
  { apply at_out_of_bounds. rewrite Hidx, Hsize. done. }
  split; [|done].
  unfold decryptFrame. apply bind_Fault.
  unfold decrypt_setup. mstep.
  rewrite (bind_pure _ _ _ _ (snapshot_sink_registered _ w sink Hsink)). mstep.
  rewrite Hen, Hsize, Hmagic. cbn [Z.eqb orb negb Pos.eqb].
  unfold decrypt_parse. mstep.
  destruct (get_unencrypted_bytes frame (type_ (cryptor w))) as [ub|f] eqn:Eub.
  - mstep.
    destruct (copy_loop (GetData frame) 0 0 (Z.to_nat ub)) as [header|f] eqn:Eh.
    + mstep. by rewrite Hat.
    + by rewrite (copy_loop_fault _ _ _ _ _ Eh).
  - by rewrite (get_unencrypted_bytes_fault _ _ _ Eub).
Qed.

(** ** The ratchet recovery *)

Lemma with_handler_twice (w : World) (kh : string) (a b : ParticipantKeyHandler) :
  with_handler (with_handler w kh a) kh b = with_handler w kh b.
Proof.
  unfold with_handler, set_handler. cbn. by rewrite insert_insert_eq.
Qed.

Lemma ratchet_n_S (salt : bytes) (k : nat) (m : bytes) :
  ratchet_n salt (S k) m = ratchet_n salt k (RatchetKeyMaterial salt m).
Proof. unfold ratchet_n. apply Nat.iter_succ_r. Qed.

Lemma ratchet_n_1 (salt m : bytes) :
  ratchet_n salt 1 m = RatchetKeyMaterial salt m.
Proof. reflexivity. Qed.

(** All [n] attempts fail: the loop leaves the world as it was. *)
Lemma ratchet_loop_exhausted (n : nat) (rc : Z) (cur : bytes) (kh : string)
    (idx : Z) (iv hd pl : bytes) (w : World) :
  (∀ j, (1 ≤ j ≤ n)%nat →
        attempt_fails (algorithm_ (cryptor w))
          (ratchet_salt (options (key_provider_ w))) iv hd pl
          (ratchet_n (ratchet_salt (options (key_provider_ w))) j cur)) →
  ∃ tr, ratchet_loop n rc cur kh idx iv hd pl w
          = Ret ((false, rc + Z.of_nat n, []), w, tr) ∧
        delivered tr = [] ∧ notified tr = [].
Proof.
  revert rc cur. induction n as [|n IH]; intros rc cur Hfail.
  - exists []. cbn [ratchet_loop ret]. rewrite Z.add_0_r. done.
  - cbn [ratchet_loop]. mstep.
    destruct (Hfail 1%nat ltac:(lia)) as (ks & Hks & Hno).
    rewrite ratchet_n_1 in Hks. rewrite Hks.
    apply Z.eqb_neq in Hno. rewrite Hno.
    destruct (IH (rc + 1) (RatchetKeyMaterial
                (ratchet_salt (options (key_provider_ w))) cur))
      as (tr & Htr & Hd & Hn).
    { intros j Hj. rewrite <- ratchet_n_S. apply Hfail. lia. }
    rewrite Htr. eexists. split.
    + do 3 f_equal. do 2 f_equal. lia.
    + split; by autorewrite with trace.
Qed.

(** Attempt [k] is the first to succeed: the loop installs the material of
    that attempt, sets the validity flag and reports [kKeyRatcheted]. *)
Lemma ratchet_loop_success (n : nat) (rc : Z) (cur : bytes) (kh : string)
    (idx : Z) (iv hd pl : bytes) (w : World) (h : ParticipantKeyHandler)
    (k : nat) (ks : KeySet) (pt : bytes) :
  (1 ≤ k ≤ n)%nat →
  handlers (key_provider_ w) !! kh = Some h →
  (∀ j, (1 ≤ j < k)%nat →
        attempt_fails (algorithm_ (cryptor w))
          (ratchet_salt (options (key_provider_ w))) iv hd pl
          (ratchet_n (ratchet_salt (options (key_provider_ w))) j cur)) →
  DeriveKeys (ratchet_n (ratchet_salt (options (key_provider_ w))) k cur)
    (ratchet_salt (options (key_provider_ w))) 128 = Some ks →
  AesEncryptDecrypt kDecrypt (algorithm_ (cryptor w)) (encryption_key ks) iv hd pl
    = (Success, pt) →
  ∃ tr, ratchet_loop n rc cur kh idx iv hd pl w
          = Ret ((true, rc + Z.of_nat k, pt),
                 dec_state_world kKeyRatcheted
                   (with_handler w kh
                      (SetHasValidKey
                         (SetKeyFromMaterial
                            (ratchet_salt (options (key_provider_ w)))
                            (ratchet_n (ratchet_salt (options (key_provider_ w))) k cur)
                            idx h))),
                 tr) ∧
        delivered tr = [] ∧
        notified tr = notified (dec_state_events kKeyRatcheted w).
Proof.
  revert rc cur k. induction n as [|n IH]; intros rc cur k Hk Hh Hfail Hks Hok;
    [lia|].
  cbn [ratchet_loop]. mstep.
  destruct (decide (k = 1%nat)) as [->|Hk1].
  - rewrite ratchet_n_1 in Hks |- *. rewrite Hks, Hok.
    cbn [fst snd]. change (Success =? Success) with true. cbv iota.
    rewrite (bind_Ret _ _ _ _ _ _ (call_SetKeyFromMaterial_eq _ _ _ _ _ Hh)).
    mstep.
    rewrite (bind_Ret _ _ _ _ _ _
               (update_handler_eq _ _ SetHasValidKey _ (with_handler_lookup _ _ _))).
    rewrite with_handler_twice.
    rewrite (bind_Ret _ _ _ _ _ _ (dec_state_eq _ _)). mstep.
    eexists. split; [reflexivity|].
    split; by autorewrite with trace.
  - destruct (Hfail 1%nat ltac:(lia)) as (ks1 & Hks1 & Hno).
    rewrite ratchet_n_1 in Hks1. rewrite Hks1.
    apply Z.eqb_neq in Hno. rewrite Hno.
    destruct k as [|k]; [lia|]. rewrite ratchet_n_S in Hks.
    assert (Hfail' : ∀ j, (1 ≤ j < k)%nat →
              attempt_fails (algorithm_ (cryptor w))
                (ratchet_salt (options (key_provider_ w))) iv hd pl
                (ratchet_n (ratchet_salt (options (key_provider_ w))) j
                   (RatchetKeyMaterial
                      (ratchet_salt (options (key_provider_ w))) cur))).
    { intros j Hj. rewrite <- ratchet_n_S. apply Hfail. lia. }
    destruct (IH (rc + 1) _ k ltac:(lia) Hh Hfail' Hks Hok)
      as (tr & Htr & Hd & Hn).
    rewrite Htr. rewrite ratchet_n_S. eexists. split.
    + do 3 f_equal. do 2 f_equal. lia.
    + split; by autorewrite with trace.
Qed.

(** ** What [decrypt_setup] hands to the decryption *)

Lemma decrypt_cut_inv (sink : Sink) (frame : Frame) (kh : string) (ks : KeySet)
    (ub ivLength key_index : Z) (header : bytes) (w w1 : World)
    (c : option DecryptContext) (tr : list Event) :
  decrypt_cut sink frame kh ks ub ivLength key_index header w = Ret (c, w1, tr) →
  w1 = w ∧ tr = [] ∧
  ∃ iv payload,
    c = Some {| dc_sink := sink; dc_key_handler := kh; dc_key_set := ks;
                dc_key_index := key_index; dc_iv := iv;
                dc_frame_header := header; dc_encrypted_payload := payload |}.
Proof.
  intros H. unfold decrypt_cut in H. run_in H.
  destruct (FrameIsH264 frame (type_ (cryptor w))).
  - run_in H. injection H as <- <- <-. eauto.
  - run_in H. injection H as <- <- <-. eauto.
Qed.

Lemma decrypt_parse_inv (sink : Sink) (frame : Frame) (w w1 : World)
    (c : DecryptContext) (tr : list Event) :
  decrypt_parse sink frame w = Ret (Some c, w1, tr) →
  w1 = w ∧ delivered tr = [] ∧ notified tr = [] ∧
  dc_sink c = sink ∧
  dc_key_handler c = handler_ref (key_provider_ w) (participant_id_ (cryptor w)) ∧
  at_ (GetData frame) (size_t (size_of (GetData frame) - 1)) = Ret (dc_key_index c) ∧
  ∃ h, handlers (key_provider_ w) !! dc_key_handler c = Some h ∧
       GetKeySet h (dc_key_index c) = Some (dc_key_set c).
Proof.
  intros H. unfold decrypt_parse in H. run_in H.
  destruct (negb _).
  { rewrite (bind_Ret _ _ _ _ _ _ (dec_state_eq _ _)) in H. by mstep_in H. }
  rewrite (bind_Ret _ _ _ _ _ _ (lookup_key_handler_eq _)) in H. mstep_in H.
  destruct (_ || _).
  { rewrite (bind_Ret _ _ _ _ _ _ (dec_state_eq _ _)) in H. by mstep_in H. }
  set (kh := handler_ref (key_provider_ w) (participant_id_ (cryptor w))) in *.
  destruct (handlers (key_provider_ w) !! kh) as [h|] eqn:Hh.
  2:{ rewrite (bind_Ret _ _ _ _ _ _ (dec_state_eq _ _)) in H. by mstep_in H. }
  rewrite (bind_Ret _ _ _ _ _ _ (call_GetKeySet_eq _ _ _ _ Hh)) in H. mstep_in H.
  match type of H with
  | context [GetKeySet h ?i] => set (key_index := i) in *
  end.
  destruct (GetKeySet h key_index) as [ks|] eqn:Hks.
  2:{ rewrite (bind_Ret _ _ _ _ _ _ (dec_state_eq _ _)) in H. by mstep_in H. }
  case_bool_decide.
  - mstep_in H.
    rewrite (bind_pure _ _ _ _ (get_handler_eq _ _ _ Hh)) in H. mstep_in H.
    destruct (negb (has_valid_key h)); [by mstep_in H|].
    rewrite (bind_Ret _ _ _ _ _ _ (call_GetKeySet_eq _ _ _ _ Hh)) in H.
    mstep_in H. fold key_index in H. rewrite Hks in H.
    destruct (decrypt_cut _ _ _ _ _ _ _ _ w) as [[[c' w'] tr']|] eqn:Hcut; [|done].
    apply decrypt_cut_inv in Hcut as (-> & -> & iv & payload & ->).
    injection H as <- <- <-. repeat split; try done. by exists h.
  - mstep_in H.
    rewrite (bind_Ret _ _ _ _ _ _ (call_GetKeySet_eq _ _ _ _ Hh)) in H.
    mstep_in H. fold key_index in H. rewrite Hks in H.
    destruct (decrypt_cut _ _ _ _ _ _ _ _ w) as [[[c' w'] tr']|] eqn:Hcut; [|done].
    apply decrypt_cut_inv in Hcut as (-> & -> & iv & payload & ->).
    injection H as <- <- <-. repeat split; try done. by exists h.
Qed.

(** A call that reaches its first decryption attempt has delivered and
    notified nothing, has left the key provider as it was, and decrypts
    with the key set that the handler of the participant holds at the key
    index of the trailer. *)
Lemma decrypt_setup_inv (frame : Frame) (w w1 : World) (c : DecryptContext)
    (tr : list Event) :
  decrypt_setup frame w = Ret (Some c, w1, tr) →
  key_provider_ w1 = key_provider_ w ∧
  (∃ m, cryptor w1 = set_sink_callbacks (cryptor w) m) ∧
  delivered tr = [] ∧ notified tr = [] ∧
  dc_key_handler c = handler_ref (key_provider_ w) (participant_id_ (cryptor w)) ∧
  at_ (GetData frame) (size_t (size_of (GetData frame) - 1)) = Ret (dc_key_index c) ∧
  ∃ h, handlers (key_provider_ w) !! dc_key_handler c = Some h ∧
       GetKeySet h (dc_key_index c) = Some (dc_key_set c).
Proof.
  intros H. unfold decrypt_setup in H. mstep_in H.
  apply bind_inv in H as (s & w0 & tr0 & tr0' & Hs & H & ->).
  apply snapshot_sink_inv in Hs as (-> & Hp & m & Hc).
  cbn [app].
  destruct s as [sink|].
  2:{ rewrite (bind_Ret _ _ _ _ _ _ (dec_state_eq _ _)) in H. by mstep_in H. }
  mstep_in H.
  destruct (_ || _).
  { destruct (discard_frame_when_cryptor_not_ready _); by mstep_in H. }
  destruct (has_magic_bytes _ _); [by mstep_in H|].
  apply decrypt_parse_inv in H as (-> & Hd & Hn & Hsink & Hkh & Hidx & h & Hh & Hks).
  rewrite Hp, Hc in Hkh. rewrite Hp in Hh.
  repeat split; eauto.
Qed.

(** ** The first attempt, the recovery and the end of [decryptFrame] *)

Lemma dec_state_world_provider (s : FrameCryptionState) (w : World) :
  key_provider_ (dec_state_world s w) = key_provider_ w.
Proof. unfold dec_state_world. by case_bool_decide. Qed.

Lemma DeriveKeys_material (m salt : bytes) (bits : Z) (ks : KeySet) :
  DeriveKeys m salt bits = Some ks → material ks = m.
Proof.
  unfold DeriveKeys. destruct (DerivePBKDF2KeyFromRawKey m salt bits) as [rc k].
  destruct (rc =? Success); [|done]. by intros [= <-].
Qed.

Lemma GetKeySet_SetKeyFromMaterial (salt m : bytes) (idx : Z)
    (h : ParticipantKeyHandler) :
  is_Some (GetKeySet h idx) →
  GetKeySet (SetKeyFromMaterial salt m idx h) idx = DeriveKeys m salt 128.
Proof.
  unfold GetKeySet. intros [ks Hks]. cbn [crypto_key_ring SetKeyFromMaterial].
  rewrite length_insert.
  destruct (_ && _) eqn:E; [|done].
  rewrite list_lookup_insert_eq; [done|].
  apply andb_true_iff in E as [E1 E2]. lia.
Qed.

Lemma GetKeySet_SetHasValidKey (h : ParticipantKeyHandler) (idx : Z) :
  GetKeySet (SetHasValidKey h) idx = GetKeySet h idx.
Proof. done. Qed.

Lemma GetKeySet_DecryptionFailure (h : ParticipantKeyHandler) (idx : Z) :
  GetKeySet (DecryptionFailure h).2 idx = GetKeySet h idx.
Proof. done. Qed.

Lemma decrypt_or_ratchet_first (kh : string) (ks : KeySet) (idx : Z)
    (iv hd pl pt : bytes) (w : World) :
  AesEncryptDecrypt kDecrypt (algorithm_ (cryptor w)) (encryption_key ks) iv hd pl
    = (Success, pt) →
  decrypt_or_ratchet kh ks idx iv hd pl w = Ret ((true, pt), w, []).
Proof. intros H. unfold decrypt_or_ratchet. mstep. by rewrite H. Qed.

Lemma decrypt_or_ratchet_exhausted (kh : string) (ks : KeySet) (idx : Z)
    (iv hd pl : bytes) (w : World) (h : ParticipantKeyHandler) :
  handlers (key_provider_ w) !! kh = Some h →
  (AesEncryptDecrypt kDecrypt (algorithm_ (cryptor w)) (encryption_key ks)
     iv hd pl).1 ≠ Success →
  0 < ratchet_window_size (options (key_provider_ w)) →
  (∀ j, (1 ≤ j ≤ Z.to_nat (ratchet_window_size (options (key_provider_ w))))%nat →
        attempt_fails (algorithm_ (cryptor w))
          (ratchet_salt (options (key_provider_ w))) iv hd pl
          (ratchet_n (ratchet_salt (options (key_provider_ w))) j (material ks))) →
  ∃ tr, decrypt_or_ratchet kh ks idx iv hd pl w
          = Ret ((false, []),
                 with_handler w kh
                   (SetKeyFromMaterial (ratchet_salt (options (key_provider_ w)))
                      (material ks) idx h), tr) ∧
        delivered tr = [] ∧ notified tr = [].
Proof.
  intros Hh Hno Hwin Hfail. unfold decrypt_or_ratchet. mstep.
  apply Z.eqb_neq in Hno. rewrite Hno.
  destruct (0 <? _) eqn:E; [|lia].
  destruct (ratchet_loop_exhausted _ 0 (material ks) kh idx iv hd pl w Hfail)
    as (tr & Htr & Hd & Hn).
  rewrite (bind_Ret _ _ _ _ _ _ Htr). mstep. cbn [negb orb].
  rewrite (bind_Ret _ _ _ _ _ _ (call_SetKeyFromMaterial_eq _ _ _ _ _ Hh)). mstep.
  eexists. split; [reflexivity|].
  split; autorewrite with trace; by rewrite ?Hd, ?Hn.
Qed.

Lemma decrypt_or_ratchet_success (kh : string) (ks : KeySet) (idx : Z)
    (iv hd pl : bytes) (w : World) (h : ParticipantKeyHandler) (k : nat)
    (ksk : KeySet) (pt : bytes) :
  handlers (key_provider_ w) !! kh = Some h →
  (AesEncryptDecrypt kDecrypt (algorithm_ (cryptor w)) (encryption_key ks)
     iv hd pl).1 ≠ Success →
  (1 ≤ k ≤ Z.to_nat (ratchet_window_size (options (key_provider_ w))))%nat →
  (∀ j, (1 ≤ j < k)%nat →
        attempt_fails (algorithm_ (cryptor w))
          (ratchet_salt (options (key_provider_ w))) iv hd pl
          (ratchet_n (ratchet_salt (options (key_provider_ w))) j (material ks))) →
  DeriveKeys (ratchet_n (ratchet_salt (options (key_provider_ w))) k (material ks))
    (ratchet_salt (options (key_provider_ w))) 128 = Some ksk →
  AesEncryptDecrypt kDecrypt (algorithm_ (cryptor w)) (encryption_key ksk) iv hd pl
    = (Success, pt) →
  let salt := ratchet_salt (options (key_provider_ w)) in
  let installed :=
    SetHasValidKey (SetKeyFromMaterial salt (ratchet_n salt k (material ks)) idx h) in
  let w1 := dec_state_world kKeyRatcheted (with_handler w kh installed) in
  ∃ tr, decrypt_or_ratchet kh ks idx iv hd pl w
          = Ret ((true, pt),
                 (if ratchet_window_size (options (key_provider_ w)) <=? Z.of_nat k
                  then with_handler w1 kh
                         (SetKeyFromMaterial salt (material ks) idx installed)
                  else w1), tr) ∧
        delivered tr = [] ∧
        notified tr = notified (dec_state_events kKeyRatcheted w).
Proof.
  intros Hh Hno Hk Hfail Hks Hok salt installed w1.
  unfold decrypt_or_ratchet. mstep.
  apply Z.eqb_neq in Hno. rewrite Hno.
  destruct (0 <? _) eqn:E; [|lia].
  destruct (ratchet_loop_success _ 0 (material ks) kh idx iv hd pl w h k ksk pt
              Hk Hh Hfail Hks Hok) as (tr & Htr & Hd & Hn).
  rewrite (bind_Ret _ _ _ _ _ _ Htr). mstep. cbn [negb orb].
  rewrite Z.add_0_l. fold salt installed w1.
  destruct (_ <=? Z.of_nat k).
  - assert (Hh1 : handlers (key_provider_ w1) !! kh = Some installed).
    { unfold w1. rewrite dec_state_world_provider. apply with_handler_lookup. }
    rewrite (bind_Ret _ _ _ _ _ _ (call_SetKeyFromMaterial_eq _ _ _ _ _ Hh1)).
    mstep. eexists. split.
    + unfold w1 at 2. rewrite dec_state_world_provider. reflexivity.
    + split; autorewrite with trace; by rewrite ?Hd, ?Hn.
  - mstep. eexists. split; [reflexivity|].
    split; autorewrite with trace; by rewrite ?Hd, ?Hn.
Qed.

Lemma decrypt_finish_failure (sink : Sink) (frame : Frame) (kh : string)
    (hd b : bytes) (w : World) (h : ParticipantKeyHandler) :
  handlers (key_provider_ w) !! kh = Some h →
  ∃ w' tr, decrypt_finish sink frame kh hd (false, b) w = Ret (tt, w', tr) ∧
           key_provider_ w' = key_provider_ (with_handler w kh (DecryptionFailure h).2) ∧
           delivered tr = [].
Proof.
  intros Hh. unfold decrypt_finish. cbn [fst snd negb].
  rewrite (bind_pure _ _ _ _ (get_handler_eq _ _ _ Hh)). mstep.
  rewrite (bind_Ret _ _ _ _ _ _ (update_handler_eq _ _ _ _ Hh)). mstep.
  destruct (DecryptionFailure h).1.
  - rewrite dec_state_eq. eexists _, _. split; [reflexivity|].
    split; [apply dec_state_world_provider|]. by autorewrite with trace.
  - eexists _, _. split; [reflexivity|]. split; [done|]. by autorewrite with trace.
Qed.

Lemma decrypt_finish_success (sink : Sink) (frame : Frame) (kh : string)
    (hd pt : bytes) (w : World) :
  decrypt_finish sink frame kh hd (true, pt) w =
  Ret (tt, dec_state_world kOk w,
       dec_state_events kOk w ++ [OnTransformedFrame sink (SetData frame (hd ++ pt))]).
Proof.
  unfold decrypt_finish. cbn [fst snd negb].
  rewrite (bind_Ret _ _ _ _ _ _ (dec_state_eq _ _)). by mstep.
Qed.

(** ** The ratchet claims *)

(** C3: a call that reaches its first decryption attempt, fails it, and
    fails every one of the [ratchet_window_size] ratchet attempts, returns
    without delivering a frame and with the key set of the initial
    material installed again at the key index of the frame. *)
Theorem ratchet_exhausted_restores_material (frame : Frame) (w w1 : World)
    (c : DecryptContext) (tr1 : list Event) (ks0 : KeySet) :
  decrypt_setup frame w = Ret (Some c, w1, tr1) →
  0 < ratchet_window_size (options (key_provider_ w)) →
  (AesEncryptDecrypt kDecrypt (algorithm_ (cryptor w))
     (encryption_key (dc_key_set c)) (dc_iv c) (dc_frame_header c)
     (dc_encrypted_payload c)).1 ≠ Success →
  (∀ j, (1 ≤ j ≤ Z.to_nat (ratchet_window_size (options (key_provider_ w))))%nat →
        attempt_fails (algorithm_ (cryptor w))
          (ratchet_salt (options (key_provider_ w))) (dc_iv c)
          (dc_frame_header c) (dc_encrypted_payload c)
          (ratchet_n (ratchet_salt (options (key_provider_ w))) j
             (material (dc_key_set c)))) →
  DeriveKeys (material (dc_key_set c))
    (ratchet_salt (options (key_provider_ w))) 128 = Some ks0 →
  ∃ w' tr h',
    decryptFrame frame w = Ret (tt, w', tr) ∧
    delivered tr = [] ∧
    handlers (key_provider_ w') !! dc_key_handler c = Some h' ∧
    GetKeySet h' (dc_key_index c) = Some ks0 ∧
    material ks0 = material (dc_key_set c).
Proof.
  intros Hsetup Hwin Hno Hfail Hks0.
  destruct (decrypt_setup_inv _ _ _ _ _ Hsetup)
    as (Hp & [m Hc] & Hd1 & Hn1 & Hkh & Hidx & h & Hh & Hks).
  assert (Halg : algorithm_ (cryptor w1) = algorithm_ (cryptor w))
    by (by rewrite Hc).
  rewrite <- Hp in Hh, Hwin, Hfail, Hks0. rewrite <- Halg in Hno, Hfail.
  destruct (decrypt_or_ratchet_exhausted (dc_key_handler c) (dc_key_set c)
              (dc_key_index c) _ _ _ w1 h Hh Hno Hwin Hfail)
    as (tr2 & Htr2 & Hd2 & Hn2).
  destruct (decrypt_finish_failure (dc_sink c) frame (dc_key_handler c)
              (dc_frame_header c) []
              (with_handler w1 (dc_key_handler c)
                 (SetKeyFromMaterial (ratchet_salt (options (key_provider_ w1)))
                    (material (dc_key_set c)) (dc_key_index c) h))
              _ (with_handler_lookup _ _ _))
    as (w' & tr3 & Htr3 & Hp3 & Hd3).
  eexists w', (tr1 ++ tr2 ++ tr3), _.
  split.
  { unfold decryptFrame. rewrite (bind_Ret _ _ _ _ _ _ Hsetup).
    rewrite (bind_Ret _ _ _ _ _ _ Htr2). by rewrite Htr3. }
  split; [autorewrite with trace; by rewrite Hd1, Hd2, Hd3|].
  split; [rewrite Hp3; apply with_handler_lookup|].
  split; [|by eapply DeriveKeys_material].
  rewrite GetKeySet_DecryptionFailure, GetKeySet_SetKeyFromMaterial; [done|].
  by rewrite Hks.
Qed.

(** C2, refuted by the code: when the attempt that succeeds is the last
    one of the window, [decryptFrame] delivers the decrypted frame and has
    set the validity flag, but the key set installed at the key index when
    it returns is the one of the initial material again: the restoring
    call of line 625 runs because [ratchet_count >= ratchet_window_size]. *)
Theorem ratchet_success_at_window_rolls_back (frame : Frame) (w w1 : World)
    (c : DecryptContext) (tr1 : list Event) (ksk ks0 : KeySet) (pt : bytes) :
  decrypt_setup frame w = Ret (Some c, w1, tr1) →
  0 < ratchet_window_size (options (key_provider_ w)) →
  (AesEncryptDecrypt kDecrypt (algorithm_ (cryptor w))
     (encryption_key (dc_key_set c)) (dc_iv c) (dc_frame_header c)
     (dc_encrypted_payload c)).1 ≠ Success →
  (∀ j, (1 ≤ j < Z.to_nat (ratchet_window_size (options (key_provider_ w))))%nat →
        attempt_fails (algorithm_ (cryptor w))
          (ratchet_salt (options (key_provider_ w))) (dc_iv c)
          (dc_frame_header c) (dc_encrypted_payload c)
          (ratchet_n (ratchet_salt (options (key_provider_ w))) j
             (material (dc_key_set c)))) →
  DeriveKeys
    (ratchet_n (ratchet_salt (options (key_provider_ w)))
       (Z.to_nat (ratchet_window_size (options (key_provider_ w))))
       (material (dc_key_set c)))
    (ratchet_salt (options (key_provider_ w))) 128 = Some ksk →
  AesEncryptDecrypt kDecrypt (algorithm_ (cryptor w)) (encryption_key ksk)
    (dc_iv c) (dc_frame_header c) (dc_encrypted_payload c) = (Success, pt) →
  DeriveKeys (material (dc_key_set c))
    (ratchet_salt (options (key_provider_ w))) 128 = Some ks0 →
  ∃ w' tr h',
    decryptFrame frame w = Ret (tt, w', tr) ∧
    delivered tr = [(dc_sink c, SetData frame (dc_frame_header c ++ pt))] ∧
    handlers (key_provider_ w') !! dc_key_handler c = Some h' ∧
    has_valid_key h' = true ∧
    GetKeySet h' (dc_key_index c) = Some ks0 ∧
    material ks0 = material (dc_key_set c).
Proof.
  intros Hsetup Hwin Hno Hfail Hksk Hok Hks0.
  destruct (decrypt_setup_inv _ _ _ _ _ Hsetup)
    as (Hp & [m Hc] & Hd1 & Hn1 & Hkh & Hidx & h & Hh & Hks).
  assert (Halg : algorithm_ (cryptor w1) = algorithm_ (cryptor w))
    by (by rewrite Hc).
  rewrite <- Hp in Hh, Hwin, Hfail, Hks0, Hksk.
  rewrite <- Halg in Hno, Hfail, Hok.
  destruct (decrypt_or_ratchet_success (dc_key_handler c) (dc_key_set c)
              (dc_key_index c) _ _ _ w1 h
              (Z.to_nat (ratchet_window_size (options (key_provider_ w1))))
              ksk pt Hh Hno ltac:(lia) Hfail Hksk Hok)
    as (tr2 & Htr2 & Hd2 & Hn2).
  cbv zeta in Htr2. rewrite Z2Nat.id, Z.leb_refl in Htr2 by lia.
  eexists _, (tr1 ++ tr2 ++ _), _.
  split.
  { unfold decryptFrame. rewrite (bind_Ret _ _ _ _ _ _ Hsetup).
    rewrite (bind_Ret _ _ _ _ _ _ Htr2). by rewrite decrypt_finish_success. }
  split; [autorewrite with trace; by rewrite Hd1, Hd2|].
  split.
  { rewrite dec_state_world_provider. apply with_handler_lookup. }
  split; [done|].
  split; [|by eapply DeriveKeys_material].
  rewrite GetKeySet_SetKeyFromMaterial; [done|].
  rewrite GetKeySet_SetHasValidKey, GetKeySet_SetKeyFromMaterial; [|by rewrite Hks].
  by rewrite Hksk.
Qed.

(** X23: when the first attempt fails and a ratchet attempt before the
    last one of the window succeeds, the key set of the ratcheted material
    stays installed at the key index, the validity flag is set,
    [kKeyRatcheted] and then [kOk] are notified on the edge, and the
    decrypted frame is delivered. *)
Lemma ratchet_success_before_window_installs (frame : Frame) (w w1 : World)
    (c : DecryptContext) (tr1 : list Event) (k : nat) (ksk : KeySet)
    (pt : bytes) :
  decrypt_setup frame w = Ret (Some c, w1, tr1) →
  (AesEncryptDecrypt kDecrypt (algorithm_ (cryptor w))
     (encryption_key (dc_key_set c)) (dc_iv c) (dc_frame_header c)
     (dc_encrypted_payload c)).1 ≠ Success →
  (1 ≤ k)%nat →
  Z.of_nat k < ratchet_window_size (options (key_provider_ w)) →
  (∀ j, (1 ≤ j < k)%nat →
        attempt_fails (algorithm_ (cryptor w))
          (ratchet_salt (options (key_provider_ w))) (dc_iv c)
          (dc_frame_header c) (dc_encrypted_payload c)
          (ratchet_n (ratchet_salt (options (key_provider_ w))) j
             (material (dc_key_set c)))) →
  DeriveKeys
    (ratchet_n (ratchet_salt (options (key_provider_ w))) k
       (material (dc_key_set c)))
    (ratchet_salt (options (key_provider_ w))) 128 = Some ksk →
  AesEncryptDecrypt kDecrypt (algorithm_ (cryptor w)) (encryption_key ksk)
    (dc_iv c) (dc_frame_header c) (dc_encrypted_payload c) = (Success, pt) →
  ∃ w' tr h',
    decryptFrame frame w = Ret (tt, w', tr) ∧
    delivered tr = [(dc_sink c, SetData frame (dc_frame_header c ++ pt))] ∧
    handlers (key_provider_ w') !! dc_key_handler c = Some h' ∧
    has_valid_key h' = true ∧
    GetKeySet h' (dc_key_index c) = Some ksk ∧
    material ksk =
      ratchet_n (ratchet_salt (options (key_provider_ w))) k (material (dc_key_set c)) ∧
    (observer_ (cryptor w) = true →
     last_dec_error_ (cryptor w) ≠ kKeyRatcheted →
     notified tr = [kKeyRatcheted; kOk]).
Proof.
  intros Hsetup Hno Hk1 Hkw Hfail Hksk Hok.
  destruct (decrypt_setup_inv _ _ _ _ _ Hsetup)
    as (Hp & [m Hc] & Hd1 & Hn1 & Hkh & Hidx & h & Hh & Hks).
  assert (Halg : algorithm_ (cryptor w1) = algorithm_ (cryptor w))
    by (by rewrite Hc).
  rewrite <- Hp in Hh, Hkw, Hfail, Hksk. rewrite <- Hp.
  rewrite <- Halg in Hno, Hfail, Hok.
  destruct (decrypt_or_ratchet_success (dc_key_handler c) (dc_key_set c)
              (dc_key_index c) _ _ _ w1 h k ksk pt Hh Hno ltac:(lia)
              Hfail Hksk Hok)
    as (tr2 & Htr2 & Hd2 & Hn2).
  cbv zeta in Htr2.
  destruct (_ <=? Z.of_nat k) eqn:E in Htr2; [lia|].
  eexists _, (tr1 ++ tr2 ++ _), _.
  split.
  { unfold decryptFrame. rewrite (bind_Ret _ _ _ _ _ _ Hsetup).
    rewrite (bind_Ret _ _ _ _ _ _ Htr2). by rewrite decrypt_finish_success. }
  split; [autorewrite with trace; by rewrite Hd1, Hd2|].
  split.
  { rewrite !dec_state_world_provider. apply with_handler_lookup. }
  split; [done|].
  split.
  { rewrite GetKeySet_SetHasValidKey, GetKeySet_SetKeyFromMaterial; [done|].
    by rewrite Hks. }
  split; [by eapply DeriveKeys_material|].
  intros Hobs Hlast. autorewrite with trace. rewrite Hn1, Hn2. cbn [app].
  assert (Hobs1 : observer_ (cryptor w1) = true) by (by rewrite Hc).
  assert (Hlast1 : last_dec_error_ (cryptor w1) ≠ kKeyRatcheted) by (by rewrite Hc).
  unfold dec_state_events, dec_state_world, with_handler.
  cbn [cryptor key_provider_].
  rewrite (bool_decide_eq_true_2 _ Hlast1). cbn [cryptor set_last_dec_error
    last_dec_error_ observer_ participant_id_ andb].
  rewrite Hobs1. rewrite bool_decide_eq_true_2 by done. done.
Qed.

(** ** The round trip *)

Lemma at_app_middle (a c : bytes) (x : Z) :
  at_ (a ++ x :: c) (size_of a) = Ret x.
Proof.
  unfold size_of. apply at_lookup.
  by rewrite lookup_app_r, Nat.sub_diag by lia.
Qed.

Lemma copy_loop_app_middle (a b c : bytes) :
  size_of (a ++ b ++ c) < 2 ^ 64 →
  copy_loop (a ++ b ++ c) (size_of a) 0 (length b) = Ret b.
Proof.
  intros Hsz. pose proof (size_of_nonneg a).
  rewrite copy_loop_slice.
  - rewrite Z.add_0_r. unfold size_of. rewrite Nat2Z.id, drop_app_length.
    by rewrite take_app_length.
  - lia.
  - rewrite !size_of_app. unfold size_of. lia.
  - done.
Qed.

Lemma alloc_small (n : Z) : 0 <= n < 2 ^ 63 → alloc (size_t n) = Ret (Z.to_nat n).
Proof.
  intros Hn. rewrite size_t_small by lia. unfold alloc.
  destruct (n <? 2 ^ 63) eqn:E; [done|lia].
Qed.

Lemma read_tag_ok (p : bytes) : 16 <= size_of p → ∃ tag, read_tag p = Ret tag.
Proof.
  intros H. unfold read_tag. destruct (16 <=? size_of p) eqn:E; [eauto|lia].
Qed.

(** Outside H.264 the prefix depends on the media type, the codec and the
    key-frame flag only. *)
Lemma get_unencrypted_bytes_not_h264 (frame frame' : Frame) (type : MediaType) :
  FrameIsH264 frame type = false →
  codec frame' = codec frame →
  IsKeyFrame frame' = IsKeyFrame frame →
  ∃ ub, get_unencrypted_bytes frame type = Ret ub ∧
        get_unencrypted_bytes frame' type = Ret ub ∧
        0 <= ub <= 10.
Proof.
  unfold FrameIsH264, get_unencrypted_bytes. intros Hh Hc Hk.
  destruct type.
  - exists 1. repeat split; lia.
  - rewrite Hc, Hk. rewrite Hh.
    repeat case_bool_decide; try (destruct (IsKeyFrame frame));
      eexists; repeat split; lia.
Qed.

(** X11: a sender frame with an empty payload, or any sender frame while
    the cryptor is disabled, is handed to the sink as it is, not encrypted,
    or dropped when [discard_frame_when_cryptor_not_ready] is set; no key
    is looked up and the state does not change. *)
Lemma encryptFrame_not_ready (rnd : Z) (frame : Frame) (w : World) (sink : Sink) :
  sink_of (cryptor w) frame = Some sink →
  GetData frame = [] ∨ enabled_cryption_ (cryptor w) = false →
  encryptFrame rnd frame w =
  Ret (tt, w,
       if discard_frame_when_cryptor_not_ready (options (key_provider_ w))
       then [] else [OnTransformedFrame sink frame]).
Proof.
  intros Hsink Hnot. unfold encryptFrame. mstep.
  rewrite (bind_pure _ _ _ _ (snapshot_sink_registered _ w sink Hsink)). mstep.
  assert (Hc : (size_of (GetData frame) =? 0)
               || negb (enabled_cryption_ (cryptor w)) = true).
  { destruct Hnot as [-> | ->]; [done|]. apply orb_true_r. }
  rewrite Hc. by destruct (discard_frame_when_cryptor_not_ready _).
Qed.

(** X12: a receiver frame with an empty payload, or any receiver frame
    while the cryptor is disabled, is handed to the sink as it is, or
    dropped when [discard_frame_when_cryptor_not_ready] is set; the magic
    bytes and the trailer are not looked at and the state does not
    change. *)
Lemma decryptFrame_not_ready (frame : Frame) (w : World) (sink : Sink) :
  sink_of (cryptor w) frame = Some sink →
  GetData frame = [] ∨ enabled_cryption_ (cryptor w) = false →
  decryptFrame frame w =
  Ret (tt, w,
       if discard_frame_when_cryptor_not_ready (options (key_provider_ w))
       then [] else [OnTransformedFrame sink frame]).
Proof.
  intros Hsink Hnot. unfold decryptFrame, decrypt_setup. mstep.
  rewrite (bind_pure _ _ _ _ (snapshot_sink_registered _ w sink Hsink)). mstep.
  assert (Hc : (size_of (GetData frame) =? 0)
               || negb (enabled_cryption_ (cryptor w)) = true).
  { destruct Hnot as [-> | ->]; [done|]. apply orb_true_r. }
  rewrite Hc. by destruct (discard_frame_when_cryptor_not_ready _); mstep.
Qed.

Section Roundtrip.
Context {laws : AeadCorrect ext}.

Lemma key_size_algorithm (key : bytes) :
  size_of key = 16 ∨ size_of key = 32 →
  ∃ alg, GetAesGcmAlgorithmFromKeySize (size_of key) = Some alg.
Proof.
  unfold GetAesGcmAlgorithmFromKeySize. intros [-> | ->]; eauto.
Qed.

(** Sealing succeeds and opening the result gives the plaintext back. *)
Lemma AesEncryptDecrypt_roundtrip (key iv ad pt : bytes) :
  size_of key = 16 ∨ size_of key = 32 →
  size_of iv = 12 →
  ∃ ct, AesEncryptDecrypt kEncrypt kAesGcm key iv ad pt = (Success, ct) ∧
        size_of ct = size_of pt + 16 ∧
        AesEncryptDecrypt kDecrypt kAesGcm key iv ad ct = (Success, pt).
Proof.
  intros Hkey Hiv. destruct (key_size_algorithm key Hkey) as [alg Halg].
  destruct (aead_seal alg key iv pt ad Halg Hiv) as (ct & Hseal & Hlen).
  exists ct. unfold AesEncryptDecrypt, AesGcmEncryptDecrypt. rewrite Halg.
  change (128 / 8) with 16.
  rewrite (aead_init alg key Halg). cbn [negb].
  rewrite Hseal, (aead_open_seal _ _ _ _ _ _ Hseal).
  pose proof (size_of_nonneg pt).
  destruct (size_of ct <? 16) eqn:E; [lia|]. done.
Qed.

Lemma call_makeIv_eq (rnd ssrc timestamp : Z) (w : World) :
  getIvSize (cryptor w) = 12 →
  call_makeIv rnd ssrc timestamp w =
  Ret (iv_of ssrc timestamp (counter_used ssrc (cryptor w)),
       {| cryptor :=
            set_send_counts (cryptor w)
              (<[ssrc := uint32 (counter_used ssrc (cryptor w) + 1)]>
                 (send_counts_ (cryptor w)));
          key_provider_ := key_provider_ w |}, []).
Proof. intros H. unfold call_makeIv. by rewrite makeIv_eq. Qed.

Lemma iv_of_size (ssrc timestamp c : Z) : size_of (iv_of ssrc timestamp c) = 12.
Proof. reflexivity. Qed.

(** The sender's side: what [encryptFrame] delivers for a frame that is
    not H.264. *)
Lemma encryptFrame_delivers (rnd : Z) (frame : Frame) (w : World) (sink : Sink)
    (h : ParticipantKeyHandler) (ks : KeySet) (ub : Z) :
  enabled_cryption_ (cryptor w) = true →
  algorithm_ (cryptor w) = kAesGcm →
  sink_of (cryptor w) frame = Some sink →
  handlers (key_provider_ w)
    !! handler_ref (key_provider_ w) (participant_id_ (cryptor w)) = Some h →
  GetKeySet h (key_index_ (cryptor w)) = Some ks →
  size_of (encryption_key ks) = 16 ∨ size_of (encryption_key ks) = 32 →
  FrameIsH264 frame (type_ (cryptor w)) = false →
  get_unencrypted_bytes frame (type_ (cryptor w)) = Ret ub →
  0 <= ub <= size_of (GetData frame) →
  0 < size_of (GetData frame) < 2 ^ 63 →
  let iv := iv_of (GetSsrc frame) (GetTimestamp frame)
              (counter_used (GetSsrc frame) (cryptor w)) in
  let header := take (Z.to_nat ub) (GetData frame) in
  let plaintext := drop (Z.to_nat ub) (GetData frame) in
  ∃ w' tr ct,
    encryptFrame rnd frame w = Ret (tt, w', tr) ∧
    delivered tr =
      [(sink, SetData frame
                (header ++ ct ++ iv ++ [12; uint8 (key_index_ (cryptor w))]))] ∧
    size_of ct = size_of plaintext + 16 ∧
    AesEncryptDecrypt kEncrypt kAesGcm (encryption_key ks) iv header plaintext
      = (Success, ct) ∧
    AesEncryptDecrypt kDecrypt kAesGcm (encryption_key ks) iv header ct
      = (Success, plaintext).
Proof.
  intros Hen Halg Hsink Hh Hks Hkey Hh264 Hub Hubr Hsz iv header plaintext.
  assert (Hiv12 : getIvSize (cryptor w) = 12) by (unfold getIvSize; by rewrite Halg).
  destruct (AesEncryptDecrypt_roundtrip (encryption_key ks) iv header plaintext
              Hkey (iv_of_size _ _ _)) as (ct & Hseal & Hlen & Hopen).
  assert (Hheader : copy_loop (GetData frame) 0 0 (Z.to_nat ub) = Ret header).
  { rewrite copy_loop_slice by lia. done. }
  assert (Hpl : copy_loop (GetData frame) ub 0
                  (Z.to_nat (size_of (GetData frame) - ub)) = Ret plaintext).
  { rewrite copy_loop_slice by lia. rewrite Z.add_0_r. unfold plaintext.
    rewrite take_ge; [done|]. rewrite length_drop. unfold size_of in *. lia. }
  assert (Htag : ∃ tag, read_tag ct = Ret tag).
  { apply read_tag_ok. pose proof (size_of_nonneg plaintext). lia. }
  destruct Htag as [tag Htag].
  eexists _, _, ct.
  split; [|split; [|split; [exact Hlen|split; [exact Hseal|exact Hopen]]]].
  - unfold encryptFrame. mstep.
    rewrite (bind_pure _ _ _ _ (snapshot_sink_registered _ w sink Hsink)). mstep.
    rewrite Hen. destruct (size_of (GetData frame) =? 0) eqn:E0; [lia|].
    cbn [orb negb].
    rewrite (bind_Ret _ _ _ _ _ _ (lookup_key_handler_eq _)). mstep. rewrite Hh.
    rewrite (bind_Ret _ _ _ _ _ _ (call_GetKeySet_eq _ _ _ _ Hh)). mstep.
    rewrite Hks.
    rewrite (bind_Ret _ _ _ _ _ _ (call_GetKeySet_eq _ _ _ _ Hh)). mstep.
    rewrite Hks, Hub. mstep. rewrite Hheader. mstep.
    rewrite (bind_Ret _ _ _ _ _ _ (call_makeIv_eq _ _ _ _ Hiv12)). mstep.
    rewrite alloc_small by lia. mstep. rewrite Hpl. mstep.
    rewrite Halg. fold iv. rewrite Hseal. cbn [fst snd].
    change (Success =? Success) with true. cbv iota. mstep.
    rewrite Htag. mstep. rewrite Hh264.
    rewrite (bind_Ret _ _ _ _ _ _ (enc_state_eq _ _)). mstep.
    reflexivity.
  - autorewrite with trace. rewrite Hiv12. done.
Qed.

(** The receiver's side: a frame that is not H.264 and is laid out as
    prefix, sealed text, IV and trailer reaches the first decryption
    attempt with these parts. *)
Lemma decrypt_setup_sealed (frame : Frame) (w : World) (sink : Sink)
    (h : ParticipantKeyHandler) (ks : KeySet) (header ct iv : bytes) (idx : Z) :
  enabled_cryption_ (cryptor w) = true →
  algorithm_ (cryptor w) = kAesGcm →
  sink_of (cryptor w) frame = Some sink →
  FrameIsH264 frame (type_ (cryptor w)) = false →
  get_unencrypted_bytes frame (type_ (cryptor w)) = Ret (size_of header) →
  GetData frame = header ++ ct ++ iv ++ [12; idx] →
  size_of iv = 12 →
  16 <= size_of ct →
  size_of (GetData frame) < 2 ^ 63 →
  has_magic_bytes (uncrypted_magic_bytes (options (key_provider_ w)))
    (GetData frame) = false →
  0 <= idx < key_ring_size (options (key_provider_ w)) →
  handlers (key_provider_ w)
    !! handler_ref (key_provider_ w) (participant_id_ (cryptor w)) = Some h →
  GetKeySet h idx = Some ks →
  (last_dec_error_ (cryptor w) = kDecryptionFailed → has_valid_key h = true) →
  ∃ tr,
    decrypt_setup frame w =
      Ret (Some {| dc_sink := sink;
                   dc_key_handler :=
                     handler_ref (key_provider_ w) (participant_id_ (cryptor w));
                   dc_key_set := ks; dc_key_index := idx; dc_iv := iv;
                   dc_frame_header := header; dc_encrypted_payload := ct |},
           w, tr) ∧
    delivered tr = [] ∧ notified tr = [].
Proof.
  intros Hen Halg Hsink Hh264 Hub Hdata Hiv Hct Hsz Hmagic Hidx Hh Hks Hgate.
  assert (Hiv12 : getIvSize (cryptor w) = 12) by (unfold getIvSize; by rewrite Halg).
  pose proof (size_of_nonneg header) as Hh0.
  assert (Hsize : size_of (GetData frame) = size_of header + size_of ct + 14).
  { rewrite Hdata, !size_of_app, Hiv. change (size_of [12; idx]) with 2. lia. }
  assert (Hheader : copy_loop (GetData frame) 0 0 (Z.to_nat (size_of header))
                    = Ret header).
  { rewrite Hdata. unfold size_of at 1. rewrite Nat2Z.id.
    apply (copy_loop_app_middle [] header). cbn [app]. rewrite <- Hdata. lia. }
  assert (Hl : at_ (GetData frame) (size_t (size_of (GetData frame) - 2)) = Ret 12).
  { rewrite size_t_small by lia.
    replace (size_of (GetData frame) - 2) with (size_of (header ++ ct ++ iv))
      by (rewrite !size_of_app; lia).
    rewrite Hdata.
    replace (header ++ ct ++ iv ++ [12; idx])
      with ((header ++ ct ++ iv) ++ 12 :: [idx]) by (by rewrite <- !app_assoc).
    apply at_app_middle. }
  assert (Hk : at_ (GetData frame) (size_t (size_of (GetData frame) - 1)) = Ret idx).
  { rewrite size_t_small by lia.
    replace (size_of (GetData frame) - 1) with (size_of (header ++ ct ++ iv ++ [12]))
      by (rewrite !size_of_app; change (size_of [12]) with 1; lia).
    rewrite Hdata.
    replace (header ++ ct ++ iv ++ [12; idx])
      with ((header ++ ct ++ iv ++ [12]) ++ idx :: []) by (by rewrite <- !app_assoc).
    apply at_app_middle. }
  assert (Hivc : copy_loop (GetData frame) (size_of (GetData frame) - 2 - 12) 0
                   (Z.to_nat 12) = Ret iv).
  { replace (size_of (GetData frame) - 2 - 12) with (size_of (header ++ ct))
      by (rewrite size_of_app; lia).
    replace (Z.to_nat 12) with (length iv) by (unfold size_of in Hiv; lia).
    rewrite Hdata.
    replace (header ++ ct ++ iv ++ [12; idx])
      with ((header ++ ct) ++ iv ++ [12; idx]) by (by rewrite <- !app_assoc).
    apply copy_loop_app_middle. rewrite <- !app_assoc, <- Hdata. lia. }
  assert (Hbuf : copy_loop (GetData frame) (size_of header) 0
                   (Z.to_nat (size_of (GetData frame) - size_of header))
                 = Ret (ct ++ iv ++ [12; idx])).
  { replace (Z.to_nat (size_of (GetData frame) - size_of header))
      with (length (ct ++ iv ++ [12; idx])).
    2:{ rewrite Hsize. rewrite !length_app. unfold size_of in *. cbn [length]. lia. }
    rewrite Hdata.
    replace (header ++ ct ++ iv ++ [12; idx])
      with (header ++ (ct ++ iv ++ [12; idx]) ++ []) by (by rewrite app_nil_r).
    apply copy_loop_app_middle. rewrite app_nil_r, <- Hdata. lia. }
  assert (Hsb : size_of (ct ++ iv ++ [12; idx]) = size_of ct + 14).
  { rewrite !size_of_app, Hiv. change (size_of [12; idx]) with 2. lia. }
  assert (Hpl : copy_loop (ct ++ iv ++ [12; idx]) 0 0
                  (Z.to_nat (size_of (ct ++ iv ++ [12; idx]) - 12 - 2)) = Ret ct).
  { replace (Z.to_nat (size_of (ct ++ iv ++ [12; idx]) - 12 - 2)) with (length ct)
      by (rewrite Hsb; unfold size_of; lia).
    apply (copy_loop_app_middle [] ct). cbn [app]. lia. }
  destruct (read_tag_ok ct Hct) as [tag Htag].
  destruct (decide (last_dec_error_ (cryptor w) = kDecryptionFailed)) as [Hl'|Hl'];
    eexists; (split; [|shelve]);
    unfold decrypt_setup; mstep;
    rewrite (bind_pure _ _ _ _ (snapshot_sink_registered _ w sink Hsink)); mstep;
    rewrite Hen; (destruct (size_of (GetData frame) =? 0) eqn:E0; [lia|]);
    cbn [orb negb]; rewrite Hmagic;
    unfold decrypt_parse; mstep; rewrite Hub; mstep; rewrite Hheader; mstep;
    rewrite Hl; mstep; rewrite Hk; mstep; rewrite Hiv12;
    change (12 =? 12) with true; cbn [negb];
    rewrite (bind_Ret _ _ _ _ _ _ (lookup_key_handler_eq _)); mstep;
    (destruct (idx <? 0) eqn:E1; [lia|]);
    (destruct (key_ring_size (options (key_provider_ w)) <=? idx) eqn:E2; [lia|]);
    cbn [orb]; rewrite Hh;
    rewrite (bind_Ret _ _ _ _ _ _ (call_GetKeySet_eq _ _ _ _ Hh)); mstep;
    rewrite Hks.
  - rewrite bool_decide_eq_true_2 by done.
    mstep. rewrite (bind_pure _ _ _ _ (get_handler_eq _ _ _ Hh)). mstep.
    rewrite (Hgate Hl'). cbn [negb].
    rewrite (bind_Ret _ _ _ _ _ _ (call_GetKeySet_eq _ _ _ _ Hh)). mstep.
    rewrite Hks. unfold decrypt_cut. mstep. rewrite Hivc. mstep.
    rewrite alloc_small by lia. mstep. rewrite Hbuf. mstep.
    rewrite Hh264. mstep. rewrite alloc_small by lia. mstep.
    rewrite Hpl. mstep. rewrite Htag. mstep. reflexivity.
  - rewrite bool_decide_eq_false_2 by done.
    mstep.
    rewrite (bind_Ret _ _ _ _ _ _ (call_GetKeySet_eq _ _ _ _ Hh)). mstep.
    rewrite Hks. unfold decrypt_cut. mstep. rewrite Hivc. mstep.
    rewrite alloc_small by lia. mstep. rewrite Hbuf. mstep.
    rewrite Hh264. mstep. rewrite alloc_small by lia. mstep.
    rewrite Hpl. mstep. rewrite Htag. mstep. reflexivity.
  Unshelve.
  all: by autorewrite with trace.
Qed.

Lemma GetKeySet_index_nonneg (h : ParticipantKeyHandler) (idx : Z) (ks : KeySet) :
  GetKeySet h idx = Some ks → 0 <= idx.
Proof.
  unfold GetKeySet. destruct (0 <=? idx) eqn:E; [lia|done].
Qed.


End Roundtrip.

(** ** The helper functions *)

Lemma NeedsRbspUnescaping_loop_scan (fuel : nat) (frameData : bytes) (i : nat) :
  3 <= size_of frameData →
  (length frameData - i < fuel)%nat →
  ∃ b, NeedsRbspUnescaping_loop fuel frameData (size_of frameData - 3) (Z.of_nat i)
         = Ret b ∧
       (b = true ↔
        ∃ j : nat, (i ≤ j)%nat ∧ (j + 3 < length frameData)%nat ∧
                   frameData !! j = Some 0 ∧ frameData !! S j = Some 0 ∧
                   frameData !! S (S j) = Some 3).
Proof.
  intros Hsz. revert i. induction fuel as [|fuel IH]; intros i Hfuel; [lia|].
  rewrite NeedsRbspUnescaping_loop_S.
  destruct (Z.of_nat i <? size_of frameData - 3) eqn:Ebound.
  - assert (Hi : (i + 3 < length frameData)%nat) by (unfold size_of in *; lia).
    destruct (lookup_lt_is_Some_2 frameData i ltac:(lia)) as [b0 Hb0].
    destruct (lookup_lt_is_Some_2 frameData (S i) ltac:(lia)) as [b1 Hb1].
    destruct (lookup_lt_is_Some_2 frameData (S (S i)) ltac:(lia)) as [b2 Hb2].
    rewrite (at_lookup _ _ _ Hb0).
    replace (Z.of_nat i + 2) with (Z.of_nat (S (S i))) by lia.
    replace (Z.of_nat i + 1) with (Z.of_nat (S i)) by lia.
    rewrite (at_lookup _ _ _ Hb1), (at_lookup _ _ _ Hb2). cbn [rbind].
    destruct (IH (S i) ltac:(lia)) as (b & Hb & Hiff).
    assert (Hnext : ¬ (b0 = 0 ∧ b1 = 0 ∧ b2 = 3) →
              ∃ b, NeedsRbspUnescaping_loop fuel frameData (size_of frameData - 3)
                     (Z.of_nat (S i)) = Ret b ∧
                   (b = true ↔
                    ∃ j : nat, (i ≤ j)%nat ∧ (j + 3 < length frameData)%nat ∧
                               frameData !! j = Some 0 ∧ frameData !! S j = Some 0 ∧
                               frameData !! S (S j) = Some 3)).
    { intros Hno. exists b. split; [done|]. etrans; [exact Hiff|]. split.
      - intros (j & Hj & Hrest). exists j. split; [lia|done].
      - intros (j & Hj & Hlt & H0 & H1 & H2).
        destruct (decide (j = i)) as [->|Hne].
        + exfalso. apply Hno. rewrite Hb0 in H0. rewrite Hb1 in H1.
          rewrite Hb2 in H2. by simplify_eq.
        + exists j. split; [lia|done]. }
    destruct (b0 =? 0) eqn:E0; [|apply Hnext; lia].
    destruct (b1 =? 0) eqn:E1; [|apply Hnext; lia].
    destruct (b2 =? 3) eqn:E2; [|apply Hnext; lia].
    exists true. split; [done|]. split; [|done]. intros _.
    exists i. repeat split; try lia.
    + rewrite Hb0. f_equal. lia.
    + rewrite Hb1. f_equal. lia.
    + rewrite Hb2. f_equal. lia.
  - exists false. split; [done|]. split; [done|].
    intros (j & Hj & Hlt & _). unfold size_of in *. lia.
Qed.

(** X2: on a buffer of at least three bytes [NeedsRbspUnescaping] stays
    inside the buffer, and answers whether the bytes [00 00 03] start at an
    index below [frameSize - 3]; the three bytes that end the buffer are not
    looked at as a triple. *)
Theorem NeedsRbspUnescaping_scan (frameData : bytes) :
  3 <= size_of frameData < 2 ^ 64 →
  ∃ b, NeedsRbspUnescaping frameData = Ret b ∧
       (b = true ↔
        ∃ i : nat, (i + 3 < length frameData)%nat ∧
                   frameData !! i = Some 0 ∧ frameData !! S i = Some 0 ∧
                   frameData !! S (S i) = Some 3).
Proof.
  intros Hsz. unfold NeedsRbspUnescaping. rewrite size_t_small by lia.
  destruct (NeedsRbspUnescaping_loop_scan (S (length frameData)) frameData 0)
    as (b & Hb & Hiff); [lia | lia |].
  exists b. split; [done|]. etrans; [exact Hiff|]. split.
  - intros (j & _ & Hrest). by exists j.
  - intros (j & Hrest). exists j. split; [lia|done].
Qed.

(** X3: [AesEncryptDecrypt] answers [ErrorUnexpected], in either mode, for
    an algorithm that is not AES-GCM and for a key that is neither 16 nor 32
    bytes long. *)
Theorem AesEncryptDecrypt_unsupported (mode : EncryptOrDecrypt)
    (algorithm : Algorithm) (raw_key iv additional_data data : bytes) :
  algorithm ≠ kAesGcm ∨ (size_of raw_key ≠ 16 ∧ size_of raw_key ≠ 32) →
  (AesEncryptDecrypt mode algorithm raw_key iv additional_data data).1
    = ErrorUnexpected.
Proof.
  intros H. unfold AesEncryptDecrypt, GetAesGcmAlgorithmFromKeySize.
  destruct algorithm; [|done].
  destruct H as [H|[H16 H32]]; [done|].
  apply Z.eqb_neq in H16, H32. by rewrite H16, H32.
Qed.

(** X4: decryption of fewer than sixteen bytes, the length of the tag,
    never succeeds; with a key of 16 or 32 bytes that BoringSSL accepts the
    answer is [ErrorDataTooSmall], and the cipher is not run. *)
Theorem AesEncryptDecrypt_decrypt_too_small (algorithm : Algorithm)
    (raw_key iv additional_data data : bytes) :
  size_of data < 16 →
  (AesEncryptDecrypt kDecrypt algorithm raw_key iv additional_data data).1
    ≠ Success ∧
  ∀ alg, algorithm = kAesGcm →
         GetAesGcmAlgorithmFromKeySize (size_of raw_key) = Some alg →
         EVP_AEAD_CTX_init alg raw_key 16 = true →
         (AesEncryptDecrypt kDecrypt algorithm raw_key iv additional_data data).1
           = ErrorDataTooSmall.
Proof.
  intros Hsz. unfold AesEncryptDecrypt, AesGcmEncryptDecrypt.
  change (128 / 8) with 16.
  assert (Hlt : (size_of data <? 16) = true) by lia.
  split.
  - destruct algorithm; [|done].
    destruct (GetAesGcmAlgorithmFromKeySize _) as [alg|]; [|done].
    destruct (negb _); [done|]. by rewrite Hlt.
  - intros alg -> -> Hinit. by rewrite Hinit, Hlt.
Qed.

(** X6: for an H.264 frame the unencrypted prefix ends two bytes after the
    start of the payload of the first NALU that is an IDR or a non-IDR
    slice, the length being cut to eight bits; the NALUs before it must
    have their header byte inside the frame. *)
Theorem get_unencrypted_bytes_h264_first_slice (frame : Frame)
    (before after : list NaluIndex) (index : NaluIndex) (header : Z) :
  codec frame = kVideoCodecH264 →
  FindNaluIndices (GetData frame) = before ++ index :: after →
  Forall (fun x => ∃ b, at_ (GetData frame) (payload_start_offset x) = Ret b ∧
                        ParseNaluType b ≠ kIdr ∧ ParseNaluType b ≠ kSlice) before →
  at_ (GetData frame) (payload_start_offset index) = Ret header →
  ParseNaluType header = kIdr ∨ ParseNaluType header = kSlice →
  get_unencrypted_bytes frame kVideoFrame
    = Ret ((payload_start_offset index + 2) mod 256).
Proof.
  intros Hcodec Hfind Hbefore Hheader Htype.
  unfold get_unencrypted_bytes. rewrite Hcodec, Hfind.
  cbn [bool_decide decide_rel]. clear Hfind Hcodec.
  rewrite !bool_decide_eq_false_2 by discriminate.
  rewrite bool_decide_eq_true_2 by done.
  induction Hbefore as [|x before (b & Hb & Hidr & Hslice) _ IH]; cbn [app nalu_loop].
  - rewrite Hheader. cbn [rbind].
    destruct Htype as [-> | ->]; done.
  - rewrite Hb. cbn [rbind].
    apply Z.eqb_neq in Hidr, Hslice. by rewrite Hidr, Hslice.
Qed.

(** ** [to_hex] *)

Lemma hex_digit_inj (a b : Z) :
  0 <= a < 16 → 0 <= b < 16 → hex_digit a = hex_digit b → a = b.
Proof.
  intros Ha Hb.
  assert (Hcases : ∀ x, 0 <= x < 16 →
            x = 0 ∨ x = 1 ∨ x = 2 ∨ x = 3 ∨ x = 4 ∨ x = 5 ∨ x = 6 ∨ x = 7 ∨
            x = 8 ∨ x = 9 ∨ x = 10 ∨ x = 11 ∨ x = 12 ∨ x = 13 ∨ x = 14 ∨ x = 15)
    by (intros; lia).
  destruct (Hcases a Ha) as [->|[->|[->|[->|[->|[->|[->|[->|[->|[->|[->|[->|[->|[->|[->| ->]]]]]]]]]]]]]]];
  destruct (Hcases b Hb) as [->|[->|[->|[->|[->|[->|[->|[->|[->|[->|[->|[->|[->|[->|[->| ->]]]]]]]]]]]]]]];
    (reflexivity || (intros H; vm_compute in H; discriminate H)).
Qed.

Lemma to_hex_loop_whole (prefix data : bytes) :
  ∃ s, to_hex_loop (prefix ++ data) (size_of prefix) (length data) = Ret s ∧
       String.length s = (2 * length data)%nat.
Proof.
  revert prefix. induction data as [|b data IH]; intros prefix.
  - exists EmptyString. done.
  - cbn [length to_hex_loop]. rewrite at_app_middle. cbn [rbind].
    destruct (IH (prefix ++ [b])) as (s & Hs & Hlen).
    rewrite size_of_app in Hs. change (size_of [b]) with 1 in Hs.
    rewrite <- app_assoc in Hs. cbn [app] in Hs. rewrite Hs. cbn [rbind].
    eexists. split; [reflexivity|]. cbn [String.length]. rewrite Hlen.
    cbn [length]. lia.
Qed.

Lemma to_hex_loop_inj (p1 p2 d1 d2 : bytes) (s : string) :
  Forall (fun b => 0 <= b < 256) d1 → Forall (fun b => 0 <= b < 256) d2 →
  to_hex_loop (p1 ++ d1) (size_of p1) (length d1) = Ret s →
  to_hex_loop (p2 ++ d2) (size_of p2) (length d2) = Ret s →
  d1 = d2.
Proof.
  intros H1. revert p1 p2 d2 s.
  induction H1 as [|b1 d1 Hb1 _ IH]; intros p1 p2 d2 s H2 Hs1 Hs2.
  - cbn in Hs1. injection Hs1 as <-.
    destruct d2 as [|b2 d2]; [done|].
    cbn [length to_hex_loop] in Hs2. rewrite at_app_middle in Hs2. cbn [rbind] in Hs2.
    destruct (to_hex_loop _ _ _); cbn [rbind] in Hs2; discriminate.
  - destruct d2 as [|b2 d2].
    { cbn in Hs2. injection Hs2 as <-.
      cbn [length to_hex_loop] in Hs1. rewrite at_app_middle in Hs1.
      cbn [rbind] in Hs1.
      destruct (to_hex_loop _ _ _); cbn [rbind] in Hs1; discriminate. }
    apply Forall_cons in H2 as [Hb2 H2].
    cbn [length to_hex_loop] in Hs1, Hs2.
    rewrite at_app_middle in Hs1, Hs2. cbn [rbind] in Hs1, Hs2.
    destruct (to_hex_loop (p1 ++ b1 :: d1) _ _) as [r1|] eqn:E1;
      cbn [rbind] in Hs1; [|discriminate].
    destruct (to_hex_loop (p2 ++ b2 :: d2) _ _) as [r2|] eqn:E2;
      cbn [rbind] in Hs2; [|discriminate].
    injection Hs1 as <-. injection Hs2 as Hhi Hlo ->.
    unfold uint8 in Hhi, Hlo. change (2 ^ 8) with 256 in Hhi, Hlo.
    rewrite (Z.mod_small b1 256), (Z.mod_small b2 256) in Hhi, Hlo by lia.
    apply hex_digit_inj in Hhi; [|Z.to_euclidean_division_equations; lia ..].
    apply hex_digit_inj in Hlo; [|Z.to_euclidean_division_equations; lia ..].
    assert (b1 = b2) as -> by (Z.to_euclidean_division_equations; lia).
    f_equal.
    apply (IH (p1 ++ [b2]) (p2 ++ [b2]) d2 r1 H2).
    + rewrite size_of_app. change (size_of [b2]) with 1.
      by rewrite <- app_assoc.
    + rewrite size_of_app. change (size_of [b2]) with 1.
      by rewrite <- app_assoc.
Qed.

(** X7: [to_hex] of a whole buffer writes two characters for every byte,
    and buffers that differ are written differently. *)
Theorem to_hex_injective (a b : bytes) :
  Forall (fun x => 0 <= x < 256) a → Forall (fun x => 0 <= x < 256) b →
  ∃ sa sb, to_hex a (size_of a) = Ret sa ∧ to_hex b (size_of b) = Ret sb ∧
           String.length sa = (2 * length a)%nat ∧
           (sa = sb → a = b).
Proof.
  intros Ha Hb. unfold to_hex, size_of. rewrite !Nat2Z.id.
  destruct (to_hex_loop_whole [] a) as (sa & Hsa & Hla).
  destruct (to_hex_loop_whole [] b) as (sb & Hsb & Hlb).
  cbn [app] in Hsa, Hsb. change (size_of []) with 0 in Hsa, Hsb.
  exists sa, sb. repeat split; try done.
  intros <-. by apply (to_hex_loop_inj [] [] a b sa).
Qed.

(** ** [makeIv] and [getIvSize] *)

(** X8: [makeIv] passes its [RTC_CHECK_EQ] exactly when the algorithm is
    AES-GCM, and then returns twelve bytes; for every other algorithm
    [getIvSize] is zero and the check fails. *)
Theorem makeIv_check (rnd ssrc timestamp : Z) (t : FrameCryptorTransformer) :
  match makeIv rnd ssrc timestamp t with
  | Ret (iv, _) => algorithm_ t = kAesGcm ∧ size_of iv = 12
  | Fault f => algorithm_ t ≠ kAesGcm ∧ f = CheckFailed
  end.
Proof.
  unfold makeIv, getIvSize.
  destruct (send_counts_ t !! ssrc); cbv zeta beta iota;
    destruct (algorithm_ t); done.
Qed.

Lemma makeIv_returns (rnd ssrc timestamp : Z) (t t' : FrameCryptorTransformer)
    (iv : bytes) :
  makeIv rnd ssrc timestamp t = Ret (iv, t') → getIvSize t = 12.
Proof.
  unfold makeIv.
  destruct (send_counts_ t !! ssrc); cbv zeta beta iota;
    (destruct (_ =? getIvSize t) eqn:E; [|done]); intros _;
    apply Z.eqb_eq in E; by rewrite <- E.
Qed.

Lemma makeIv_aborts (rnd ssrc timestamp : Z) (t : FrameCryptorTransformer) :
  algorithm_ t ≠ kAesGcm → makeIv rnd ssrc timestamp t = Fault CheckFailed.
Proof.
  intros Halg. unfold makeIv, getIvSize.
  destruct (send_counts_ t !! ssrc); cbv zeta beta iota;
    destruct (algorithm_ t); done.
Qed.

(** X9: the IVs of two calls are equal only if the calls are for the same
    SSRC and the same timestamp, whatever the counters are. *)
Theorem makeIv_distinct_streams (rnd1 rnd2 ssrc1 ssrc2 timestamp1 timestamp2 : Z)
    (t1 t2 t1' t2' : FrameCryptorTransformer) (iv : bytes) :
  0 <= ssrc1 < 2 ^ 32 → 0 <= ssrc2 < 2 ^ 32 →
  0 <= timestamp1 < 2 ^ 32 → 0 <= timestamp2 < 2 ^ 32 →
  makeIv rnd1 ssrc1 timestamp1 t1 = Ret (iv, t1') →
  makeIv rnd2 ssrc2 timestamp2 t2 = Ret (iv, t2') →
  ssrc1 = ssrc2 ∧ timestamp1 = timestamp2.
Proof.
  intros Hs1 Hs2 Ht1 Ht2 H1 H2.
  assert (Hshape : ∀ rnd ssrc ts t iv' t',
            makeIv rnd ssrc ts t = Ret (iv', t') →
            ∃ third, iv' = WriteUInt32 ssrc ++ WriteUInt32 ts ++ third).
  { intros rnd ssrc ts t iv' t'. unfold makeIv.
    destruct (send_counts_ t !! ssrc); cbv zeta beta iota;
      (destruct (_ =? _); [|done]); intros [= <- _]; eauto. }
  destruct (Hshape _ _ _ _ _ _ H1) as [x1 ->].
  destruct (Hshape _ _ _ _ _ _ H2) as [x2 Heq].
  assert (Hw : ∀ x y r s, WriteUInt32 x ++ r = WriteUInt32 y ++ s →
                 WriteUInt32 x = WriteUInt32 y ∧ r = s).
  { intros x y r s H. apply app_inj_1 in H; done. }
  apply Hw in Heq as [Hssrc Heq]. apply Hw in Heq as [Hts _].
  split; by apply WriteUInt32_inj.
Qed.

(** X10: calls for different SSRCs do not see each other: made in either
    order they write the same two IVs and leave the same counters. *)
Theorem makeIv_streams_commute (rnd1 rnd2 ssrc1 ssrc2 timestamp1 timestamp2 : Z)
    (t t1 t12 : FrameCryptorTransformer) (iv1 iv2 : bytes) :
  ssrc1 ≠ ssrc2 →
  makeIv rnd1 ssrc1 timestamp1 t = Ret (iv1, t1) →
  makeIv rnd2 ssrc2 timestamp2 t1 = Ret (iv2, t12) →
  ∃ t2, makeIv rnd2 ssrc2 timestamp2 t = Ret (iv2, t2) ∧
        makeIv rnd1 ssrc1 timestamp1 t2 = Ret (iv1, t12).
Proof.
  intros Hne H1 H2.
  pose proof (makeIv_returns _ _ _ _ _ _ H1) as Hiv.
  rewrite makeIv_eq in H1 by done. injection H1 as <- <-.
  set (t1 := set_send_counts t _) in *.
  assert (Hiv1 : getIvSize t1 = 12) by done.
  rewrite makeIv_eq in H2 by done. injection H2 as <- <-.
  assert (Hc2 : counter_used ssrc2 t1 = counter_used ssrc2 t).
  { unfold counter_used, t1. cbn [send_counts_ set_send_counts].
    by rewrite lookup_insert_ne. }
  rewrite Hc2.
  set (t2 := set_send_counts t
               (<[ssrc2 := uint32 (counter_used ssrc2 t + 1)]> (send_counts_ t))).
  exists t2. split; [by apply makeIv_eq|].
  assert (Hiv2 : getIvSize t2 = 12) by done.
  assert (Hc1 : counter_used ssrc1 t2 = counter_used ssrc1 t).
  { unfold counter_used, t2. cbn [send_counts_ set_send_counts].
    by rewrite lookup_insert_ne. }
  rewrite makeIv_eq, Hc1 by done.
  do 2 f_equal. unfold t1, t2, set_send_counts. cbn. f_equal.
  by apply insert_insert_ne.
Qed.

(** ** Invariants of the two paths *)

Lemma bind_Ret_nil {A B} (m : M A) (k : A → M B) (w w1 : World) (a : A) :
  m w = Ret (a, w1, []) → bind m k w = k a w1.
Proof.
  intros H. rewrite (bind_Ret _ _ _ _ _ _ H).
  by destruct (k a w1) as [[[b w2] tr2]|].
Qed.

(** The sink snapshot: the sink of the frame; for a video frame of an SSRC
    that has no entry a null entry is made, which gives no frame a sink. *)
Lemma snapshot_sink_eq (frame : Frame) (w : World) :
  ∃ w1, snapshot_sink frame w = Ret (sink_of (cryptor w) frame, w1, []) ∧
        key_provider_ w1 = key_provider_ w ∧
        (∃ m, cryptor w1 = set_sink_callbacks (cryptor w) m ∧
              ∀ ssrc, mjoin (m !! ssrc)
                      = mjoin (sink_callbacks_ (cryptor w) !! ssrc)) ∧
        (is_Some (sink_of (cryptor w) frame) → w1 = w).
Proof.
  unfold snapshot_sink, sink_of. mstep.
  assert (Heta : cryptor w =
                 set_sink_callbacks (cryptor w) (sink_callbacks_ (cryptor w)))
    by (by destruct (cryptor w)).
  destruct (type_ (cryptor w)).
  - exists w. repeat split; eauto.
  - destruct (sink_callbacks_ (cryptor w) !! GetSsrc frame) as [s|] eqn:Hs.
    + exists w. repeat split; eauto.
    + mstep. eexists. split; [reflexivity|]. split; [done|]. split.
      * eexists. split; [reflexivity|]. intros ssrc.
        destruct (decide (ssrc = GetSsrc frame)) as [->|Hne].
        -- by rewrite lookup_insert_eq, Hs.
        -- by rewrite lookup_insert_ne.
      * by intros [s ?].
Qed.

Lemma update_handler_inv (kh : string)
    (f : ParticipantKeyHandler → ParticipantKeyHandler) (w w' : World)
    (tr : list Event) :
  update_handler kh f w = Ret (tt, w', tr) →
  ∃ h, handlers (key_provider_ w) !! kh = Some h ∧
       w' = with_handler w kh (f h) ∧ tr = [].
Proof.
  unfold update_handler, get_handler. mstep.
  destruct (handlers (key_provider_ w) !! kh) as [h|]; [|done].
  mstep. intros [= <- <-]. eauto.
Qed.

Lemma call_makeIv_inv (rnd ssrc timestamp : Z) (w w' : World) (iv : bytes)
    (tr : list Event) :
  call_makeIv rnd ssrc timestamp w = Ret (iv, w', tr) →
  ∃ m, w' = {| cryptor := set_send_counts (cryptor w) m;
               key_provider_ := key_provider_ w |} ∧ tr = [].
Proof.
  unfold call_makeIv.
  destruct (makeIv rnd ssrc timestamp (cryptor w)) as [[iv' t']|] eqn:E; [|done].
  apply makeIv_inv in E as [m ->]. intros [= <- <- <-]. eauto.
Qed.

(** *** Relations between the world before and the world after *)

Section Preserves.
Context (I : World → World → Prop) `{!Reflexive I, !Transitive I}.

Lemma preserves_bind {A B} (m : M A) (k : A → M B) :
  preserves I m → (∀ a, preserves I (k a)) → preserves I (bind m k).
Proof.
  intros Hm Hk w b w2 tr H.
  apply bind_inv in H as (a & w1 & tr1 & tr2 & H1 & H2 & ->).
  etrans; [by eapply Hm | by eapply Hk].
Qed.

Lemma preserves_ret {A} (a : A) : preserves I (ret a).
Proof. by intros w a' w' tr [= <- <- <-]. Qed.

Lemma preserves_lift {A} (r : result A) : preserves I (lift r).
Proof. intros w a' w' tr. destruct r; [|done]. by intros [= <- <- <-]. Qed.

Lemma preserves_emit (e : Event) : preserves I (emit e).
Proof. by intros w a' w' tr [= <- <-]. Qed.

Lemma preserves_get_cryptor : preserves I get_cryptor.
Proof. by intros w a' w' tr [= <- <- <-]. Qed.

Lemma preserves_get_provider : preserves I get_provider.
Proof. by intros w a' w' tr [= <- <- <-]. Qed.

Lemma preserves_get_handler (kh : string) : preserves I (get_handler kh).
Proof.
  intros w a' w' tr. unfold get_handler. mstep.
  destruct (handlers (key_provider_ w) !! kh); [|done]. by intros [= <- <- <-].
Qed.

End Preserves.

#[local] Instance same_configuration_refl : Reflexive same_configuration.
Proof. by intros w. Qed.

#[local] Instance same_configuration_trans : Transitive same_configuration.
Proof.
  intros a b c (H1 & H2 & H3) (H4 & H5 & H6).
  split; [congruence|]. split; [congruence|].
  intros frame. by rewrite H6, H3.
Qed.

#[local] Instance same_keys_refl : Reflexive same_keys.
Proof. by intros w. Qed.

#[local] Instance same_keys_trans : Transitive same_keys.
Proof. intros a b c [H1 H2] [H3 H4]. split; congruence. Qed.

#[local] Instance same_counters_refl : Reflexive same_counters.
Proof. by intros w. Qed.

#[local] Instance same_counters_trans : Transitive same_counters.
Proof. intros a b c [H1 H2] [H3 H4]. split; congruence. Qed.

Lemma sink_of_set_sink_callbacks (t : FrameCryptorTransformer)
    (m : gmap Z (option Sink)) (frame : Frame) :
  (∀ ssrc, mjoin (m !! ssrc) = mjoin (sink_callbacks_ t !! ssrc)) →
  sink_of (set_sink_callbacks t m) frame = sink_of t frame.
Proof. intros H. unfold sink_of. cbn. by destruct (type_ t). Qed.

Lemma configuration_snapshot_sink (frame : Frame) :
  preserves same_configuration (snapshot_sink frame).
Proof.
  intros w s w' tr H.
  destruct (snapshot_sink_eq frame w) as (w1 & Hs & Hp & (m & Hc & Hm) & _).
  rewrite Hs in H. injection H as _ <- _.
  unfold same_configuration, configuration. rewrite Hp, Hc.
  repeat split. intros f. by apply sink_of_set_sink_callbacks.
Qed.

Lemma configuration_enc_state (s : FrameCryptionState) :
  preserves same_configuration (enc_state s).
Proof.
  intros w a w' tr. rewrite enc_state_eq. intros [= _ <- _].
  unfold enc_state_world. by case_bool_decide.
Qed.

Lemma configuration_dec_state (s : FrameCryptionState) :
  preserves same_configuration (dec_state s).
Proof.
  intros w a w' tr. rewrite dec_state_eq. intros [= _ <- _].
  unfold dec_state_world. by case_bool_decide.
Qed.

Lemma configuration_call_makeIv (rnd ssrc timestamp : Z) :
  preserves same_configuration (call_makeIv rnd ssrc timestamp).
Proof. intros w a w' tr H. by apply call_makeIv_inv in H as (m & -> & _). Qed.

Lemma configuration_update_handler (kh : string)
    (f : ParticipantKeyHandler → ParticipantKeyHandler) :
  preserves same_configuration (update_handler kh f).
Proof.
  intros w [] w' tr H. apply update_handler_inv in H as (h & Hh & -> & _).
  repeat split. cbn. rewrite dom_insert_L.
  apply subseteq_union_1_L, singleton_subseteq_l, elem_of_dom. eauto.
Qed.

Lemma keys_snapshot_sink (frame : Frame) : preserves same_keys (snapshot_sink frame).
Proof.
  intros w s w' tr H.
  destruct (snapshot_sink_eq frame w) as (w1 & Hs & Hp & (m & Hc & _) & _).
  rewrite Hs in H. injection H as _ <- _. split; [done|]. by rewrite Hc.
Qed.

Lemma keys_enc_state (s : FrameCryptionState) : preserves same_keys (enc_state s).
Proof.
  intros w a w' tr. rewrite enc_state_eq. intros [= _ <- _].
  unfold enc_state_world. by case_bool_decide.
Qed.

Lemma keys_call_makeIv (rnd ssrc timestamp : Z) :
  preserves same_keys (call_makeIv rnd ssrc timestamp).
Proof. intros w a w' tr H. by apply call_makeIv_inv in H as (m & -> & _). Qed.

Lemma counters_snapshot_sink (frame : Frame) :
  preserves same_counters (snapshot_sink frame).
Proof.
  intros w s w' tr H.
  destruct (snapshot_sink_eq frame w) as (w1 & Hs & Hp & (m & Hc & _) & _).
  rewrite Hs in H. injection H as _ <- _. unfold same_counters. by rewrite Hc.
Qed.

Lemma counters_dec_state (s : FrameCryptionState) :
  preserves same_counters (dec_state s).
Proof.
  intros w a w' tr. rewrite dec_state_eq. intros [= _ <- _].
  unfold dec_state_world. by case_bool_decide.
Qed.

Lemma counters_update_handler (kh : string)
    (f : ParticipantKeyHandler → ParticipantKeyHandler) :
  preserves same_counters (update_handler kh f).
Proof.
  intros w [] w' tr H. by apply update_handler_inv in H as (h & Hh & -> & _).
Qed.

Create HintDb preserves.
#[local] Hint Resolve preserves_ret preserves_lift preserves_emit
  preserves_get_cryptor preserves_get_provider preserves_get_handler
  same_configuration_refl same_configuration_trans same_keys_refl
  same_keys_trans same_counters_refl same_counters_trans
  configuration_snapshot_sink configuration_enc_state configuration_dec_state
  configuration_call_makeIv configuration_update_handler
  keys_snapshot_sink keys_enc_state keys_call_makeIv
  counters_snapshot_sink counters_dec_state counters_update_handler : preserves.

Ltac preserves_tac :=
  repeat first
    [ progress eauto with preserves
    | apply preserves_bind; [apply _ | | intros ?]
    | match goal with
      | |- preserves _ (if ?b then _ else _) => destruct b
      | |- preserves _ (match ?x with _ => _ end) => destruct x
      end ].

Lemma configuration_ratchet_loop (n : nat) (ratchet_count : Z) (current : bytes)
    (kh : string) (key_index : Z) (iv header payload : bytes) :
  preserves same_configuration
    (ratchet_loop n ratchet_count current kh key_index iv header payload).
Proof.
  revert ratchet_count current.
  induction n as [|n IH]; intros ratchet_count current; cbn [ratchet_loop].
  - preserves_tac.
  - unfold call_SetKeyFromMaterial. preserves_tac.
Qed.

Lemma counters_ratchet_loop (n : nat) (ratchet_count : Z) (current : bytes)
    (kh : string) (key_index : Z) (iv header payload : bytes) :
  preserves same_counters
    (ratchet_loop n ratchet_count current kh key_index iv header payload).
Proof.
  revert ratchet_count current.
  induction n as [|n IH]; intros ratchet_count current; cbn [ratchet_loop].
  - preserves_tac.
  - unfold call_SetKeyFromMaterial. preserves_tac.
Qed.

Lemma configuration_encryptFrame (rnd : Z) (frame : Frame) :
  preserves same_configuration (encryptFrame rnd frame).
Proof.
  unfold encryptFrame, lookup_key_handler, call_GetKeySet. preserves_tac.
Qed.

Lemma configuration_decryptFrame (frame : Frame) :
  preserves same_configuration (decryptFrame frame).
Proof.
  unfold decryptFrame, decrypt_setup, decrypt_parse, decrypt_cut, decrypt_finish,
    decrypt_or_ratchet, lookup_key_handler, call_GetKeySet,
    call_SetKeyFromMaterial.
  preserves_tac; apply configuration_ratchet_loop.
Qed.

Lemma keys_encryptFrame (rnd : Z) (frame : Frame) :
  preserves same_keys (encryptFrame rnd frame).
Proof.
  unfold encryptFrame, lookup_key_handler, call_GetKeySet. preserves_tac.
Qed.

Lemma counters_decryptFrame (frame : Frame) :
  preserves same_counters (decryptFrame frame).
Proof.
  unfold decryptFrame, decrypt_setup, decrypt_parse, decrypt_cut, decrypt_finish,
    decrypt_or_ratchet, lookup_key_handler, call_GetKeySet,
    call_SetKeyFromMaterial.
  preserves_tac; apply counters_ratchet_loop.
Qed.

(** *** What a computation emits *)

Lemma emits_bind (P : Event → Prop) {A B} (m : M A) (k : A → M B) :
  emits_only P m → (∀ a, emits_only P (k a)) → emits_only P (bind m k).
Proof.
  intros Hm Hk w b w2 tr H.
  apply bind_inv in H as (a & w1 & tr1 & tr2 & H1 & H2 & ->).
  apply Forall_app. split; [by eapply Hm | by eapply Hk].
Qed.

Lemma emits_ret (P : Event → Prop) {A} (a : A) : emits_only P (ret a).
Proof. by intros w a' w' tr [= <- <- <-]. Qed.

Lemma emits_lift (P : Event → Prop) {A} (r : result A) : emits_only P (lift r).
Proof. intros w a' w' tr. destruct r; [|done]. by intros [= <- <- <-]. Qed.

Lemma emits_emit (P : Event → Prop) (e : Event) : P e → emits_only P (emit e).
Proof. intros He w [] w' tr [= <- <-]. by constructor. Qed.

Lemma emits_get_cryptor (P : Event → Prop) : emits_only P get_cryptor.
Proof. by intros w a' w' tr [= <- <- <-]. Qed.

Lemma emits_get_provider (P : Event → Prop) : emits_only P get_provider.
Proof. by intros w a' w' tr [= <- <- <-]. Qed.

Lemma emits_put_cryptor (P : Event → Prop) (t : FrameCryptorTransformer) :
  emits_only P (put_cryptor t).
Proof. by intros w [] w' tr [= <- <-]. Qed.

Lemma emits_put_provider (P : Event → Prop) (p : KeyProvider) :
  emits_only P (put_provider p).
Proof. by intros w [] w' tr [= <- <-]. Qed.

Lemma emits_call_makeIv (P : Event → Prop) (rnd ssrc timestamp : Z) :
  emits_only P (call_makeIv rnd ssrc timestamp).
Proof. intros w a w' tr H. by apply call_makeIv_inv in H as (m & _ & ->). Qed.

Create HintDb emits.
#[local] Hint Resolve emits_ret emits_lift emits_get_cryptor emits_get_provider
  emits_put_cryptor emits_put_provider emits_call_makeIv : emits.

Ltac emits_tac :=
  repeat first
    [ progress eauto with emits
    | apply emits_emit; solve [done | by repeat case_match]
    | apply emits_bind; [|intros ?]
    | match goal with
      | |- emits_only _ (if ?b then _ else _) => destruct b
      | |- emits_only _ (match ?x with _ => _ end) => destruct x
      end ].

Ltac unfold_calls :=
  unfold enc_state, dec_state, onFrameCryptionStateChanged, snapshot_sink,
    lookup_key_handler, call_GetKeySet, call_SetKeyFromMaterial, update_handler,
    get_handler.

Lemma Forall_no_delivery (tr : list Event) :
  Forall no_delivery tr → delivered tr = [].
Proof.
  induction 1 as [|e tr He _ IH]; [done|]. by destruct e.
Qed.

Lemma Forall_no_ratchet (tr : list Event) :
  Forall no_ratchet tr → ratchet_attempts tr = [].
Proof.
  induction 1 as [|e tr He _ IH]; [done|]. destruct e as [| |c]; try done.
  by destruct c.
Qed.

Lemma ratchet_attempts_app (a b : list Event) :
  ratchet_attempts (a ++ b) = ratchet_attempts a ++ ratchet_attempts b.
Proof. apply omap_app. Qed.

Lemma emits_ratchet_loop_no_delivery (n : nat) (ratchet_count : Z)
    (current : bytes) (kh : string) (key_index : Z) (iv header payload : bytes) :
  emits_only no_delivery
    (ratchet_loop n ratchet_count current kh key_index iv header payload).
Proof.
  revert ratchet_count current.
  induction n as [|n IH]; intros ratchet_count current; cbn [ratchet_loop].
  - emits_tac.
  - unfold_calls. emits_tac; apply IH.
Qed.

Lemma emits_encryptFrame_lookup_only (rnd : Z) (frame : Frame) :
  emits_only lookup_only (encryptFrame rnd frame).
Proof. unfold encryptFrame. unfold_calls. emits_tac. Qed.

#[local] Hint Resolve emits_ratchet_loop_no_delivery : emits.

(** *** At most one frame for a frame *)

Lemma SetData_GetData (frame : Frame) : SetData frame (GetData frame) = frame.
Proof. by destruct frame. Qed.

Lemma dam_silent (sink : Sink) (frame : Frame) {A} (m : M A) :
  emits_only no_delivery m → delivers_at_most sink frame m.
Proof. intros Hm w a w' tr H. left. by eapply Forall_no_delivery, Hm. Qed.

Lemma dam_bind_l (sink : Sink) (frame : Frame) {A B} (m : M A) (k : A → M B) :
  emits_only no_delivery m → (∀ a, delivers_at_most sink frame (k a)) →
  delivers_at_most sink frame (bind m k).
Proof.
  intros Hm Hk w b w2 tr H.
  apply bind_inv in H as (a & w1 & tr1 & tr2 & H1 & H2 & ->).
  rewrite delivered_app, (Forall_no_delivery _ (Hm _ _ _ _ H1)).
  by eapply Hk.
Qed.

Lemma dam_bind_r (sink : Sink) (frame : Frame) {A B} (m : M A) (k : A → M B) :
  delivers_at_most sink frame m → (∀ a, emits_only no_delivery (k a)) →
  delivers_at_most sink frame (bind m k).
Proof.
  intros Hm Hk w b w2 tr H.
  apply bind_inv in H as (a & w1 & tr1 & tr2 & H1 & H2 & ->).
  rewrite delivered_app, (Forall_no_delivery _ (Hk _ _ _ _ _ H2)), app_nil_r.
  by eapply Hm.
Qed.

Lemma dam_emit (sink : Sink) (frame : Frame) (d : bytes) :
  delivers_at_most sink frame (emit (OnTransformedFrame sink (SetData frame d))).
Proof. intros w [] w' tr [= <- <-]. right. by exists d. Qed.

Lemma dam_emit_same (sink : Sink) (frame : Frame) :
  delivers_at_most sink frame (emit (OnTransformedFrame sink frame)).
Proof.
  intros w [] w' tr [= <- <-]. right. exists (GetData frame).
  by rewrite SetData_GetData.
Qed.

Ltac dam_tac :=
  repeat first
    [ apply dam_emit
    | apply dam_emit_same
    | apply dam_silent; solve [emits_tac]
    | apply dam_bind_l; [solve [emits_tac] | intros ?]
    | apply dam_bind_r; [|intros ?; solve [emits_tac]]
    | match goal with
      | |- delivers_at_most _ _ (if ?b then _ else _) => destruct b
      | |- delivers_at_most _ _ (match ?x with _ => _ end) => destruct x
      end ].

Lemma encryptFrame_delivery (rnd : Z) (frame : Frame) (w w' : World)
    (tr : list Event) :
  encryptFrame rnd frame w = Ret (tt, w', tr) →
  delivered tr = [] ∨
  ∃ sink d, sink_of (cryptor w) frame = Some sink ∧
            delivered tr = [(sink, SetData frame d)].
Proof.
  intros H. unfold encryptFrame in H. mstep_in H.
  destruct (snapshot_sink_eq frame w) as (w1 & Hs & _).
  rewrite (bind_Ret_nil _ _ _ _ _ Hs) in H.
  destruct (sink_of (cryptor w) frame) as [sink|].
  - match type of H with
    | ?m w1 = _ =>
        assert (D : delivers_at_most sink frame m) by (unfold_calls; dam_tac)
    end.
    destruct (D _ _ _ _ H) as [?|[d ?]]; eauto.
  - left. rewrite enc_state_eq in H. injection H as _ <-.
    apply delivered_enc_state_events.
Qed.

Lemma decrypt_setup_sink (frame : Frame) (w w1 : World) (c : DecryptContext)
    (tr : list Event) :
  decrypt_setup frame w = Ret (Some c, w1, tr) →
  sink_of (cryptor w) frame = Some (dc_sink c).
Proof.
  intros H. unfold decrypt_setup in H. mstep_in H.
  destruct (snapshot_sink_eq frame w) as (w0 & Hs & _).
  rewrite (bind_Ret_nil _ _ _ _ _ Hs) in H.
  destruct (sink_of (cryptor w) frame) as [sink|].
  2:{ rewrite (bind_Ret _ _ _ _ _ _ (dec_state_eq _ _)) in H. by mstep_in H. }
  mstep_in H.
  destruct (_ || _).
  { destruct (discard_frame_when_cryptor_not_ready _); by mstep_in H. }
  destruct (has_magic_bytes _ _); [by mstep_in H|].
  apply decrypt_parse_inv in H as (_ & _ & _ & -> & _). done.
Qed.

Lemma decrypt_setup_delivery (frame : Frame) (w w1 : World)
    (c : option DecryptContext) (tr : list Event) :
  decrypt_setup frame w = Ret (c, w1, tr) →
  delivered tr = [] ∨
  ∃ sink d, sink_of (cryptor w) frame = Some sink ∧
            delivered tr = [(sink, SetData frame d)].
Proof.
  intros H. unfold decrypt_setup in H. mstep_in H.
  destruct (snapshot_sink_eq frame w) as (w0 & Hs & _).
  rewrite (bind_Ret_nil _ _ _ _ _ Hs) in H.
  destruct (sink_of (cryptor w) frame) as [sink|].
  - match type of H with
    | ?m w0 = _ =>
        assert (D : delivers_at_most sink frame m)
          by (unfold decrypt_parse, decrypt_cut; unfold_calls; dam_tac)
    end.
    destruct (D _ _ _ _ H) as [?|[d ?]]; eauto.
  - left. rewrite (bind_Ret _ _ _ _ _ _ (dec_state_eq _ _)) in H. mstep_in H.
    injection H as _ _ <-. autorewrite with trace. done.
Qed.

Lemma decryptFrame_delivery (frame : Frame) (w w' : World) (tr : list Event) :
  decryptFrame frame w = Ret (tt, w', tr) →
  delivered tr = [] ∨
  ∃ sink d, sink_of (cryptor w) frame = Some sink ∧
            delivered tr = [(sink, SetData frame d)].
Proof.
  intros H. unfold decryptFrame in H.
  apply bind_inv in H as (c & w1 & tr1 & tr2 & Hsetup & Hrest & ->).
  destruct c as [c|].
  - pose proof (decrypt_setup_sink _ _ _ _ _ Hsetup) as Hsink.
    destruct (decrypt_setup_inv _ _ _ _ _ Hsetup) as (_ & _ & Hd1 & _).
    rewrite delivered_app, Hd1. cbn [app].
    match type of Hrest with
    | ?m w1 = _ =>
        assert (D : delivers_at_most (dc_sink c) frame m)
          by (unfold decrypt_or_ratchet, decrypt_finish; unfold_calls; dam_tac)
    end.
    destruct (D _ _ _ _ Hrest) as [?|[d ?]]; eauto.
  - injection Hrest as <- <-. rewrite app_nil_r.
    by eapply decrypt_setup_delivery.
Qed.

(** X25: a call of [Transform] hands at most one frame to a sink: the
    frame it was given, with a payload of its own, to the sink registered
    for that frame. *)
Theorem Transform_delivers_at_most_one (rnd : Z) (frame : Frame) (w w' : World)
    (tr : list Event) :
  Transform rnd frame w = Ret (tt, w', tr) →
  delivered tr = [] ∨
  ∃ sink d, sink_of (cryptor w) frame = Some sink ∧
            delivered tr = [(sink, SetData frame d)].
Proof.
  unfold Transform. mstep. destruct (_ && _).
  - intros [= <- <-]. by left.
  - destruct (GetDirection frame).
    + intros [= <- <-]. by left.
    + apply decryptFrame_delivery.
    + apply encryptFrame_delivery.
Qed.

(** X26: a sender frame leaves the key provider, its handlers and the
    state of the decrypt path as they are, and all it asks of the keys are
    lookups; a receiver frame leaves the IV counters and the state of the
    encrypt path as they are; a frame of unknown direction changes
    nothing. *)
Theorem Transform_directions_independent (rnd : Z) (frame : Frame)
    (w w' : World) (tr : list Event) :
  Transform rnd frame w = Ret (tt, w', tr) →
  match GetDirection frame with
  | kSender => same_keys w w' ∧ Forall lookup_only tr
  | kReceiver => same_counters w w'
  | kUnknown => w' = w ∧ tr = []
  end.
Proof.
  unfold Transform. mstep. destruct (_ && _).
  - intros [= <- <-]. destruct (GetDirection frame); repeat split; constructor.
  - destruct (GetDirection frame); intros H.
    + by injection H as <- <-.
    + by eapply counters_decryptFrame.
    + split; [by eapply keys_encryptFrame|].
      by eapply emits_encryptFrame_lookup_only.
Qed.

Lemma configuration_Transform (rnd : Z) (frame : Frame) :
  preserves same_configuration (Transform rnd frame).
Proof.
  pose proof configuration_decryptFrame. pose proof configuration_encryptFrame.
  unfold Transform. preserves_tac.
Qed.

(** X27: however many frames are processed, the configuration of the
    transformer and the options of the key provider stay as they were, no
    key handler is created or removed, and every frame keeps the sink it
    had. *)
Theorem run_keeps_configuration (calls : list (Z * Frame)) (w w' : World)
    (trs : list (Direction * list Event)) :
  run calls w = Ret (w', trs) → same_configuration w w'.
Proof.
  revert w w' trs. induction calls as [|[rnd frame] calls IH]; intros w w' trs.
  - intros [= <- <-]. reflexivity.
  - cbn [run].
    destruct (Transform rnd frame w) as [[[[] w1] tr]|] eqn:E1; [|done].
    destruct (run calls w1) as [[w2 trs2]|] eqn:E2; [|done].
    intros [= <- <-]. etrans.
    + by eapply configuration_Transform.
    + by eapply IH.
Qed.

(** X28: a transformer that has no sink at all, neither the audio sink nor
    one for an SSRC, ignores every frame: nothing is delivered or reported,
    and its state does not change. *)
Theorem run_without_sinks (calls : list (Z * Frame)) (w : World) :
  sink_callback_ (cryptor w) = None →
  size (sink_callbacks_ (cryptor w)) = 0%nat →
  run calls w = Ret (w, map (fun c => (GetDirection c.2, [])) calls).
Proof.
  intros Hs Hm. induction calls as [|[rnd frame] calls IH]; [done|].
  cbn [run map snd].
  assert (HT : Transform rnd frame w = Ret (tt, w, [])).
  { unfold Transform. mstep.
    by rewrite !bool_decide_eq_true_2 by done. }
  by rewrite HT, IH.
Qed.

(** *** The ratchet attempts of a call *)

Lemma ratchet_loop_attempts (n : nat) (rc : Z) (cur : bytes) (kh : string)
    (idx : Z) (iv hd pl : bytes) (w w' : World) (r : bool * Z * bytes)
    (tr : list Event) :
  ratchet_loop n rc cur kh idx iv hd pl w = Ret (r, w', tr) →
  (length (ratchet_attempts tr) ≤ n)%nat.
Proof.
  revert rc cur w w' r tr.
  induction n as [|n IH]; intros rc cur w w' r tr H; cbn [ratchet_loop] in H.
  - injection H as _ _ <-. done.
  - apply bind_inv in H as (t & w1 & tr1 & tr2 & [= <- <- <-] & H & ->).
    apply bind_inv in H as (p & w1 & tr1 & tr3 & [= <- <- <-] & H & ->).
    apply bind_inv in H as ([] & w1 & tr1 & tr4 & [= <- <-] & H & ->).
    apply bind_inv in H as ([] & w1 & tr1 & tr5 & [= <- <-] & H & ->).
    cbn [app]. change (ratchet_attempts (?a :: ?b :: tr5))
      with (cur :: ratchet_attempts tr5).
    cbn [length]. apply le_n_S.
    destruct (DeriveKeys _ _ _) as [ks|]; [|done].
    destruct (_ =? Success).
    + match type of H with
      | ?m w = _ =>
          assert (E : emits_only no_ratchet m) by (unfold_calls; emits_tac)
      end.
      rewrite (Forall_no_ratchet _ (E _ _ _ _ H)). cbn [length]. lia.
    + by eapply IH.
Qed.

Lemma emits_decrypt_setup_no_ratchet (frame : Frame) :
  emits_only no_ratchet (decrypt_setup frame).
Proof.
  unfold decrypt_setup, decrypt_parse, decrypt_cut. unfold_calls. emits_tac.
Qed.

Lemma emits_decrypt_finish_no_ratchet (sink : Sink) (frame : Frame)
    (kh : string) (header : bytes) (r : bool * bytes) :
  emits_only no_ratchet (decrypt_finish sink frame kh header r).
Proof. unfold decrypt_finish. unfold_calls. emits_tac. Qed.

Lemma decrypt_or_ratchet_attempts (kh : string) (ks : KeySet) (idx : Z)
    (iv hd pl : bytes) (w w' : World) (r : bool * bytes) (tr : list Event) :
  decrypt_or_ratchet kh ks idx iv hd pl w = Ret (r, w', tr) →
  (length (ratchet_attempts tr)
   ≤ Z.to_nat (ratchet_window_size (options (key_provider_ w))))%nat.
Proof.
  intros H. unfold decrypt_or_ratchet in H. mstep_in H.
  destruct (_ =? Success).
  { injection H as _ _ <-. cbn. lia. }
  destruct (0 <? _).
  2:{ injection H as _ _ <-. cbn. lia. }
  apply bind_inv in H as (l & w1 & tr1 & tr2 & Hloop & H & ->).
  apply ratchet_loop_attempts in Hloop.
  match type of H with
  | ?m w1 = _ =>
      assert (E : emits_only no_ratchet m) by (unfold_calls; emits_tac)
  end.
  rewrite ratchet_attempts_app, (Forall_no_ratchet _ (E _ _ _ _ H)), app_nil_r.
  done.
Qed.

(** X24: a call of [decryptFrame] ratchets at most [ratchet_window_size]
    times, and not at all when the window is not positive. *)
Theorem decryptFrame_ratchets_within_window (frame : Frame) (w w' : World)
    (tr : list Event) :
  decryptFrame frame w = Ret (tt, w', tr) →
  (length (ratchet_attempts tr)
   ≤ Z.to_nat (ratchet_window_size (options (key_provider_ w))))%nat.
Proof.
  intros H. unfold decryptFrame in H.
  apply bind_inv in H as (c & w1 & tr1 & tr2 & Hsetup & Hrest & ->).
  rewrite ratchet_attempts_app,
    (Forall_no_ratchet _ (emits_decrypt_setup_no_ratchet _ _ _ _ _ Hsetup)).
  cbn [app].
  destruct c as [c|].
  - destruct (decrypt_setup_inv _ _ _ _ _ Hsetup) as (Hp & _).
    apply bind_inv in Hrest as (r & w2 & tr3 & tr4 & Hor & Hfin & ->).
    apply decrypt_or_ratchet_attempts in Hor. rewrite Hp in Hor.
    rewrite ratchet_attempts_app,
      (Forall_no_ratchet _ (emits_decrypt_finish_no_ratchet _ _ _ _ _ _ _ _ _ Hfin)),
      app_nil_r.
    done.
  - injection Hrest as _ <-. cbn. lia.
Qed.

(** ** The early exits of the two paths *)

Lemma enc_state_world_last (s : FrameCryptionState) (w : World) :
  last_enc_error_ (cryptor (enc_state_world s w)) = s.
Proof.
  unfold enc_state_world. case_bool_decide as H; [done|].
  by destruct (decide (last_enc_error_ (cryptor w) = s)).
Qed.

Lemma dec_state_world_last (s : FrameCryptionState) (w : World) :
  last_dec_error_ (cryptor (dec_state_world s w)) = s.
Proof.
  unfold dec_state_world. case_bool_decide as H; [done|].
  by destruct (decide (last_dec_error_ (cryptor w) = s)).
Qed.

Lemma notified_enc_state_events (s : FrameCryptionState) (w : World) :
  notified (enc_state_events s w)
  = edge_report (cryptor w) (last_enc_error_ (cryptor w)) s.
Proof.
  unfold enc_state_events, edge_report.
  case_bool_decide; by destruct (observer_ (cryptor w)).
Qed.

Lemma notified_dec_state_events (s : FrameCryptionState) (w : World) :
  notified (dec_state_events s w)
  = edge_report (cryptor w) (last_dec_error_ (cryptor w)) s.
Proof.
  unfold dec_state_events, edge_report.
  case_bool_decide; by destruct (observer_ (cryptor w)).
Qed.

Lemma key_calls_enc_state_events (s : FrameCryptionState) (w : World) :
  key_calls (enc_state_events s w) = [].
Proof. unfold enc_state_events. by destruct (_ && _). Qed.

Lemma key_calls_dec_state_events (s : FrameCryptionState) (w : World) :
  key_calls (dec_state_events s w) = [].
Proof. unfold dec_state_events. by destruct (_ && _). Qed.

Lemma enc_state_world_counters (s : FrameCryptionState) (w : World) :
  send_counts_ (cryptor (enc_state_world s w)) = send_counts_ (cryptor w).
Proof. unfold enc_state_world. by case_bool_decide. Qed.

Lemma size_of_nil_iff (d : bytes) : size_of d = 0 ↔ d = [].
Proof.
  unfold size_of. split; [|by intros ->].
  destruct d; [done|]. cbn [length]. lia.
Qed.

Lemma not_ready_false (frame : Frame) (w : World) :
  enabled_cryption_ (cryptor w) = true → GetData frame ≠ [] →
  (size_of (GetData frame) =? 0) || negb (enabled_cryption_ (cryptor w)) = false.
Proof.
  intros -> Hd. rewrite orb_false_r. apply Z.eqb_neq.
  by rewrite size_of_nil_iff.
Qed.

(** The prefix length fits a [uint8_t]. *)
Lemma get_unencrypted_bytes_range (frame : Frame) (type : MediaType) (ub : Z) :
  get_unencrypted_bytes frame type = Ret ub → 0 <= ub < 256.
Proof.
  unfold get_unencrypted_bytes. destruct type; [intros [= <-]; lia|].
  repeat case_bool_decide; try (intros [= <-]; try destruct (IsKeyFrame frame); lia).
  generalize (FindNaluIndices (GetData frame)). intros l.
  induction l as [|index l IH]; cbn [nalu_loop]; [intros [= <-]; lia|].
  destruct (at_ _ _); cbn [rbind]; [|done].
  destruct (_ || _); [|done]. intros [= <-]. unfold uint8.
  apply Z.mod_pos_bound. lia.
Qed.

(** A copy loop that runs past the end of its source reads out of
    bounds. *)
Lemma copy_loop_overrun (src : bytes) (base : Z) (n : nat) (i : Z) :
  0 <= base + i <= size_of src → base + i + Z.of_nat n < 2 ^ 64 →
  size_of src < base + i + Z.of_nat n →
  copy_loop src base i n = Fault OutOfBounds.
Proof.
  revert i. induction n as [|n IH]; intros i Hlo Hhi Hsz; [lia|].
  cbn [copy_loop]. rewrite size_t_small by lia.
  destruct (decide (size_of src <= base + i)) as [Hout|Hin].
  - by rewrite at_out_of_bounds.
  - assert (Hlt : (Z.to_nat (base + i) < length src)%nat)
      by (unfold size_of in *; lia).
    destruct (lookup_lt_is_Some_2 src _ Hlt) as [b Hb].
    rewrite <- (Z2Nat.id (base + i)) at 1 by lia.
    rewrite (at_lookup _ _ _ Hb). cbn [rbind].
    replace (base + i + Z.of_nat (S n)) with (base + (i + 1) + Z.of_nat n)
      in Hhi, Hsz by lia.
    by rewrite IH by lia.
Qed.

(** A copy loop that returns has stayed inside its source. *)
Lemma copy_loop_inv (src : bytes) (base : Z) (n : nat) (l : bytes) :
  copy_loop src base 0 n = Ret l →
  0 <= base <= size_of src → base + Z.of_nat n < 2 ^ 64 → size_of src < 2 ^ 64 →
  l = take n (drop (Z.to_nat base) src) ∧ base + Z.of_nat n <= size_of src.
Proof.
  intros H Hlo Hhi Hsz.
  destruct (decide (base + Z.of_nat n <= size_of src)) as [Hin|Hout].
  - rewrite copy_loop_slice in H by lia. injection H as <-.
    by rewrite Z.add_0_r.
  - rewrite copy_loop_overrun in H by lia. done.
Qed.

(** The two bytes that end a payload, as lines 509 and 510 read them. *)
Lemma trailer_reads (body : bytes) (a b : Z) :
  size_of (body ++ [a; b]) < 2 ^ 64 →
  at_ (body ++ [a; b]) (size_t (size_of (body ++ [a; b]) - 2)) = Ret a ∧
  at_ (body ++ [a; b]) (size_t (size_of (body ++ [a; b]) - 1)) = Ret b.
Proof.
  intros Hsz. pose proof (size_of_nonneg body).
  rewrite size_of_app in *. change (size_of [a; b]) with 2 in *.
  rewrite !size_t_small by lia. split.
  - replace (size_of body + 2 - 2) with (size_of body) by lia.
    apply at_app_middle.
  - replace (size_of body + 2 - 1) with (size_of (body ++ [a])).
    + change (body ++ [a; b]) with (body ++ [a] ++ [b]).
      rewrite app_assoc. apply at_app_middle.
    + rewrite size_of_app. change (size_of [a]) with 1. lia.
Qed.

(** X13: a frame for which no sink is registered is dropped on either
    path, no key is looked up, and [kInternalError] is stored and reported
    on the edge. *)
Theorem no_sink_reports_internal_error (rnd : Z) (frame : Frame) (w : World) :
  sink_of (cryptor w) frame = None →
  (∃ w' tr, encryptFrame rnd frame w = Ret (tt, w', tr) ∧
            delivered tr = [] ∧ key_calls tr = [] ∧
            last_enc_error_ (cryptor w') = kInternalError ∧
            notified tr = edge_report (cryptor w) (last_enc_error_ (cryptor w))
                            kInternalError) ∧
  (∃ w' tr, decryptFrame frame w = Ret (tt, w', tr) ∧
            delivered tr = [] ∧ key_calls tr = [] ∧
            last_dec_error_ (cryptor w') = kInternalError ∧
            notified tr = edge_report (cryptor w) (last_dec_error_ (cryptor w))
                            kInternalError).
Proof.
  intros Hsink.
  destruct (snapshot_sink_eq frame w) as (w1 & Hs & _ & (m & Hc & _) & _).
  rewrite Hsink in Hs. split.
  - unfold encryptFrame. mstep. rewrite (bind_Ret_nil _ _ _ _ _ Hs).
    rewrite enc_state_eq. eexists _, _. split; [reflexivity|].
    rewrite delivered_enc_state_events, key_calls_enc_state_events,
      enc_state_world_last, notified_enc_state_events, Hc.
    done.
  - eexists _, _. split.
    { unfold decryptFrame, decrypt_setup. mstep.
      rewrite (bind_Ret_nil _ _ _ _ _ Hs). mstep.
      rewrite (bind_Ret _ _ _ _ _ _ (dec_state_eq _ _)). mstep. reflexivity. }
    rewrite !app_nil_r, delivered_dec_state_events, key_calls_dec_state_events,
      dec_state_world_last, notified_dec_state_events, Hc.
    done.
Qed.

(** X14: an enabled sender that finds no key handler for the participant,
    or no key set at its key index, drops the frame: nothing is delivered,
    no IV counter is used, and [kMissingKey] is stored and reported on the
    edge. *)
Theorem encryptFrame_missing_key (rnd : Z) (frame : Frame) (w : World)
    (sink : Sink) :
  enabled_cryption_ (cryptor w) = true →
  GetData frame ≠ [] →
  sink_of (cryptor w) frame = Some sink →
  (∀ h, handlers (key_provider_ w)
          !! handler_ref (key_provider_ w) (participant_id_ (cryptor w)) = Some h →
        GetKeySet h (key_index_ (cryptor w)) = None) →
  ∃ w' tr, encryptFrame rnd frame w = Ret (tt, w', tr) ∧
           delivered tr = [] ∧
           last_enc_error_ (cryptor w') = kMissingKey ∧
           send_counts_ (cryptor w') = send_counts_ (cryptor w) ∧
           key_provider_ w' = key_provider_ w ∧
           notified tr = edge_report (cryptor w) (last_enc_error_ (cryptor w))
                           kMissingKey.
Proof.
  intros Hen Hdata Hsink Hkey. unfold encryptFrame. mstep.
  rewrite (bind_pure _ _ _ _ (snapshot_sink_registered _ w sink Hsink)). mstep.
  rewrite (not_ready_false _ _ Hen Hdata).
  rewrite (bind_Ret _ _ _ _ _ _ (lookup_key_handler_eq _)). mstep.
  destruct (handlers (key_provider_ w) !! _) as [h|] eqn:Hh.
  - rewrite (bind_Ret _ _ _ _ _ _ (call_GetKeySet_eq _ _ _ _ Hh)). mstep.
    rewrite (Hkey h eq_refl), enc_state_eq.
    eexists _, _. split; [reflexivity|].
    autorewrite with trace.
    rewrite enc_state_world_last, enc_state_world_counters,
      notified_enc_state_events.
    repeat split. unfold enc_state_world. by case_bool_decide.
  - rewrite enc_state_eq. eexists _, _. split; [reflexivity|].
    autorewrite with trace.
    rewrite enc_state_world_last, enc_state_world_counters,
      notified_enc_state_events.
    repeat split. unfold enc_state_world. by case_bool_decide.
Qed.

(** X15: with an algorithm other than AES-GCM an enabled sender that has
    its key does not report [kEncryptionFailed]: [makeIv] runs before the
    cipher is chosen, and its [RTC_CHECK_EQ] against [getIvSize() == 0]
    fails. *)
Theorem encryptFrame_aborts_unless_gcm (rnd : Z) (frame : Frame) (w : World)
    (sink : Sink) (h : ParticipantKeyHandler) (ks : KeySet) (ub : Z) :
  enabled_cryption_ (cryptor w) = true →
  GetData frame ≠ [] →
  sink_of (cryptor w) frame = Some sink →
  handlers (key_provider_ w)
    !! handler_ref (key_provider_ w) (participant_id_ (cryptor w)) = Some h →
  GetKeySet h (key_index_ (cryptor w)) = Some ks →
  get_unencrypted_bytes frame (type_ (cryptor w)) = Ret ub →
  ub <= size_of (GetData frame) < 2 ^ 64 →
  algorithm_ (cryptor w) ≠ kAesGcm →
  encryptFrame rnd frame w = Fault CheckFailed.
Proof.
  intros Hen Hdata Hsink Hh Hks Hub Hsz Halg.
  pose proof (get_unencrypted_bytes_range _ _ _ Hub) as Hr.
  unfold encryptFrame. mstep.
  rewrite (bind_pure _ _ _ _ (snapshot_sink_registered _ w sink Hsink)). mstep.
  rewrite (not_ready_false _ _ Hen Hdata).
  rewrite (bind_Ret _ _ _ _ _ _ (lookup_key_handler_eq _)). mstep. rewrite Hh.
  rewrite (bind_Ret _ _ _ _ _ _ (call_GetKeySet_eq _ _ _ _ Hh)). mstep.
  rewrite Hks.
  rewrite (bind_Ret _ _ _ _ _ _ (call_GetKeySet_eq _ _ _ _ Hh)). mstep.
  rewrite Hks, Hub. mstep.
  rewrite copy_loop_slice by lia. mstep.
  assert (Hiv : call_makeIv rnd (GetSsrc frame) (GetTimestamp frame) w
                = Fault CheckFailed).
  { unfold call_makeIv. by rewrite makeIv_aborts. }
  by rewrite (bind_Fault _ _ _ _ Hiv).
Qed.

(** X16: an enabled sender that has its key reads outside a frame that is
    shorter than its unencrypted prefix (a VP8 key frame of fewer than ten
    bytes, say): the loop of line 384 copies [unencrypted_bytes] bytes
    whatever the size of the payload. *)
Theorem encryptFrame_short_frame (rnd : Z) (frame : Frame) (w : World)
    (sink : Sink) (h : ParticipantKeyHandler) (ks : KeySet) (ub : Z) :
  enabled_cryption_ (cryptor w) = true →
  sink_of (cryptor w) frame = Some sink →
  handlers (key_provider_ w)
    !! handler_ref (key_provider_ w) (participant_id_ (cryptor w)) = Some h →
  GetKeySet h (key_index_ (cryptor w)) = Some ks →
  get_unencrypted_bytes frame (type_ (cryptor w)) = Ret ub →
  0 < size_of (GetData frame) < ub →
  encryptFrame rnd frame w = Fault OutOfBounds.
Proof.
  intros Hen Hsink Hh Hks Hub Hsz.
  pose proof (get_unencrypted_bytes_range _ _ _ Hub) as Hr.
  assert (Hdata : GetData frame ≠ []).
  { intros Hd. rewrite Hd in Hsz. unfold size_of in Hsz. cbn in Hsz. lia. }
  unfold encryptFrame. mstep.
  rewrite (bind_pure _ _ _ _ (snapshot_sink_registered _ w sink Hsink)). mstep.
  rewrite (not_ready_false _ _ Hen Hdata).
  rewrite (bind_Ret _ _ _ _ _ _ (lookup_key_handler_eq _)). mstep. rewrite Hh.
  rewrite (bind_Ret _ _ _ _ _ _ (call_GetKeySet_eq _ _ _ _ Hh)). mstep.
  rewrite Hks.
  rewrite (bind_Ret _ _ _ _ _ _ (call_GetKeySet_eq _ _ _ _ Hh)). mstep.
  rewrite Hks, Hub. mstep.
  by rewrite copy_loop_overrun by lia.
Qed.

Lemma decryptFrame_early_exit (frame : Frame) (w w' : World) (tr : list Event) :
  decrypt_setup frame w = Ret (None, w', tr) →
  decryptFrame frame w = Ret (tt, w', tr).
Proof.
  intros H. unfold decryptFrame. rewrite (bind_Ret _ _ _ _ _ _ H).
  cbn [ret]. by rewrite app_nil_r.
Qed.

Lemma ends_with_trailer_nonempty (d body : bytes) (a b : Z) :
  d = body ++ [a; b] → d ≠ [].
Proof. intros -> H. by apply app_eq_nil in H as [_ ?]. Qed.

(** Runs [decrypt_setup] up to the comparison of the IV length byte. *)
Ltac decrypt_to_trailer Hen Hsink Hdata Hmagic Hub Hsz :=
  unfold decrypt_setup; mstep;
  rewrite (bind_pure _ _ _ _ (snapshot_sink_registered _ _ _ Hsink)); mstep;
  rewrite (not_ready_false _ _ Hen (ends_with_trailer_nonempty _ _ _ _ Hdata)),
    Hmagic;
  unfold decrypt_parse; mstep; rewrite Hub; mstep;
  rewrite copy_loop_slice by lia; mstep;
  let Hl := fresh "Hl" in
  let Hk := fresh "Hk" in
  destruct (trailer_reads _ _ _ ltac:(rewrite <- Hdata; lia)) as [Hl Hk];
  rewrite <- Hdata in Hl, Hk;
  rewrite Hl; mstep; rewrite Hk; mstep.

(** X18: a frame whose IV length byte, the last but one of the payload, is
    not [getIvSize()] is dropped: nothing is delivered, no key is looked
    up, and [kDecryptionFailed] is stored and reported on the edge. *)
Theorem decryptFrame_bad_iv_length (frame : Frame) (w : World) (sink : Sink)
    (body : bytes) (ivLength key_index ub : Z) :
  enabled_cryption_ (cryptor w) = true →
  sink_of (cryptor w) frame = Some sink →
  GetData frame = body ++ [ivLength; key_index] →
  has_magic_bytes (uncrypted_magic_bytes (options (key_provider_ w)))
    (GetData frame) = false →
  get_unencrypted_bytes frame (type_ (cryptor w)) = Ret ub →
  ub <= size_of (GetData frame) < 2 ^ 64 →
  ivLength ≠ getIvSize (cryptor w) →
  ∃ w' tr, decryptFrame frame w = Ret (tt, w', tr) ∧
           delivered tr = [] ∧ key_calls tr = [] ∧
           last_dec_error_ (cryptor w') = kDecryptionFailed ∧
           key_provider_ w' = key_provider_ w ∧
           notified tr = edge_report (cryptor w) (last_dec_error_ (cryptor w))
                           kDecryptionFailed.
Proof.
  intros Hen Hsink Hdata Hmagic Hub Hsz Hiv.
  pose proof (get_unencrypted_bytes_range _ _ _ Hub) as Hr.
  eexists _, _. split.
  { apply decryptFrame_early_exit.
    decrypt_to_trailer Hen Hsink Hdata Hmagic Hub Hsz.
    apply Z.eqb_neq in Hiv. rewrite Hiv. cbn [negb].
    rewrite (bind_Ret _ _ _ _ _ _ (dec_state_eq _ _)). mstep. reflexivity. }
  rewrite !app_nil_r, delivered_dec_state_events, key_calls_dec_state_events,
    dec_state_world_last, notified_dec_state_events, dec_state_world_provider.
  done.
Qed.

Lemma Forall_key_lookup (tr : list Event) :
  Forall key_lookup tr →
  delivered tr = [] ∧ notified tr = [] ∧ Forall lookup_only tr.
Proof.
  induction 1 as [|e tr He _ (IH1 & IH2 & IH3)]; [done|].
  destruct e as [| |c]; try done. destruct c; try done; by repeat constructor.
Qed.

(** X19: a frame whose key index byte, the last of the payload, lies
    outside the key ring, or names a slot for which the participant has no
    key handler or no key set, is dropped: nothing is delivered, no
    decryption is tried, and [kMissingKey] is stored and reported on the
    edge. *)
Theorem decryptFrame_missing_key (frame : Frame) (w : World) (sink : Sink)
    (body : bytes) (ivLength key_index ub : Z) :
  enabled_cryption_ (cryptor w) = true →
  sink_of (cryptor w) frame = Some sink →
  GetData frame = body ++ [ivLength; key_index] →
  has_magic_bytes (uncrypted_magic_bytes (options (key_provider_ w)))
    (GetData frame) = false →
  get_unencrypted_bytes frame (type_ (cryptor w)) = Ret ub →
  ub <= size_of (GetData frame) < 2 ^ 64 →
  ivLength = getIvSize (cryptor w) →
  key_ring_size (options (key_provider_ w)) <= key_index ∨
  (∀ h, handlers (key_provider_ w)
          !! handler_ref (key_provider_ w) (participant_id_ (cryptor w)) = Some h →
        GetKeySet h key_index = None) →
  ∃ w' tr, decryptFrame frame w = Ret (tt, w', tr) ∧
           delivered tr = [] ∧ Forall lookup_only tr ∧
           last_dec_error_ (cryptor w') = kMissingKey ∧
           key_provider_ w' = key_provider_ w ∧
           notified tr = edge_report (cryptor w) (last_dec_error_ (cryptor w))
                           kMissingKey.
Proof.
  intros Hen Hsink Hdata Hmagic Hub Hsz Hiv Hkey.
  pose proof (get_unencrypted_bytes_range _ _ _ Hub) as Hr.
  assert (Hgoal : ∀ w' tr pre,
            w' = dec_state_world kMissingKey w →
            Forall key_lookup pre →
            tr = pre ++ dec_state_events kMissingKey w →
            delivered tr = [] ∧ Forall lookup_only tr ∧
            last_dec_error_ (cryptor w') = kMissingKey ∧
            key_provider_ w' = key_provider_ w ∧
            notified tr = edge_report (cryptor w) (last_dec_error_ (cryptor w))
                            kMissingKey).
  { intros w' tr pre -> Hpre ->.
    rewrite dec_state_world_last, dec_state_world_provider.
    destruct (Forall_key_lookup _ Hpre) as (Hd & Hn & Hl).
    rewrite delivered_app, notified_app, Hd, Hn, delivered_dec_state_events,
      notified_dec_state_events.
    repeat split. apply Forall_app. split; [done|].
    unfold dec_state_events. destruct (_ && _); repeat constructor. }
  assert (Hget : key_lookup
            (Key (if shared_key (options (key_provider_ w))
                  then CallGetSharedKey (participant_id_ (cryptor w))
                  else CallGetKey (participant_id_ (cryptor w)))))
    by (by destruct (shared_key _)).
  destruct ((key_index <? 0)
            || (key_ring_size (options (key_provider_ w)) <=? key_index)) eqn:Ering.
  - eexists _, _. split.
    { apply decryptFrame_early_exit.
      decrypt_to_trailer Hen Hsink Hdata Hmagic Hub Hsz.
      rewrite Hiv, Z.eqb_refl. cbn [negb].
      rewrite (bind_Ret _ _ _ _ _ _ (lookup_key_handler_eq _)). mstep.
      rewrite Ering.
      rewrite (bind_Ret _ _ _ _ _ _ (dec_state_eq _ _)). mstep. reflexivity. }
    eapply (Hgoal _ _ [_]); [done| |by rewrite app_nil_r].
    by repeat constructor.
  - destruct Hkey as [Hring|Hkey]; [lia|].
    destruct (handlers (key_provider_ w)
                !! handler_ref (key_provider_ w) (participant_id_ (cryptor w)))
      as [h|] eqn:Hh.
    + eexists _, _. split.
      { apply decryptFrame_early_exit.
        decrypt_to_trailer Hen Hsink Hdata Hmagic Hub Hsz.
        rewrite Hiv, Z.eqb_refl. cbn [negb].
        rewrite (bind_Ret _ _ _ _ _ _ (lookup_key_handler_eq _)). mstep.
        rewrite Ering, Hh.
        rewrite (bind_Ret _ _ _ _ _ _ (call_GetKeySet_eq _ _ _ _ Hh)). mstep.
        rewrite (Hkey h eq_refl).
        rewrite (bind_Ret _ _ _ _ _ _ (dec_state_eq _ _)). mstep. reflexivity. }
      eapply (Hgoal _ _ [_; _]); [done| |by rewrite app_nil_r].
      by repeat constructor.
    + eexists _, _. split.
      { apply decryptFrame_early_exit.
        decrypt_to_trailer Hen Hsink Hdata Hmagic Hub Hsz.
        rewrite Hiv, Z.eqb_refl. cbn [negb].
        rewrite (bind_Ret _ _ _ _ _ _ (lookup_key_handler_eq _)). mstep.
        rewrite Ering, Hh.
        rewrite (bind_Ret _ _ _ _ _ _ (dec_state_eq _ _)). mstep. reflexivity. }
      eapply (Hgoal _ _ [_]); [done| |by rewrite app_nil_r].
      by repeat constructor.
Qed.

(** X20: while [last_dec_error_] is [kDecryptionFailed] and the handler
    holds no valid key, a frame whose trailer names an installed key is
    dropped after three lookups: nothing is decrypted, delivered or
    reported, no failure is counted, and the world is as before. *)
Theorem decryptFrame_waits_for_key (frame : Frame) (w : World) (sink : Sink)
    (body : bytes) (ivLength key_index ub : Z) (h : ParticipantKeyHandler)
    (ks : KeySet) :
  enabled_cryption_ (cryptor w) = true →
  sink_of (cryptor w) frame = Some sink →
  GetData frame = body ++ [ivLength; key_index] →
  has_magic_bytes (uncrypted_magic_bytes (options (key_provider_ w)))
    (GetData frame) = false →
  get_unencrypted_bytes frame (type_ (cryptor w)) = Ret ub →
  ub <= size_of (GetData frame) < 2 ^ 64 →
  ivLength = getIvSize (cryptor w) →
  key_index < key_ring_size (options (key_provider_ w)) →
  handlers (key_provider_ w)
    !! handler_ref (key_provider_ w) (participant_id_ (cryptor w)) = Some h →
  GetKeySet h key_index = Some ks →
  last_dec_error_ (cryptor w) = kDecryptionFailed →
  has_valid_key h = false →
  decryptFrame frame w =
  Ret (tt, w,
       [Key (if shared_key (options (key_provider_ w))
             then CallGetSharedKey (participant_id_ (cryptor w))
             else CallGetKey (participant_id_ (cryptor w)));
        Key (CallGetKeySet key_index); Key (CallHasValidKey false)]).
Proof.
  intros Hen Hsink Hdata Hmagic Hub Hsz Hiv Hring Hh Hks Hlast Hvalid.
  pose proof (get_unencrypted_bytes_range _ _ _ Hub) as Hr.
  pose proof (GetKeySet_index_nonneg _ _ _ Hks) as Hidx.
  apply decryptFrame_early_exit.
  decrypt_to_trailer Hen Hsink Hdata Hmagic Hub Hsz.
  rewrite Hiv, Z.eqb_refl. cbn [negb].
  rewrite (bind_Ret _ _ _ _ _ _ (lookup_key_handler_eq _)). mstep.
  destruct (key_index <? 0) eqn:E1; [lia|].
  destruct (key_ring_size (options (key_provider_ w)) <=? key_index) eqn:E2; [lia|].
  cbn [orb]. rewrite Hh.
  rewrite (bind_Ret _ _ _ _ _ _ (call_GetKeySet_eq _ _ _ _ Hh)). mstep.
  rewrite Hks, Hlast. rewrite bool_decide_eq_true_2 by done. mstep.
  rewrite (bind_pure _ _ _ _ (get_handler_eq _ _ _ Hh)). mstep.
  rewrite Hvalid. cbn [negb]. reflexivity.
Qed.

(** X22: when the first decryption attempt of a call succeeds, the frame
    is delivered with the prefix followed by the plaintext, no ratchet step
    is made, the key provider and its handlers are as before, and [kOk] is
    stored and reported on the edge. *)
Theorem decryptFrame_first_attempt (frame : Frame) (w w1 : World)
    (c : DecryptContext) (tr1 : list Event) (pt : bytes) :
  decrypt_setup frame w = Ret (Some c, w1, tr1) →
  AesEncryptDecrypt kDecrypt (algorithm_ (cryptor w))
    (encryption_key (dc_key_set c)) (dc_iv c) (dc_frame_header c)
    (dc_encrypted_payload c) = (Success, pt) →
  ∃ w' tr, decryptFrame frame w = Ret (tt, w', tr) ∧
           delivered tr = [(dc_sink c, SetData frame (dc_frame_header c ++ pt))] ∧
           ratchet_attempts tr = [] ∧
           key_provider_ w' = key_provider_ w ∧
           last_dec_error_ (cryptor w') = kOk ∧
           notified tr = edge_report (cryptor w) (last_dec_error_ (cryptor w)) kOk.
Proof.
  intros Hsetup Hok.
  destruct (decrypt_setup_inv _ _ _ _ _ Hsetup)
    as (Hp & [m Hc] & Hd1 & Hn1 & _).
  assert (Halg : algorithm_ (cryptor w1) = algorithm_ (cryptor w))
    by (by rewrite Hc).
  rewrite <- Halg in Hok.
  eexists _, _. split.
  { unfold decryptFrame. rewrite (bind_Ret _ _ _ _ _ _ Hsetup).
    rewrite (bind_Ret _ _ _ _ _ _ (decrypt_or_ratchet_first _ _ _ _ _ _ _ _ Hok)).
    rewrite decrypt_finish_success. reflexivity. }
  rewrite dec_state_world_last, dec_state_world_provider.
  autorewrite with trace. rewrite Hd1, Hn1, notified_dec_state_events, Hc.
  cbn [app]. repeat split; try done.
  rewrite !ratchet_attempts_app.
  rewrite (Forall_no_ratchet _ (emits_decrypt_setup_no_ratchet _ _ _ _ _ Hsetup)).
  cbn [app]. unfold dec_state_events. by destruct (_ && _).
Qed.

(** ** Frames too short for what the trailer promises *)

Lemma alloc_wrapped (n : Z) : - 2 ^ 63 <= n < 0 → alloc (size_t n) = Fault BadAlloc.
Proof.
  intros Hn. unfold alloc, size_t.
  replace (n mod 2 ^ 64) with (2 ^ 64 + n).
  - destruct (2 ^ 64 + n <? 2 ^ 63) eqn:E; [lia|done].
  - apply Z.mod_unique with (q := -1); lia.
Qed.

Lemma size_of_take (n : nat) (l : bytes) :
  Z.of_nat n <= size_of l → size_of (take n l) = Z.of_nat n.
Proof. unfold size_of. rewrite length_take. lia. Qed.

Lemma size_of_drop (n : nat) (l : bytes) :
  Z.of_nat n <= size_of l → size_of (drop n l) = size_of l - Z.of_nat n.
Proof. unfold size_of. rewrite length_drop. lia. Qed.

(** A frame that passes every check of lines 439 to 546 reaches the cut of
    lines 548 to 571, and faults if the cut faults. *)
Lemma decrypt_setup_cut_fault (frame : Frame) (w : World) (sink : Sink)
    (body : bytes) (key_index ub : Z) (h : ParticipantKeyHandler) (ks : KeySet)
    (f : fault) :
  enabled_cryption_ (cryptor w) = true →
  sink_of (cryptor w) frame = Some sink →
  GetData frame = body ++ [getIvSize (cryptor w); key_index] →
  has_magic_bytes (uncrypted_magic_bytes (options (key_provider_ w)))
    (GetData frame) = false →
  get_unencrypted_bytes frame (type_ (cryptor w)) = Ret ub →
  ub <= size_of (GetData frame) < 2 ^ 64 →
  key_index < key_ring_size (options (key_provider_ w)) →
  handlers (key_provider_ w)
    !! handler_ref (key_provider_ w) (participant_id_ (cryptor w)) = Some h →
  GetKeySet h key_index = Some ks →
  (last_dec_error_ (cryptor w) = kDecryptionFailed → has_valid_key h = true) →
  decrypt_cut sink frame
    (handler_ref (key_provider_ w) (participant_id_ (cryptor w))) ks ub
    (getIvSize (cryptor w)) key_index (take (Z.to_nat ub) (GetData frame)) w
    = Fault f →
  decrypt_setup frame w = Fault f.
Proof.
  intros Hen Hsink Hdata Hmagic Hub Hsz Hring Hh Hks Hgate Hcut.
  pose proof (get_unencrypted_bytes_range _ _ _ Hub) as Hr.
  pose proof (GetKeySet_index_nonneg _ _ _ Hks) as Hidx.
  decrypt_to_trailer Hen Hsink Hdata Hmagic Hub Hsz.
  change (drop (Z.to_nat (0 + 0)) (GetData frame)) with (GetData frame).
  rewrite Z.eqb_refl. cbn [negb].
  rewrite (bind_Ret _ _ _ _ _ _ (lookup_key_handler_eq _)). mstep.
  destruct (key_index <? 0) eqn:E1; [lia|].
  destruct (key_ring_size (options (key_provider_ w)) <=? key_index) eqn:E2; [lia|].
  cbn [orb]. rewrite Hh.
  rewrite (bind_Ret _ _ _ _ _ _ (call_GetKeySet_eq _ _ _ _ Hh)). mstep.
  rewrite Hks.
  destruct (decide (last_dec_error_ (cryptor w) = kDecryptionFailed)) as [Hl'|Hl'].
  - rewrite bool_decide_eq_true_2 by done. mstep.
    rewrite (bind_pure _ _ _ _ (get_handler_eq _ _ _ Hh)). mstep.
    rewrite (Hgate Hl'). cbn [negb].
    rewrite (bind_Ret _ _ _ _ _ _ (call_GetKeySet_eq _ _ _ _ Hh)). mstep.
    rewrite Hks. by rewrite Hcut.
  - rewrite bool_decide_eq_false_2 by done. mstep.
    rewrite (bind_Ret _ _ _ _ _ _ (call_GetKeySet_eq _ _ _ _ Hh)). mstep.
    rewrite Hks. by rewrite Hcut.
Qed.

(** X21: a frame that is not H.264, whose trailer names a twelve-byte IV
    and an installed key, but which is shorter than its prefix, the IV and
    the trailer together, meets no length check: [decryptFrame] reads
    outside the payload when the payload is shorter than the prefix
    (line 505) or than IV and trailer (line 552), and otherwise sizes the
    buffer of line 566 with a length that has wrapped around. *)
Theorem decryptFrame_truncated_frame (frame : Frame) (w : World) (sink : Sink)
    (body : bytes) (key_index ub : Z) (h : ParticipantKeyHandler) (ks : KeySet) :
  enabled_cryption_ (cryptor w) = true →
  algorithm_ (cryptor w) = kAesGcm →
  sink_of (cryptor w) frame = Some sink →
  FrameIsH264 frame (type_ (cryptor w)) = false →
  GetData frame = body ++ [12; key_index] →
  has_magic_bytes (uncrypted_magic_bytes (options (key_provider_ w)))
    (GetData frame) = false →
  get_unencrypted_bytes frame (type_ (cryptor w)) = Ret ub →
  size_of (GetData frame) < ub + 12 + 2 →
  key_index < key_ring_size (options (key_provider_ w)) →
  handlers (key_provider_ w)
    !! handler_ref (key_provider_ w) (participant_id_ (cryptor w)) = Some h →
  GetKeySet h key_index = Some ks →
  (last_dec_error_ (cryptor w) = kDecryptionFailed → has_valid_key h = true) →
  decryptFrame frame w =
    Fault (if (size_of (GetData frame) <? ub) || (size_of (GetData frame) <? 12 + 2)
           then OutOfBounds else BadAlloc).
Proof.
  intros Hen Halg Hsink Hh264 Hdata Hmagic Hub Hsz Hring Hh Hks Hgate.
  pose proof (get_unencrypted_bytes_range _ _ _ Hub) as Hr.
  pose proof (size_of_nonneg (GetData frame)) as H0.
  assert (Hiv12 : getIvSize (cryptor w) = 12) by (unfold getIvSize; by rewrite Halg).
  assert (Hto : ∀ f, decrypt_setup frame w = Fault f → decryptFrame frame w = Fault f).
  { intros f Hf. unfold decryptFrame. by apply bind_Fault. }
  change (12 + 2) with 14.
  destruct (size_of (GetData frame) <? ub) eqn:Hshort.
  { (* the prefix does not fit *)
    cbn [orb]. apply Hto. unfold decrypt_setup. mstep.
    rewrite (bind_pure _ _ _ _ (snapshot_sink_registered _ _ _ Hsink)). mstep.
    rewrite (not_ready_false _ _ Hen (ends_with_trailer_nonempty _ _ _ _ Hdata)),
      Hmagic.
    unfold decrypt_parse. mstep. rewrite Hub. mstep.
    by rewrite copy_loop_overrun by lia. }
  cbn [orb]. rewrite <- Hiv12 in Hdata.
  assert (Hcut : ∀ f,
            decrypt_cut sink frame
              (handler_ref (key_provider_ w) (participant_id_ (cryptor w))) ks ub
              (getIvSize (cryptor w)) key_index
              (take (Z.to_nat ub) (GetData frame)) w = Fault f →
            decryptFrame frame w = Fault f).
  { intros f Hf. apply Hto.
    apply (decrypt_setup_cut_fault frame w sink body key_index ub h ks f);
      try done. lia. }
  rewrite Hiv12 in Hcut.
  destruct (size_of (GetData frame) <? 14) eqn:Hiv.
  { (* the IV does not fit *)
    apply Hcut. unfold decrypt_cut. mstep.
    change (Z.to_nat 12) with 12%nat.
    rewrite copy_loop_out_of_bounds; [done|].
    unfold size_t.
    replace ((size_of (GetData frame) - 2 - 12) mod 2 ^ 64)
      with (2 ^ 64 + (size_of (GetData frame) - 2 - 12)); [lia|].
    apply Z.mod_unique with (q := -1); lia. }
  (* IV and trailer overlap the prefix *)
  assert (Hbuf : size_of (take (Z.to_nat (size_of (GetData frame) - ub))
                            (drop (Z.to_nat (ub + 0)) (GetData frame)))
                 = size_of (GetData frame) - ub).
  { rewrite size_of_take; [lia|]. rewrite size_of_drop; lia. }
  apply Hcut. unfold decrypt_cut. mstep.
  rewrite copy_loop_slice by lia. mstep.
  rewrite alloc_small by lia. mstep.
  rewrite copy_loop_slice by lia. mstep.
  rewrite Hh264. mstep. rewrite Hbuf.
  by rewrite alloc_wrapped by lia.
Qed.

(** ** The cipher wrapper *)

Section SealOpen.
Context {laws : AeadCorrect ext}.

(** X5: with a key of 16 or 32 bytes and a twelve-byte IV, encryption
    succeeds, its output is sixteen bytes longer than the input, and
    decryption of that output with the same key, IV and additional data
    gives the input back. *)
Theorem AesEncryptDecrypt_seal_then_open (raw_key iv additional_data data : bytes) :
  size_of raw_key = 16 ∨ size_of raw_key = 32 →
  size_of iv = 12 →
  ∃ buffer,
    AesEncryptDecrypt kEncrypt kAesGcm raw_key iv additional_data data
      = (Success, buffer) ∧
    size_of buffer = size_of data + 16 ∧
    AesEncryptDecrypt kDecrypt kAesGcm raw_key iv additional_data buffer
      = (Success, data).
Proof. apply AesEncryptDecrypt_roundtrip. Qed.

End SealOpen.

(** ** What an enabled sender delivers *)

(** X17: whatever an enabled sender delivers for a frame with a payload
    has gone through the cipher: the delivered payload is the unencrypted
    prefix of the frame, followed by the output of a successful
    [AesEncryptDecrypt] over the rest of the frame, by the IV of the call
    and by the trailer (RBSP-escaped as a whole for H.264), and [kOk] is
    stored.  On every other path nothing is delivered. *)
Theorem encryptFrame_delivers_only_sealed (rnd : Z) (frame : Frame)
    (w w' : World) (tr : list Event) :
  encryptFrame rnd frame w = Ret (tt, w', tr) →
  enabled_cryption_ (cryptor w) = true →
  0 < size_of (GetData frame) < 2 ^ 64 →
  delivered tr = [] ∨
  ∃ sink h ks ub ct,
    sink_of (cryptor w) frame = Some sink ∧
    handlers (key_provider_ w)
      !! handler_ref (key_provider_ w) (participant_id_ (cryptor w)) = Some h ∧
    GetKeySet h (key_index_ (cryptor w)) = Some ks ∧
    get_unencrypted_bytes frame (type_ (cryptor w)) = Ret ub ∧
    let header := take (Z.to_nat ub) (GetData frame) in
    let payload := drop (Z.to_nat ub) (GetData frame) in
    let iv := iv_of (GetSsrc frame) (GetTimestamp frame)
                (counter_used (GetSsrc frame) (cryptor w)) in
    let sealed := ct ++ iv ++ trailer_of (cryptor w) in
    AesEncryptDecrypt kEncrypt (algorithm_ (cryptor w)) (encryption_key ks)
      iv header payload = (Success, ct) ∧
    last_enc_error_ (cryptor w') = kOk ∧
    delivered tr =
      [(sink, SetData frame
                (header ++ (if FrameIsH264 frame (type_ (cryptor w))
                            then WriteRbsp sealed else sealed)))].
Proof.
  intros H Hen Hsz. unfold encryptFrame in H. mstep_in H.
  destruct (snapshot_sink_eq frame w) as (w1 & Hs & _ & _ & Hsame).
  rewrite (bind_Ret_nil _ _ _ _ _ Hs) in H.
  destruct (sink_of (cryptor w) frame) as [sink|] eqn:Hsink.
  2:{ left. rewrite enc_state_eq in H. injection H as _ <-.
      apply delivered_enc_state_events. }
  rewrite (Hsame ltac:(eauto)) in H. clear w1 Hs Hsame. mstep_in H.
  rewrite Hen in H.
  destruct (size_of (GetData frame) =? 0) eqn:E0; [lia|]. cbn [orb negb] in H.
  rewrite (bind_Ret _ _ _ _ _ _ (lookup_key_handler_eq _)) in H. mstep_in H.
  destruct (handlers (key_provider_ w)
              !! handler_ref (key_provider_ w) (participant_id_ (cryptor w)))
    as [h|] eqn:Hh.
  2:{ left. rewrite enc_state_eq in H. injection H as _ <-.
      by autorewrite with trace. }
  rewrite (bind_Ret _ _ _ _ _ _ (call_GetKeySet_eq _ _ _ _ Hh)) in H. mstep_in H.
  destruct (GetKeySet h (key_index_ (cryptor w))) as [ks|] eqn:Hks.
  2:{ left. rewrite enc_state_eq in H. injection H as _ <-.
      by autorewrite with trace. }
  rewrite (bind_Ret _ _ _ _ _ _ (call_GetKeySet_eq _ _ _ _ Hh)) in H. mstep_in H.
  rewrite Hks in H.
  destruct (get_unencrypted_bytes frame (type_ (cryptor w))) as [ub|] eqn:Hub;
    mstep_in H; [|done].
  pose proof (get_unencrypted_bytes_range _ _ _ Hub) as Hr.
  destruct (copy_loop (GetData frame) 0 0 (Z.to_nat ub)) as [header|] eqn:Hhd;
    mstep_in H; [|done].
  apply copy_loop_inv in Hhd as [-> Hubsz]; [|lia ..].
  change (drop (Z.to_nat 0) (GetData frame)) with (GetData frame) in H.
  destruct (call_makeIv rnd (GetSsrc frame) (GetTimestamp frame) w)
    as [[[iv w2] tr2]|] eqn:Hiv.
  2:{ by rewrite (bind_Fault _ _ _ _ Hiv) in H. }
  assert (Hiv12 : getIvSize (cryptor w) = 12).
  { unfold call_makeIv in Hiv.
    destruct (makeIv _ _ _ _) as [[iv' t']|] eqn:Hm; [|done].
    by eapply makeIv_returns. }
  rewrite (call_makeIv_eq _ _ _ _ Hiv12) in Hiv. injection Hiv as <- <- <-.
  rewrite (bind_Ret _ _ _ _ _ _ (call_makeIv_eq _ _ _ _ Hiv12)) in H. mstep_in H.
  rewrite size_t_small in H by lia.
  unfold alloc in H.
  destruct (size_of (GetData frame) - ub <? 2 ^ 63) eqn:Ea; mstep_in H; [|done].
  destruct (copy_loop (GetData frame) ub 0 _) as [payload|] eqn:Hpl;
    mstep_in H; [|done].
  apply copy_loop_inv in Hpl as [-> _]; [|lia ..].
  rewrite (take_ge (drop (Z.to_nat ub) (GetData frame))) in H
    by (rewrite length_drop; unfold size_of in *; lia).
  cbn [algorithm_ set_send_counts type_] in H.
  destruct (AesEncryptDecrypt kEncrypt _ _ _ _ _) as [rc ct] eqn:Hseal.
  cbn [fst snd] in H.
  destruct (rc =? Success) eqn:Erc.
  2:{ left. rewrite enc_state_eq in H. injection H as _ <-.
      by autorewrite with trace. }
  apply Z.eqb_eq in Erc as ->.
  destruct (read_tag ct) as [tag|]; mstep_in H; [|done].
  rewrite (bind_Ret _ _ _ _ _ _ (enc_state_eq _ _)) in H. mstep_in H.
  injection H as <- <-.
  right. exists sink, h, ks, ub, ct. cbv zeta.
  repeat split; try done.
  - apply enc_state_world_last.
  - autorewrite with trace. unfold trailer_of.
    cbn [getIvSize algorithm_ set_send_counts key_index_ app]. done.
Qed.

(** X29: when the cipher does not succeed (a key set whose key is not 16
    or 32 bytes long, say), an enabled AES-GCM sender drops the frame and
    stores [kEncryptionFailed], reported on the edge; the IV counter of the
    SSRC has been advanced all the same, [makeIv] having run before the
    cipher. *)
Theorem encryptFrame_encryption_failed (rnd : Z) (frame : Frame) (w : World)
    (sink : Sink) (h : ParticipantKeyHandler) (ks : KeySet) (ub : Z) :
  enabled_cryption_ (cryptor w) = true →
  algorithm_ (cryptor w) = kAesGcm →
  sink_of (cryptor w) frame = Some sink →
  handlers (key_provider_ w)
    !! handler_ref (key_provider_ w) (participant_id_ (cryptor w)) = Some h →
  GetKeySet h (key_index_ (cryptor w)) = Some ks →
  get_unencrypted_bytes frame (type_ (cryptor w)) = Ret ub →
  ub <= size_of (GetData frame) →
  0 < size_of (GetData frame) < 2 ^ 63 →
  (AesEncryptDecrypt kEncrypt kAesGcm (encryption_key ks)
     (iv_of (GetSsrc frame) (GetTimestamp frame)
        (counter_used (GetSsrc frame) (cryptor w)))
     (take (Z.to_nat ub) (GetData frame))
     (drop (Z.to_nat ub) (GetData frame))).1 ≠ Success →
  ∃ w' tr, encryptFrame rnd frame w = Ret (tt, w', tr) ∧
           delivered tr = [] ∧
           last_enc_error_ (cryptor w') = kEncryptionFailed ∧
           send_counts_ (cryptor w') !! GetSsrc frame
             = Some (uint32 (counter_used (GetSsrc frame) (cryptor w) + 1)) ∧
           notified tr = edge_report (cryptor w) (last_enc_error_ (cryptor w))
                           kEncryptionFailed.
Proof.
  intros Hen Halg Hsink Hh Hks Hub Hubsz Hsz Hfail.
  pose proof (get_unencrypted_bytes_range _ _ _ Hub) as Hr.
  assert (Hiv12 : getIvSize (cryptor w) = 12) by (unfold getIvSize; by rewrite Halg).
  assert (Hdata : GetData frame ≠ []).
  { intros Hd. rewrite Hd in Hsz. unfold size_of in Hsz. cbn in Hsz. lia. }
  apply Z.eqb_neq in Hfail.
  eexists _, _. split.
  { unfold encryptFrame. mstep.
    rewrite (bind_pure _ _ _ _ (snapshot_sink_registered _ w sink Hsink)). mstep.
    rewrite (not_ready_false _ _ Hen Hdata).
    rewrite (bind_Ret _ _ _ _ _ _ (lookup_key_handler_eq _)). mstep. rewrite Hh.
    rewrite (bind_Ret _ _ _ _ _ _ (call_GetKeySet_eq _ _ _ _ Hh)). mstep.
    rewrite Hks.
    rewrite (bind_Ret _ _ _ _ _ _ (call_GetKeySet_eq _ _ _ _ Hh)). mstep.
    rewrite Hks, Hub. mstep.
    rewrite copy_loop_slice by lia. mstep.
    change (drop (Z.to_nat (0 + 0)) (GetData frame)) with (GetData frame).
    rewrite (bind_Ret _ _ _ _ _ _ (call_makeIv_eq _ _ _ _ Hiv12)). mstep.
    rewrite alloc_small by lia. mstep.
    rewrite copy_loop_slice by lia. mstep.
    rewrite Z.add_0_r.
    rewrite (take_ge (drop (Z.to_nat ub) (GetData frame)))
      by (rewrite length_drop; unfold size_of in *; lia).
    rewrite Halg, Hfail.
    rewrite enc_state_eq. reflexivity. }
  autorewrite with trace.
  rewrite enc_state_world_last, enc_state_world_counters,
    notified_enc_state_events.
  repeat split. cbn. apply lookup_insert_eq.
Qed.

(** ** A failed attempt without a ratchet window *)

(** X30: when the first decryption attempt of a call fails and the
    ratchet window is not positive, the frame is dropped and the one call
    made after the attempt is the handler's [DecryptionFailure]: no ratchet
    step is made and no key is installed, and [kDecryptionFailed] is stored
    and reported on the edge exactly when that call answers [true]. *)
Theorem decryptFrame_failure_without_ratchet (frame : Frame) (w w1 : World)
    (c : DecryptContext) (tr1 : list Event) :
  decrypt_setup frame w = Ret (Some c, w1, tr1) →
  (AesEncryptDecrypt kDecrypt (algorithm_ (cryptor w))
     (encryption_key (dc_key_set c)) (dc_iv c) (dc_frame_header c)
     (dc_encrypted_payload c)).1 ≠ Success →
  ratchet_window_size (options (key_provider_ w)) <= 0 →
  ∃ w' tr h,
    decryptFrame frame w = Ret (tt, w', tr) ∧
    delivered tr = [] ∧
    handlers (key_provider_ w) !! dc_key_handler c = Some h ∧
    key_calls tr
      = key_calls tr1 ++ [CallDecryptionFailure (DecryptionFailure h).1] ∧
    key_provider_ w' =
      set_handler (key_provider_ w) (dc_key_handler c) (DecryptionFailure h).2 ∧
    last_dec_error_ (cryptor w') =
      (if (DecryptionFailure h).1 then kDecryptionFailed
       else last_dec_error_ (cryptor w)) ∧
    notified tr =
      (if (DecryptionFailure h).1
       then edge_report (cryptor w) (last_dec_error_ (cryptor w)) kDecryptionFailed
       else []).
Proof.
  intros Hsetup Hno Hwin.
  destruct (decrypt_setup_inv _ _ _ _ _ Hsetup)
    as (Hp & [m Hc] & Hd1 & Hn1 & _ & _ & h & Hh & _).
  assert (Halg : algorithm_ (cryptor w1) = algorithm_ (cryptor w))
    by (by rewrite Hc).
  rewrite <- Halg in Hno. apply Z.eqb_neq in Hno.
  assert (Hh1 : handlers (key_provider_ w1) !! dc_key_handler c = Some h)
    by (by rewrite Hp).
  assert (Hor : decrypt_or_ratchet (dc_key_handler c) (dc_key_set c)
                  (dc_key_index c) (dc_iv c) (dc_frame_header c)
                  (dc_encrypted_payload c) w1 = Ret ((false, []), w1, [])).
  { unfold decrypt_or_ratchet. mstep. rewrite Hno, Hp.
    destruct (0 <? _) eqn:E; [lia|]. done. }
  exists (if (DecryptionFailure h).1
          then dec_state_world kDecryptionFailed
                 (with_handler w1 (dc_key_handler c) (DecryptionFailure h).2)
          else with_handler w1 (dc_key_handler c) (DecryptionFailure h).2).
  exists (tr1 ++ Key (CallDecryptionFailure (DecryptionFailure h).1)
              :: (if (DecryptionFailure h).1
                  then dec_state_events kDecryptionFailed w1 else [])).
  exists h. split.
  { unfold decryptFrame. rewrite (bind_Ret _ _ _ _ _ _ Hsetup).
    rewrite (bind_Ret_nil _ _ _ _ _ Hor).
    unfold decrypt_finish. cbn [fst snd negb].
    rewrite (bind_pure _ _ _ _ (get_handler_eq _ _ _ Hh1)). mstep.
    rewrite (bind_Ret _ _ _ _ _ _ (update_handler_eq _ _ _ _ Hh1)). mstep.
    destruct (DecryptionFailure h).1.
    - by rewrite dec_state_eq.
    - done. }
  rewrite delivered_app, key_calls_app, notified_app, Hd1, Hn1.
  cbn [app]. autorewrite with trace.
  change (key_calls (Key ?k :: ?l)) with (k :: key_calls l).
  destruct (DecryptionFailure h).1.
  - rewrite dec_state_world_last, dec_state_world_provider,
      delivered_dec_state_events, notified_dec_state_events,
      key_calls_dec_state_events.
    cbn [key_provider_ with_handler]. rewrite Hp, Hc.
    repeat split; done.
  - cbn [key_provider_ with_handler cryptor]. rewrite Hp, Hc.
    repeat split; done.
Qed.

End Properties.

(** ** The reference instance and the concrete session *)

Lemma Ref_tag_of_length (key iv ad pt : bytes) :
  length (Ref.tag_of key iv ad pt) = 16%nat.
Proof. unfold Ref.tag_of. by rewrite length_fmap, length_seqZ. Qed.

Lemma Ref_pad_involutive (k : Z) (pt : bytes) :
  map (Z.lxor k) (map (Z.lxor k) pt) = pt.
Proof.
  induction pt as [|b pt IH]; [done|]. cbn [map]. rewrite IH. f_equal.
  by rewrite <- Z.lxor_assoc, Z.lxor_nilpotent, Z.lxor_0_l.
Qed.

(** The reference AEAD opens what it seals. *)
Lemma Ref_aead_correct : AeadCorrect Ref.external.
Proof.
  split.
  - done.
  - intros alg key iv pt ad _ _. eexists. split; [reflexivity|].
    unfold size_of. rewrite length_app, length_map, Ref_tag_of_length. lia.
  - intros alg key iv pt ad ct [= <-]. cbn [EVP_AEAD_CTX_open Ref.external].
    unfold Ref.open.
    rewrite length_app, Ref_tag_of_length, length_map.
    replace (length pt + 16 - 16)%nat with (length (map (Z.lxor (Ref.pad key)) pt))
      by (rewrite length_map; lia).
    rewrite take_app_length, drop_app_length, Ref_pad_involutive.
    by rewrite bool_decide_eq_true_2.
Qed.

Lemma decryptFrame_magic_bytes_witness :
  decryptFrame (ext := Ref.external)
    (SetData (Session.frame kReceiver [])
       ([0x42] ++
        uncrypted_magic_bytes
          (options (key_provider_ (Session.world 2 [0xDE; 0xAD] Session.material0)))))
    (Session.world 2 [0xDE; 0xAD] Session.material0)
  = Ret (tt, Session.world 2 [0xDE; 0xAD] Session.material0,
         [OnTransformedFrame 1 (SetData (Session.frame kReceiver []) [0x42])]).
Proof.
  apply (decryptFrame_magic_bytes (ext := Ref.external)
           (Session.frame kReceiver []) [0x42]
           (Session.world 2 [0xDE; 0xAD] Session.material0) 1%nat).
  - discriminate.
  - reflexivity.
  - reflexivity.
Defined.

Lemma observer_edge_triggered_witness :
  ∃ w' trs,
    run (ext := Ref.external) Session.calls (Session.world 2 [] Session.material0)
      = Ret (w', trs) ∧
    notified_in kReceiver trs = [kDecryptionFailed] ∧
    no_repeat (notified_in kSender trs) ∧
    no_repeat (notified_in kReceiver trs) ∧
    (observer_ (cryptor (Session.world 2 [] Session.material0)) = true →
     edges (last_enc_error_ (cryptor (Session.world 2 [] Session.material0)))
       (notified_in kSender trs) (last_enc_error_ (cryptor w')) ∧
     edges (last_dec_error_ (cryptor (Session.world 2 [] Session.material0)))
       (notified_in kReceiver trs) (last_dec_error_ (cryptor w'))).
Proof.
  eexists _, _. split; [vm_compute; reflexivity|]. split; [reflexivity|].
  apply (observer_edge_triggered (ext := Ref.external) Session.calls
           (Session.world 2 [] Session.material0)).
  vm_compute. reflexivity.
Defined.

(** C6, as stated, fails: a trailer whose IV length byte is not twelve
    makes [decryptFrame] notify [kDecryptionFailed] and store it, and no
    call at all reaches the key handler. *)
Lemma DecryptionFailed_without_DecryptionFailure :
  ∃ w' tr,
    decryptFrame (ext := Ref.external) (Session.frame kReceiver [1; 2; 3])
      (Session.world 2 [] Session.material0) = Ret (tt, w', tr) ∧
    notified tr = [kDecryptionFailed] ∧
    last_dec_error_ (cryptor w') = kDecryptionFailed ∧
    key_calls tr = [].
Proof.
  eexists _, _. split; [vm_compute; reflexivity|]. by vm_compute.
Qed.

Lemma DecryptionFailed_origin_witness :
  (∃ ivLength,
     at_ (GetData (Session.frame kReceiver Session.encrypted_foreign))
       (size_t (size_of (GetData (Session.frame kReceiver Session.encrypted_foreign)) - 2))
       = Ret ivLength ∧
     ivLength ≠ getIvSize (cryptor (Session.world 2 [] Session.material0))) ∨
  failure_reported Session.foreign_events.
Proof.
  apply (DecryptionFailed_origin (ext := Ref.external)
           (Session.frame kReceiver Session.encrypted_foreign)
           (Session.world 2 [] Session.material0) Session.foreign_world
           Session.foreign_events).
  - vm_compute. reflexivity.
  - right. split; [reflexivity | discriminate].
Defined.

Lemma decryptFrame_short_payload_witness :
  decryptFrame (ext := Ref.external) (Session.frame kReceiver [0])
    (Session.world 2 [] Session.material0) = Fault OutOfBounds ∧
  size_t (size_of (GetData (Session.frame kReceiver [0])) - 2) = 2 ^ 64 - 1 ∧
  at_ (GetData (Session.frame kReceiver [0]))
    (size_t (size_of (GetData (Session.frame kReceiver [0])) - 2))
    = Fault OutOfBounds.
Proof.
  apply (decryptFrame_short_payload (ext := Ref.external)
           (Session.frame kReceiver [0]) (Session.world 2 [] Session.material0)
           1%nat).
  - reflexivity.
  - reflexivity.
  - reflexivity.
  - reflexivity.
Defined.

Lemma ratchet_exhausted_restores_material_witness :
  ∃ w' tr h',
    decryptFrame (ext := Ref.external)
      (Session.frame kReceiver Session.encrypted_foreign)
      (Session.world 2 [] Session.material0) = Ret (tt, w', tr) ∧
    delivered tr = [] ∧
    handlers (key_provider_ w') !! dc_key_handler Session.context_foreign = Some h' ∧
    GetKeySet h' (dc_key_index Session.context_foreign) = Some Session.key_set0 ∧
    material Session.key_set0 = material (dc_key_set Session.context_foreign).
Proof.
  apply (ratchet_exhausted_restores_material (ext := Ref.external)
           (Session.frame kReceiver Session.encrypted_foreign)
           (Session.world 2 [] Session.material0)
           (Session.world 2 [] Session.material0)
           Session.context_foreign Session.setup_events Session.key_set0).
  - vm_compute. reflexivity.
  - reflexivity.
  - vm_compute. discriminate.
  - intros j Hj.
    change (Z.to_nat _) with 2%nat in Hj.
    assert (Hj' : j = 1%nat ∨ j = 2%nat) by lia.
    destruct Hj' as [-> | ->]; eexists;
      (split; [vm_compute; reflexivity | vm_compute; discriminate]).
  - vm_compute. reflexivity.
Defined.

Lemma ratchet_success_at_window_rolls_back_witness :
  ∃ w' tr h',
    decryptFrame (ext := Ref.external)
      (Session.frame kReceiver Session.encrypted_ahead)
      (Session.world 1 [] Session.material0) = Ret (tt, w', tr) ∧
    delivered tr =
      [(dc_sink Session.context_ahead,
        SetData (Session.frame kReceiver Session.encrypted_ahead)
          (dc_frame_header Session.context_ahead ++ [72; 69; 76; 76; 79]))] ∧
    handlers (key_provider_ w') !! dc_key_handler Session.context_ahead = Some h' ∧
    has_valid_key h' = true ∧
    GetKeySet h' (dc_key_index Session.context_ahead) = Some Session.key_set0 ∧
    material Session.key_set0 = material (dc_key_set Session.context_ahead).
Proof.
  apply (ratchet_success_at_window_rolls_back (ext := Ref.external)
           (Session.frame kReceiver Session.encrypted_ahead)
           (Session.world 1 [] Session.material0)
           (Session.world 1 [] Session.material0)
           Session.context_ahead Session.setup_events Session.key_set1
           Session.key_set0 [72; 69; 76; 76; 79]).
  - vm_compute. reflexivity.
  - reflexivity.
  - vm_compute. discriminate.
  - intros j Hj. change (Z.to_nat _) with 1%nat in Hj. lia.
  - vm_compute. reflexivity.
  - vm_compute. reflexivity.
  - vm_compute. reflexivity.
Defined.

(** The failing input of C2, evaluated: with a window of one attempt and a
    sender one ratchet step ahead, [decryptFrame] installs the sender's
    material, sets the validity flag, and installs the old material again
    before it returns. *)
Example ratchet_window_of_one :
  ∃ w' tr h',
    decryptFrame (ext := Ref.external)
      (Session.frame kReceiver Session.encrypted_ahead)
      (Session.world 1 [] Session.material0) = Ret (tt, w', tr) ∧
    delivered tr = [(1%nat, Session.frame kReceiver Session.hello)] ∧
    notified tr = [kKeyRatcheted; kOk] ∧
    key_calls tr =
      [CallGetKey "alice"; CallGetKeySet 0; CallGetKeySet 0;
       CallRatchetKeyMaterial Session.material0;
       CallDeriveKeys Session.material1;
       CallSetKeyFromMaterial Session.material1 0;
       CallSetHasValidKey;
       CallSetKeyFromMaterial Session.material0 0] ∧
    handlers (key_provider_ w') !! "alice"%string = Some h' ∧
    material <$> GetKeySet h' 0 = Some Session.material0 ∧
    Session.material0 ≠ Session.material1.
Proof.
  eexists _, _, _. split; [vm_compute; reflexivity|].
  repeat split; try (vm_compute; reflexivity). discriminate.
Qed.



(** ** Further runs of the session *)

(** Magic bytes that happen to end the encrypted payload: with the magic
    byte [00] and the key index 0 the receiver takes the encrypted frame
    for a frame that was not encrypted, and forwards the sealed bytes. *)
Example roundtrip_magic_bytes_collision :
  ∃ wr' tr_r,
    decryptFrame (ext := Ref.external)
      (Session.frame kReceiver Session.encrypted_hello)
      (Session.world 2 [0] Session.material0) = Ret (tt, wr', tr_r) ∧
    delivered tr_r =
      [(1%nat, Session.frame kReceiver
                 (take 35 Session.encrypted_hello))] ∧
    take 35 Session.encrypted_hello ≠ Session.hello.
Proof.
  eexists _, _. split; [vm_compute; reflexivity|].
  split; [reflexivity | discriminate].
Qed.

(** H.264: the receiver reads the IV at its place in the escaped bytes.
    With the timestamp [0x64] the IV holds [00 00 00], the sender's
    escaping puts [03] into it, and the frame is not decrypted; with the
    timestamp [0x01020304] nothing is escaped and the payload comes
    back. *)
Example h264_iv_read_from_escaped_bytes :
  drop 26 (Session.encrypted_idr 0x64) =
    [0x11; 0x22; 0x33; 0x44; 0; 0; 3; 0; 0x64; 0; 0; 3; 0; 0x64; 12; 0] ∧
  (∃ w' tr,
     decryptFrame (ext := Ref.external)
       (Session.h264_frame kReceiver 0x64 (Session.encrypted_idr 0x64))
       Session.video_world = Ret (tt, w', tr) ∧
     delivered tr = [] ∧ notified tr = [kDecryptionFailed]) ∧
  (∃ w' tr,
     decryptFrame (ext := Ref.external)
       (Session.h264_frame kReceiver 0x01020304 (Session.encrypted_idr 0x01020304))
       Session.video_world = Ret (tt, w', tr) ∧
     delivered tr = [(1%nat, Session.h264_frame kReceiver 0x01020304 Session.idr)]).
Proof.
  split; [by vm_compute|].
  split; eexists _, _; (split; [vm_compute; reflexivity|]); by vm_compute.
Qed.

(** A received audio frame of fourteen bytes: the IV and the trailer fill
    all but one byte and the prefix takes that one, so the buffer of
    line 555 gets 13 bytes and the size of the buffer of line 566,
    [13 - 12 - 2], wraps around. *)
Example decryptFrame_wrapped_buffer_size :
  decryptFrame (ext := Ref.external)
    (Session.frame kReceiver [1; 2; 3; 4; 5; 6; 7; 8; 9; 10; 11; 12; 12; 0])
    (Session.world 2 [] Session.material0) = Fault BadAlloc.
Proof. vm_compute. reflexivity. Qed.

(** ** The further properties, on the session *)

Lemma NeedsRbspUnescaping_short_witness :
  NeedsRbspUnescaping [0; 0] = Fault OutOfBounds.
Proof. apply (NeedsRbspUnescaping_short [0; 0]). by vm_compute. Defined.

Lemma NeedsRbspUnescaping_scan_witness :
  ∃ b, NeedsRbspUnescaping [7; 0; 0; 3; 9] = Ret b ∧
       (b = true ↔
        ∃ i : nat, (i + 3 < length [7; 0; 0; 3; 9])%nat ∧
                   [7; 0; 0; 3; 9] !! i = Some 0 ∧
                   [7; 0; 0; 3; 9] !! S i = Some 0 ∧
                   [7; 0; 0; 3; 9] !! S (S i) = Some 3).
Proof.
  apply (NeedsRbspUnescaping_scan [7; 0; 0; 3; 9]). by vm_compute.
Defined.

Lemma AesEncryptDecrypt_unsupported_witness :
  (AesEncryptDecrypt (ext := Ref.external) kEncrypt kAesGcm (replicate 24 1)
     (replicate 12 0) [] Session.hello).1 = ErrorUnexpected.
Proof.
  apply (AesEncryptDecrypt_unsupported (ext := Ref.external) kEncrypt kAesGcm
           (replicate 24 1) (replicate 12 0) [] Session.hello).
  right. by vm_compute.
Defined.

Lemma AesEncryptDecrypt_decrypt_too_small_witness :
  (AesEncryptDecrypt (ext := Ref.external) kDecrypt kAesGcm (replicate 16 1)
     (replicate 12 0) [] [1; 2; 3]).1 ≠ Success ∧
  ∀ alg, kAesGcm = kAesGcm →
         GetAesGcmAlgorithmFromKeySize (size_of (replicate 16 1)) = Some alg →
         EVP_AEAD_CTX_init (External := Ref.external) alg (replicate 16 1) 16 = true →
         (AesEncryptDecrypt (ext := Ref.external) kDecrypt kAesGcm (replicate 16 1)
            (replicate 12 0) [] [1; 2; 3]).1 = ErrorDataTooSmall.
Proof.
  apply (AesEncryptDecrypt_decrypt_too_small (ext := Ref.external) kAesGcm
           (replicate 16 1) (replicate 12 0) [] [1; 2; 3]).
  by vm_compute.
Defined.

Lemma AesEncryptDecrypt_seal_then_open_witness :
  ∃ buffer,
    AesEncryptDecrypt (ext := Ref.external) kEncrypt kAesGcm (replicate 16 1)
      (replicate 12 0) [0xAA] Session.hello = (Success, buffer) ∧
    size_of buffer = size_of Session.hello + 16 ∧
    AesEncryptDecrypt (ext := Ref.external) kDecrypt kAesGcm (replicate 16 1)
      (replicate 12 0) [0xAA] buffer = (Success, Session.hello).
Proof.
  apply (AesEncryptDecrypt_seal_then_open (ext := Ref.external)
           (laws := Ref_aead_correct) (replicate 16 1) (replicate 12 0) [0xAA]
           Session.hello).
  - left. reflexivity.
  - reflexivity.
Defined.

Lemma get_unencrypted_bytes_h264_first_slice_witness :
  get_unencrypted_bytes (ext := Ref.external)
    (Session.h264_frame kSender 0x64 Session.idr) kVideoFrame
  = Ret ((payload_start_offset
            {| start_offset := 0; payload_start_offset := 3; payload_size := 7 |}
          + 2) mod 256).
Proof.
  apply (get_unencrypted_bytes_h264_first_slice (ext := Ref.external)
           (Session.h264_frame kSender 0x64 Session.idr) [] []
           {| start_offset := 0; payload_start_offset := 3; payload_size := 7 |}
           0x65).
  - reflexivity.
  - by vm_compute.
  - constructor.
  - by vm_compute.
  - left. by vm_compute.
Defined.

Lemma to_hex_injective_witness :
  ∃ sa sb, to_hex [0xDE; 0xAD] (size_of [0xDE; 0xAD]) = Ret sa ∧
           to_hex [0xBE; 0xEF] (size_of [0xBE; 0xEF]) = Ret sb ∧
           String.length sa = (2 * length [0xDE; 0xAD])%nat ∧
           (sa = sb → [0xDE; 0xAD] = [0xBE; 0xEF]).
Proof.
  apply (to_hex_injective [0xDE; 0xAD] [0xBE; 0xEF]);
    repeat constructor; lia.
Defined.

Lemma makeIv_distinct_streams_witness :
  0x11223344 = 0x11223344 ∧ 0x64 = 0x64.
Proof.
  apply (makeIv_distinct_streams 5 6 0x11223344 0x11223344 0x64 0x64
           (Session.transformer kOk) (Session.transformer kOk)
           (set_send_counts (Session.transformer kOk) {[ 0x11223344 := 1 ]})
           (set_send_counts (Session.transformer kOk) {[ 0x11223344 := 1 ]})
           (WriteUInt32 0x11223344 ++ WriteUInt32 0x64 ++ WriteUInt32 0x64));
    try (by vm_compute).
Defined.

Lemma makeIv_streams_commute_witness :
  ∃ t2, makeIv 6 2 0x64 (Session.transformer kOk)
          = Ret (WriteUInt32 2 ++ WriteUInt32 0x64 ++ WriteUInt32 0x64, t2) ∧
        makeIv 5 1 0x64 t2
          = Ret (WriteUInt32 1 ++ WriteUInt32 0x64 ++ WriteUInt32 0x64,
                 set_send_counts (Session.transformer kOk) {[ 1 := 1; 2 := 1 ]}).
Proof.
  apply (makeIv_streams_commute 5 6 1 2 0x64 0x64 (Session.transformer kOk)
           (set_send_counts (Session.transformer kOk) {[ 1 := 1 ]})).
  - discriminate.
  - by vm_compute.
  - by vm_compute.
Defined.

Lemma encryptFrame_not_ready_witness :
  encryptFrame (ext := Ref.external) 5 (Session.frame kSender Session.hello)
    Session.disabled_world =
  Ret (tt, Session.disabled_world,
       if discard_frame_when_cryptor_not_ready
            (options (key_provider_ Session.disabled_world))
       then [] else [OnTransformedFrame 1 (Session.frame kSender Session.hello)]).
Proof.
  apply (encryptFrame_not_ready (ext := Ref.external) 5
           (Session.frame kSender Session.hello) Session.disabled_world 1%nat).
  - reflexivity.
  - right. reflexivity.
Defined.

Lemma decryptFrame_not_ready_witness :
  decryptFrame (ext := Ref.external) (Session.frame kReceiver [])
    (Session.world 2 [] Session.material0) =
  Ret (tt, Session.world 2 [] Session.material0,
       if discard_frame_when_cryptor_not_ready
            (options (key_provider_ (Session.world 2 [] Session.material0)))
       then [] else [OnTransformedFrame 1 (Session.frame kReceiver [])]).
Proof.
  apply (decryptFrame_not_ready (ext := Ref.external)
           (Session.frame kReceiver [])
           (Session.world 2 [] Session.material0) 1%nat).
  - reflexivity.
  - left. reflexivity.
Defined.

Lemma no_sink_reports_internal_error_witness :
  (∃ w' tr, encryptFrame (ext := Ref.external) 5
              (Session.frame kSender Session.hello) Session.unplugged_world
              = Ret (tt, w', tr) ∧
            delivered tr = [] ∧ key_calls tr = [] ∧
            last_enc_error_ (cryptor w') = kInternalError ∧
            notified tr = edge_report (cryptor Session.unplugged_world)
                            (last_enc_error_ (cryptor Session.unplugged_world))
                            kInternalError) ∧
  (∃ w' tr, decryptFrame (ext := Ref.external)
              (Session.frame kSender Session.hello) Session.unplugged_world
              = Ret (tt, w', tr) ∧
            delivered tr = [] ∧ key_calls tr = [] ∧
            last_dec_error_ (cryptor w') = kInternalError ∧
            notified tr = edge_report (cryptor Session.unplugged_world)
                            (last_dec_error_ (cryptor Session.unplugged_world))
                            kInternalError).
Proof.
  apply (no_sink_reports_internal_error (ext := Ref.external) 5
           (Session.frame kSender Session.hello) Session.unplugged_world).
  reflexivity.
Defined.

Lemma encryptFrame_missing_key_witness :
  ∃ w' tr, encryptFrame (ext := Ref.external) 5
             (Session.frame kSender Session.hello) Session.stranger_world
             = Ret (tt, w', tr) ∧
           delivered tr = [] ∧
           last_enc_error_ (cryptor w') = kMissingKey ∧
           send_counts_ (cryptor w') = send_counts_ (cryptor Session.stranger_world) ∧
           key_provider_ w' = key_provider_ Session.stranger_world ∧
           notified tr = edge_report (cryptor Session.stranger_world)
                           (last_enc_error_ (cryptor Session.stranger_world))
                           kMissingKey.
Proof.
  apply (encryptFrame_missing_key (ext := Ref.external) 5
           (Session.frame kSender Session.hello) Session.stranger_world 1%nat).
  - reflexivity.
  - discriminate.
  - reflexivity.
  - intros h Hh. vm_compute in Hh. discriminate Hh.
Defined.

Lemma encryptFrame_aborts_unless_gcm_witness :
  encryptFrame (ext := Ref.external) 5 (Session.frame kSender Session.hello)
    Session.cbc_world = Fault CheckFailed.
Proof.
  apply (encryptFrame_aborts_unless_gcm (ext := Ref.external) 5
           (Session.frame kSender Session.hello) Session.cbc_world 1%nat
           (Session.handler Session.material0) Session.key_set0 1).
  - reflexivity.
  - discriminate.
  - reflexivity.
  - by vm_compute.
  - by vm_compute.
  - reflexivity.
  - by vm_compute.
  - discriminate.
Defined.

Lemma encryptFrame_short_frame_witness :
  encryptFrame (ext := Ref.external) 5
    (Session.vp8_key_frame kSender [1; 2; 3]) Session.video_world
  = Fault OutOfBounds.
Proof.
  apply (encryptFrame_short_frame (ext := Ref.external) 5
           (Session.vp8_key_frame kSender [1; 2; 3]) Session.video_world 1%nat
           (Session.handler Session.material0) Session.key_set0 10).
  - reflexivity.
  - by vm_compute.
  - by vm_compute.
  - by vm_compute.
  - reflexivity.
  - by vm_compute.
Defined.

Lemma encryptFrame_delivers_only_sealed_witness :
  delivered Session.sent_events = [] ∨
  ∃ sink h ks ub ct,
    sink_of (cryptor (Session.world 2 [] Session.material0))
      (Session.frame kSender Session.hello) = Some sink ∧
    handlers (key_provider_ (Session.world 2 [] Session.material0))
      !! handler_ref (key_provider_ (Session.world 2 [] Session.material0))
           (participant_id_ (cryptor (Session.world 2 [] Session.material0)))
      = Some h ∧
    GetKeySet h (key_index_ (cryptor (Session.world 2 [] Session.material0)))
      = Some ks ∧
    get_unencrypted_bytes (ext := Ref.external)
      (Session.frame kSender Session.hello)
      (type_ (cryptor (Session.world 2 [] Session.material0))) = Ret ub ∧
    let header := take (Z.to_nat ub) (GetData (Session.frame kSender Session.hello)) in
    let payload := drop (Z.to_nat ub) (GetData (Session.frame kSender Session.hello)) in
    let iv := iv_of (GetSsrc (Session.frame kSender Session.hello))
                (GetTimestamp (Session.frame kSender Session.hello))
                (counter_used (GetSsrc (Session.frame kSender Session.hello))
                   (cryptor (Session.world 2 [] Session.material0))) in
    let sealed := ct ++ iv ++ trailer_of (cryptor (Session.world 2 [] Session.material0)) in
    AesEncryptDecrypt (ext := Ref.external) kEncrypt
      (algorithm_ (cryptor (Session.world 2 [] Session.material0)))
      (encryption_key ks) iv header payload = (Success, ct) ∧
    last_enc_error_ (cryptor Session.sent_world) = kOk ∧
    delivered Session.sent_events =
      [(sink, SetData (Session.frame kSender Session.hello)
                (header ++
                 (if FrameIsH264 (Session.frame kSender Session.hello)
                       (type_ (cryptor (Session.world 2 [] Session.material0)))
                  then WriteRbsp (External := Ref.external) sealed else sealed)))].
Proof.
  apply (encryptFrame_delivers_only_sealed (ext := Ref.external) 5
           (Session.frame kSender Session.hello)
           (Session.world 2 [] Session.material0) Session.sent_world
           Session.sent_events).
  - by vm_compute.
  - reflexivity.
  - by vm_compute.
Defined.

Lemma decryptFrame_bad_iv_length_witness :
  ∃ w' tr, decryptFrame (ext := Ref.external) (Session.frame kReceiver [1; 2; 3])
             (Session.world 2 [] Session.material0) = Ret (tt, w', tr) ∧
           delivered tr = [] ∧ key_calls tr = [] ∧
           last_dec_error_ (cryptor w') = kDecryptionFailed ∧
           key_provider_ w' = key_provider_ (Session.world 2 [] Session.material0) ∧
           notified tr =
             edge_report (cryptor (Session.world 2 [] Session.material0))
               (last_dec_error_ (cryptor (Session.world 2 [] Session.material0)))
               kDecryptionFailed.
Proof.
  apply (decryptFrame_bad_iv_length (ext := Ref.external)
           (Session.frame kReceiver [1; 2; 3])
           (Session.world 2 [] Session.material0) 1%nat [1] 2 3 1).
  - reflexivity.
  - reflexivity.
  - reflexivity.
  - reflexivity.
  - reflexivity.
  - by vm_compute.
  - discriminate.
Defined.

Lemma decryptFrame_missing_key_witness :
  ∃ w' tr, decryptFrame (ext := Ref.external)
             (Session.frame kReceiver [0xAA; 1; 12; 200])
             (Session.world 2 [] Session.material0) = Ret (tt, w', tr) ∧
           delivered tr = [] ∧ Forall lookup_only tr ∧
           last_dec_error_ (cryptor w') = kMissingKey ∧
           key_provider_ w' = key_provider_ (Session.world 2 [] Session.material0) ∧
           notified tr =
             edge_report (cryptor (Session.world 2 [] Session.material0))
               (last_dec_error_ (cryptor (Session.world 2 [] Session.material0)))
               kMissingKey.
Proof.
  apply (decryptFrame_missing_key (ext := Ref.external)
           (Session.frame kReceiver [0xAA; 1; 12; 200])
           (Session.world 2 [] Session.material0) 1%nat [0xAA; 1] 12 200 1).
  - reflexivity.
  - reflexivity.
  - reflexivity.
  - reflexivity.
  - reflexivity.
  - by vm_compute.
  - reflexivity.
  - left. by vm_compute.
Defined.

Lemma decryptFrame_waits_for_key_witness :
  decryptFrame (ext := Ref.external)
    (Session.frame kReceiver Session.encrypted_hello)
    (Session.waiting_world Session.material0) =
  Ret (tt, Session.waiting_world Session.material0,
       [Key (if shared_key
                  (options (key_provider_ (Session.waiting_world Session.material0)))
             then CallGetSharedKey
                    (participant_id_ (cryptor (Session.waiting_world Session.material0)))
             else CallGetKey
                    (participant_id_ (cryptor (Session.waiting_world Session.material0))));
        Key (CallGetKeySet 0); Key (CallHasValidKey false)]).
Proof.
  apply (decryptFrame_waits_for_key (ext := Ref.external)
           (Session.frame kReceiver Session.encrypted_hello)
           (Session.waiting_world Session.material0) 1%nat
           (take 34 Session.encrypted_hello) 12 0 1
           {| crypto_key_ring := crypto_key_ring (Session.handler Session.material0);
              current_key_index := 0; has_valid_key := false;
              decryption_failure_count := 1; failure_threshold := 1 |}
           Session.key_set0).
  - reflexivity.
  - reflexivity.
  - by vm_compute.
  - by vm_compute.
  - reflexivity.
  - by vm_compute.
  - reflexivity.
  - by vm_compute.
  - by vm_compute.
  - by vm_compute.
  - reflexivity.
  - reflexivity.
Defined.

Lemma decryptFrame_truncated_frame_witness :
  decryptFrame (ext := Ref.external) (Session.frame kReceiver [0xAA; 12; 0])
    (Session.world 2 [] Session.material0) =
    Fault (if (size_of (GetData (Session.frame kReceiver [0xAA; 12; 0])) <? 1)
              || (size_of (GetData (Session.frame kReceiver [0xAA; 12; 0])) <? 12 + 2)
           then OutOfBounds else BadAlloc).
Proof.
  apply (decryptFrame_truncated_frame (ext := Ref.external)
           (Session.frame kReceiver [0xAA; 12; 0])
           (Session.world 2 [] Session.material0) 1%nat [0xAA] 0 1
           (Session.handler Session.material0) Session.key_set0).
  - reflexivity.
  - reflexivity.
  - reflexivity.
  - reflexivity.
  - reflexivity.
  - reflexivity.
  - reflexivity.
  - by vm_compute.
  - by vm_compute.
  - by vm_compute.
  - by vm_compute.
  - intros _. reflexivity.
Defined.

Lemma decryptFrame_first_attempt_witness :
  ∃ w' tr, decryptFrame (ext := Ref.external)
             (Session.frame kReceiver Session.encrypted_hello)
             (Session.world 2 [] Session.material0) = Ret (tt, w', tr) ∧
           delivered tr =
             [(dc_sink Session.context_hello,
               SetData (Session.frame kReceiver Session.encrypted_hello)
                 (dc_frame_header Session.context_hello ++ [72; 69; 76; 76; 79]))] ∧
           ratchet_attempts tr = [] ∧
           key_provider_ w' = key_provider_ (Session.world 2 [] Session.material0) ∧
           last_dec_error_ (cryptor w') = kOk ∧
           notified tr =
             edge_report (cryptor (Session.world 2 [] Session.material0))
               (last_dec_error_ (cryptor (Session.world 2 [] Session.material0))) kOk.
Proof.
  apply (decryptFrame_first_attempt (ext := Ref.external)
           (Session.frame kReceiver Session.encrypted_hello)
           (Session.world 2 [] Session.material0)
           (Session.world 2 [] Session.material0)
           Session.context_hello Session.setup_events [72; 69; 76; 76; 79]).
  - by vm_compute.
  - by vm_compute.
Defined.

Lemma ratchet_success_before_window_installs_witness :
  ∃ w' tr h',
    decryptFrame (ext := Ref.external)
      (Session.frame kReceiver Session.encrypted_ahead)
      (Session.world 2 [] Session.material0) = Ret (tt, w', tr) ∧
    delivered tr =
      [(dc_sink Session.context_ahead,
        SetData (Session.frame kReceiver Session.encrypted_ahead)
          (dc_frame_header Session.context_ahead ++ [72; 69; 76; 76; 79]))] ∧
    handlers (key_provider_ w') !! dc_key_handler Session.context_ahead = Some h' ∧
    has_valid_key h' = true ∧
    GetKeySet h' (dc_key_index Session.context_ahead) = Some Session.key_set1 ∧
    material Session.key_set1 =
      ratchet_n (ext := Ref.external)
        (ratchet_salt (options (key_provider_ (Session.world 2 [] Session.material0))))
        1 (material (dc_key_set Session.context_ahead)) ∧
    (observer_ (cryptor (Session.world 2 [] Session.material0)) = true →
     last_dec_error_ (cryptor (Session.world 2 [] Session.material0)) ≠ kKeyRatcheted →
     notified tr = [kKeyRatcheted; kOk]).
Proof.
  apply (ratchet_success_before_window_installs (ext := Ref.external)
           (Session.frame kReceiver Session.encrypted_ahead)
           (Session.world 2 [] Session.material0)
           (Session.world 2 [] Session.material0)
           Session.context_ahead Session.setup_events 1 Session.key_set1
           [72; 69; 76; 76; 79]).
  - by vm_compute.
  - vm_compute. discriminate.
  - lia.
  - by vm_compute.
  - intros j Hj. lia.
  - by vm_compute.
  - by vm_compute.
Defined.

Lemma decryptFrame_ratchets_within_window_witness :
  (length (ratchet_attempts Session.foreign_events)
   ≤ Z.to_nat (ratchet_window_size
                 (options (key_provider_ (Session.world 2 [] Session.material0)))))%nat.
Proof.
  apply (decryptFrame_ratchets_within_window (ext := Ref.external)
           (Session.frame kReceiver Session.encrypted_foreign)
           (Session.world 2 [] Session.material0) Session.foreign_world
           Session.foreign_events).
  by vm_compute.
Defined.

Lemma Transform_delivers_at_most_one_witness :
  delivered Session.sent_events = [] ∨
  ∃ sink d,
    sink_of (cryptor (Session.world 2 [] Session.material0))
      (Session.frame kSender Session.hello) = Some sink ∧
    delivered Session.sent_events
      = [(sink, SetData (Session.frame kSender Session.hello) d)].
Proof.
  apply (Transform_delivers_at_most_one (ext := Ref.external) 5
           (Session.frame kSender Session.hello)
           (Session.world 2 [] Session.material0) Session.sent_world
           Session.sent_events).
  by vm_compute.
Defined.

Lemma Transform_directions_independent_witness :
  match GetDirection (Session.frame kSender Session.hello) with
  | kSender =>
      same_keys (Session.world 2 [] Session.material0) Session.sent_world ∧
      Forall lookup_only Session.sent_events
  | kReceiver =>
      same_counters (Session.world 2 [] Session.material0) Session.sent_world
  | kUnknown =>
      Session.sent_world = Session.world 2 [] Session.material0 ∧
      Session.sent_events = []
  end.
Proof.
  apply (Transform_directions_independent (ext := Ref.external) 5
           (Session.frame kSender Session.hello)
           (Session.world 2 [] Session.material0) Session.sent_world
           Session.sent_events).
  by vm_compute.
Defined.

Lemma run_keeps_configuration_witness :
  same_configuration (Session.world 2 [] Session.material0) Session.calls_world.
Proof.
  apply (run_keeps_configuration (ext := Ref.external) Session.calls
           (Session.world 2 [] Session.material0) Session.calls_world
           Session.calls_events).
  by vm_compute.
Defined.

Lemma run_without_sinks_witness :
  run (ext := Ref.external) Session.calls Session.unplugged_world
  = Ret (Session.unplugged_world,
         map (fun c => (GetDirection c.2, [])) Session.calls).
Proof.
  apply (run_without_sinks (ext := Ref.external) Session.calls
           Session.unplugged_world).
  - reflexivity.
  - by vm_compute.
Defined.

Lemma encryptFrame_encryption_failed_witness :
  ∃ w' tr, encryptFrame (ext := Ref.external) 5
             (Session.frame kSender Session.hello) Session.odd_key_world
             = Ret (tt, w', tr) ∧
           delivered tr = [] ∧
           last_enc_error_ (cryptor w') = kEncryptionFailed ∧
           send_counts_ (cryptor w') !! GetSsrc (Session.frame kSender Session.hello)
             = Some (uint32
                       (counter_used (GetSsrc (Session.frame kSender Session.hello))
                          (cryptor Session.odd_key_world) + 1)) ∧
           notified tr = edge_report (cryptor Session.odd_key_world)
                           (last_enc_error_ (cryptor Session.odd_key_world))
                           kEncryptionFailed.
Proof.
  apply (encryptFrame_encryption_failed (ext := Ref.external) 5
           (Session.frame kSender Session.hello) Session.odd_key_world 1%nat
           Session.odd_handler Session.odd_key_set 1).
  - reflexivity.
  - reflexivity.
  - reflexivity.
  - by vm_compute.
  - by vm_compute.
  - reflexivity.
  - by vm_compute.
  - by vm_compute.
  - vm_compute. discriminate.
Defined.

Lemma decryptFrame_failure_without_ratchet_witness :
  ∃ w' tr h,
    decryptFrame (ext := Ref.external)
      (Session.frame kReceiver Session.encrypted_foreign)
      (Session.world 0 [] Session.material0) = Ret (tt, w', tr) ∧
    delivered tr = [] ∧
    handlers (key_provider_ (Session.world 0 [] Session.material0))
      !! dc_key_handler Session.context_foreign = Some h ∧
    key_calls tr
      = key_calls Session.setup_events
        ++ [CallDecryptionFailure (DecryptionFailure h).1] ∧
    key_provider_ w' =
      set_handler (key_provider_ (Session.world 0 [] Session.material0))
        (dc_key_handler Session.context_foreign) (DecryptionFailure h).2 ∧
    last_dec_error_ (cryptor w') =
      (if (DecryptionFailure h).1 then kDecryptionFailed
       else last_dec_error_ (cryptor (Session.world 0 [] Session.material0))) ∧
    notified tr =
      (if (DecryptionFailure h).1
       then edge_report (cryptor (Session.world 0 [] Session.material0))
              (last_dec_error_ (cryptor (Session.world 0 [] Session.material0)))
              kDecryptionFailed
       else []).
Proof.
  apply (decryptFrame_failure_without_ratchet (ext := Ref.external)
           (Session.frame kReceiver Session.encrypted_foreign)
           (Session.world 0 [] Session.material0)
           (Session.world 0 [] Session.material0)
           Session.context_foreign Session.setup_events).
  - by vm_compute.
  - vm_compute. discriminate.
  - by vm_compute.
Defined.
